(** * ui-inspector: the screen mirror's coordinate reconciliation, gesture
      recognition, overlay extraction and stream session handling

    A shallow embedding of the [ScreenCanvas] component (the second half of
    [frontend/src/components/XPathPlayground.tsx] in the source tree), of
    [handleDeviceChange] of the [App] component and of the type definitions
    ([DeviceInfo], [BoundsComputed], [NodeAttributes], [HierarchyNode]).

    Numbers.  A JavaScript [number] is modelled as a rational ([Q]): the
    finite numbers that a JSON response, an image dimension or a pointer
    position can carry.  Where the component compares a computed number with
    another one to decide what it does, the computation is rounded as the
    engine rounds it, operation by operation, to the nearest binary64 number
    ([JS.double]): the extent and the oversize test of [recalcHierarchyFit],
    and the distance that the pointer handlers compare with the swipe
    threshold.  The coordinate conversions and [calculateScale] are kept in
    exact arithmetic: what is stated of them is stated up to that rounding.
    Overflow, the infinities and NaN are outside the model.  A quotient by
    zero (an infinity or NaN in JavaScript) has no counterpart:
    [recalcHierarchyFit] guards its divisors, the statement about
    [calculateScale] takes the device dimensions positive, and the pointer
    handlers only run on a stage of positive size, where the scale and the
    canvas height are not zero.

    Also embedded: the keys of the [HierarchyTree] component
    ([convertToTreeData], [findNodeByKey], [getAllKeys] and the keys of
    [expandAndSelectNode]), and what [App] keeps in its [overlays] state
    ([handleNodeHover], [handleNodeSelect], [handleXPathResults], the
    settled part of [handleTap] and of the playground's [executeQuery]).
    Array indices are natural numbers, printed in decimal as a template
    literal prints them.

    Effects.  React state and refs are fields of explicit state records; an
    event handler is a function from the state (and the event's payload) to
    the next state and the list of requests it sends. *)

From Stdlib Require Import QArith Qround Qabs Qpower ZArith List String Ascii Bool Lia.
From Stdlib Require Import Reals Qreals.
From Stdlib Require Lqa Lra.
From Stdlib Require Decimal DecimalString DecimalNat DecimalFacts.
From stdpp Require Import base list.

Import ListNotations.
Local Open Scope Q_scope.
Local Set Warnings "-register-all".

(* ================================================================== *)
(** * Part I: the program *)
(* ================================================================== *)

(** ** JavaScript numbers and the [Math] functions the component uses *)
Module JS.

Definition number : Type := Q.

(** [a < b], [a <= b] and [a > b] on numbers, as booleans. *)
Definition ltb (a b : number) : bool := negb (Qle_bool b a).
Definition leb (a b : number) : bool := Qle_bool a b.
Definition gtb (a b : number) : bool := ltb b a.

(** [Math.max(a, b)] and [Math.min(a, b)]. *)
Definition Math_max (a b : number) : number := if ltb a b then b else a.
Definition Math_min (a b : number) : number := if ltb b a then b else a.

(** [Math.min(a, b, c)]. *)
Definition Math_min3 (a b c : number) : number := Math_min (Math_min a b) c.

(** [Math.round(x)]: the nearest integer, a tie going towards +infinity. *)
Definition Math_round (x : number) : number := inject_Z (Qfloor (x + (1 # 2))).

(** *** Binary64 arithmetic

    A binary64 number is [m * 2^e] for an integer [m] of at most 53 bits and
    [e >= -1074].  [double q] is the binary64 number nearest to [q], a tie
    going to the even [m]: what the arithmetic of the engine returns for the
    exact result [q] (results beyond the largest binary64 number, which the
    engine turns into an infinity, are outside the model). *)

Definition pow2 (e : Z) : Q := Qpower 2 e.

(** The binary exponent of [q <> 0]: [2^e <= |q| < 2^(e+1)]. *)
Definition exponent (q : Q) : Z :=
  let e := (Z.log2 (Z.abs (Qnum q)) - Z.log2 (Z.pos (Qden q)))%Z in
  if Qle_bool (pow2 e) (Qabs q) then e else (e - 1)%Z.

(** The integer nearest to [q], the even one of the two on a tie. *)
Definition nearest_even (q : Q) : Z :=
  let f := Qfloor q in
  match Qcompare (q - inject_Z f) (1 # 2) with
  | Lt => f
  | Gt => (f + 1)%Z
  | Eq => if Z.even f then f else (f + 1)%Z
  end.

(** The spacing of the binary64 numbers around a number of exponent [e]:
    [2^(e-52)], and [2^-1074] in the subnormal range. *)
Definition ulp (e : Z) : Q := pow2 (Z.max e (-1022) - 52).

Definition double (q : Q) : number :=
  if Qeq_bool q 0 then 0
  else
    let u := ulp (exponent q) in
    Qred (inject_Z (nearest_even (q / u)) * u).

(** [a + b], [a - b], [a * b] and [a / b] of the engine. *)
Definition add (a b : number) : number := double (a + b).
Definition sub (a b : number) : number := double (a - b).
Definition mul (a b : number) : number := double (a * b).
Definition div (a b : number) : number := double (a / b).

(** [Math.sqrt(s)] for [s >= 0]: the binary64 number nearest to the square
    root of [s].  With [u] the spacing at the exponent of the root and
    [t = s / u^2], the root is [sqrt t * u]; [n] is the integer part of
    [sqrt t], and the root is nearer to [n + 1] than to [n] when
    [t > (n + 1/2)^2].  ([Math.sqrt] of a negative number is NaN; the
    component takes the root of a sum of squares.) *)
Definition Math_sqrt (s : number) : number :=
  if Qle_bool s 0 then 0
  else
    let u := pow2 ((exponent s / 2) - 52) in
    let t := s / (u * u) in
    let n := Z.sqrt (Qfloor t) in
    let half := inject_Z n + (1 # 2) in
    let n' := match Qcompare t (half * half) with
              | Lt => n
              | Gt => (n + 1)%Z
              | Eq => if Z.even n then n else (n + 1)%Z
              end in
    Qred (inject_Z n' * u).

(** [a === v] for a string [a] that may be [null] or [undefined]. *)
Definition strict_eq (a : option string) (v : string) : bool :=
  match a with
  | Some s => String.eqb s v
  | None => false
  end.

(** A number that is a whole number. *)
Definition is_integer (x : number) : Prop := exists z : Z, x = inject_Z z.

End JS.

(** ** The types of the hierarchy and of the device *)

Record DeviceInfo : Type := mkDeviceInfo {
  serial : string;
  width : JS.number;
  height : JS.number;
  platform : string
}.

Record BoundsComputed : Type := mkBounds {
  x : JS.number;
  y : JS.number;
  w : JS.number;
  h : JS.number
}.

(** [NodeAttributes]: every attribute is optional; only the ones that
    [ScreenCanvas] reads are kept. *)
Record NodeAttributes : Type := mkAttrs {
  visible : option string;
  clickable : option string;
  scrollable : option string;
  focusable : option string;
  long_clickable : option string;
  text : option string;
  resource_id : option string;
  content_desc : option string;
  bounds_computed : option BoundsComputed
}.

Inductive HierarchyNode : Type :=
| Node (tag : string) (attributes : NodeAttributes) (children : list HierarchyNode).

Definition tag (n : HierarchyNode) : string := let 'Node t _ _ := n in t.
Definition attributes (n : HierarchyNode) : NodeAttributes := let 'Node _ a _ := n in a.
Definition children (n : HierarchyNode) : list HierarchyNode := let 'Node _ _ c := n in c.

(** The nodes of a tree, parents before children, siblings left to right. *)
Fixpoint preorder (n : HierarchyNode) : list HierarchyNode :=
  match n with
  | Node _ _ cs => n :: flat_map preorder cs
  end.

Record Size : Type := mkSize { s_width : JS.number; s_height : JS.number }.
Record Point : Type := mkPoint { p_x : JS.number; p_y : JS.number }.

(** ** Coordinate reconciliation *)
Module Reconciler.
Import JS.

Record Extent : Type := mkExtent { maxRight : number; maxBottom : number }.

(** One visit of [walk] in [estimateHierarchyBounds]: the update of the two
    running maxima by the node's own bounds. *)
Definition visit (e : Extent) (n : HierarchyNode) : Extent :=
  match bounds_computed (attributes n) with
  | Some b =>
      if gtb (w b) 0 && gtb (h b) 0
      then mkExtent (Math_max (maxRight e) (add (x b) (w b)))
                    (Math_max (maxBottom e) (add (y b) (h b)))
      else e
  | None => e
  end.

(** [walk]: the node, then its children in order, threading the maxima. *)
Fixpoint walk (n : HierarchyNode) (e : Extent) : Extent :=
  match n with
  | Node _ _ cs => fold_left (fun acc c => walk c acc) cs (visit e n)
  end.

Definition estimateHierarchyBounds (node : HierarchyNode) : Extent :=
  walk node (mkExtent 0 0).

(** [sized n b]: node [n] declares the bounds [b], of strictly positive
    width and height. *)
Definition sized (n : HierarchyNode) (b : BoundsComputed) : Prop :=
  bounds_computed (attributes n) = Some b /\ 0 < w b /\ 0 < h b.

Record Fit : Type := mkFit { fit_x : number; fit_y : number }.

(** [fitX] and [fitY] of [recalcHierarchyFit] as they stand just before the
    clamp, for an extent that passed the [maxRight <= 0 || maxBottom <= 0]
    return. *)
Definition rawFit (e : Extent) (dInfo : DeviceInfo) (frame : Size) : Fit :=
  let oversizedX := gtb (maxRight e) (mul (width dInfo) (double (12 # 10))) in
  let oversizedY := gtb (maxBottom e) (mul (height dInfo) (double (12 # 10))) in
  if oversizedX || oversizedY then
    if gtb (s_width frame) 0 && gtb (s_height frame) 0
    then mkFit (div (width dInfo) (s_width frame)) (div (height dInfo) (s_height frame))
    else mkFit (div (width dInfo) (maxRight e)) (div (height dInfo) (maxBottom e))
  else mkFit 1 1.

Definition clamp (v : number) : number := Math_max (double (1 # 10)) (Math_min 2 v).

(** [recalcHierarchyFit]: the value handed to [setHierarchyFit]. *)
Definition recalcHierarchyFit (tree : option HierarchyNode) (dInfo : option DeviceInfo)
    (frame : Size) : Fit :=
  match tree, dInfo with
  | Some t, Some d =>
      let e := estimateHierarchyBounds t in
      if leb (maxRight e) 0 || leb (maxBottom e) 0 then mkFit 1 1
      else
        let f := rawFit e d frame in
        mkFit (clamp (fit_x f)) (clamp (fit_y f))
  | _, _ => mkFit 1 1
  end.

(** What [calculateScale] reads from the page: the container's
    [clientWidth] when the container is mounted, and the window's inner
    size. *)
Record Viewport : Type := mkViewport {
  clientWidth : option number;
  innerWidth : number;
  innerHeight : number
}.

Definition overhead : number := 55 + 16 + 38.

Definition availableWidth (v : Viewport) : number :=
  match clientWidth v with
  | Some cw => Math_max cw 160
  | None => innerWidth v / 3 - 24
  end.

Definition availableHeight (v : Viewport) : number := innerHeight v - 96 - overhead.

(** [calculateScale]: the scale handed to [setScale] and the size handed to
    [setCanvasSize].  In exact arithmetic: the engine rounds each quotient
    and product to binary64, so the numbers it sets are these up to a
    relative error of [2^-53] per operation.  For a device dimension of zero
    the engine's quotient is an infinity or NaN, which the model has not:
    what is stated takes the dimensions positive. *)
Definition calculateScale (v : Viewport) (deviceWidth deviceHeight : number) : number * Size :=
  let scaleX := availableWidth v / deviceWidth in
  let scaleY := availableHeight v / deviceHeight in
  let newScale := Math_min3 scaleX scaleY (12 # 10) in
  (newScale, mkSize (deviceWidth * newScale) (deviceHeight * newScale)).

(** [canvasToDevice] and [deviceToCanvas]. *)
Definition canvasToDevice (deviceInfo : option DeviceInfo) (scale : number)
    (canvasX canvasY : number) : Point :=
  match deviceInfo with
  | None => mkPoint 0 0
  | Some _ => mkPoint (Math_round (canvasX / scale)) (Math_round (canvasY / scale))
  end.

Definition deviceToCanvas (hierarchyFit : Fit) (scale : number)
    (deviceX deviceY : number) : Point :=
  mkPoint (deviceX * fit_x hierarchyFit * scale) (deviceY * fit_y hierarchyFit * scale).

End Reconciler.

(** ** Extraction of the interactive elements *)
Module Extractor.
Import JS.
Local Open Scope string_scope.

(** An entry of [elementBounds]. *)
Record ElementBound : Type := mkElementBound {
  bounds : BoundsComputed;
  label : string;
  color : string
}.

(** Truthiness of a string: it is not empty. *)
Definition nonempty (s : string) : bool := negb (String.eqb s "").

(** Truthiness of an optional string attribute: present and not empty. *)
Definition truthy (a : option string) : bool :=
  match a with
  | Some s => nonempty s
  | None => false
  end.

(** [s.split(sep)] for a separator of one character. *)
Fixpoint split (sep : ascii) (s : string) : list string :=
  match s with
  | EmptyString => [EmptyString]
  | String c s' =>
      if Ascii.eqb c sep then EmptyString :: split sep s'
      else match split sep s' with
           | seg :: rest => String c seg :: rest
           | [] => [String c EmptyString]
           end
  end.

(** [l.pop()]: the last element, [undefined] on an empty array. *)
Fixpoint pop (l : list string) : option string :=
  match l with
  | [] => None
  | [s] => Some s
  | _ :: l' => pop l'
  end.

(** [v || ''] for a string or [undefined]. *)
Definition or_empty (v : option string) : string :=
  match v with
  | Some s => s
  | None => ""
  end.

(** The colour chosen for an included node. *)
Definition colorOf (attrs : NodeAttributes) : string :=
  if strict_eq (clickable attrs) "true" then "#52c41a"
  else if strict_eq (scrollable attrs) "true" then "#faad14"
  else if strict_eq (long_clickable attrs) "true" then "#13c2c2"
  else "#1890ff".

(** [label] after the truncation of long labels. *)
Definition truncate (label : string) : string :=
  if nonempty label && (20 <? String.length label)%nat
  then substring 0 17 label ++ "..."
  else label.

(** The label chosen for an included node. *)
Definition labelOf (n : HierarchyNode) : string :=
  let attrs := attributes n in
  let label :=
    if truthy (text attrs) then or_empty (text attrs)
    else if truthy (resource_id attrs)
         then or_empty (pop (split "/" (or_empty (resource_id attrs))))
    else if truthy (content_desc attrs) then or_empty (content_desc attrs)
    else "" in
  let label := truncate label in
  if nonempty label then label
  else or_empty (pop (split "." (tag n))).

(** The test that guards [results.push] in [traverse], for a node whose
    [bounds_computed] is [boundsComputed]. *)
Definition included (attrs : NodeAttributes) (boundsComputed : BoundsComputed) : bool :=
  (strict_eq (clickable attrs) "true"
   || strict_eq (scrollable attrs) "true"
   || strict_eq (focusable attrs) "true"
   || strict_eq (long_clickable attrs) "true"
   || truthy (text attrs))
  && gtb (w boundsComputed) 10
  && gtb (h boundsComputed) 10
  && ltb (w boundsComputed) 2000
  && ltb (h boundsComputed) 3000.

(** The body of [traverse] between the visibility test and the visit of
    the children: the push of the node's own entry. *)
Definition pushOwn (n : HierarchyNode) (results : list ElementBound) : list ElementBound :=
  let attrs := attributes n in
  match bounds_computed attrs with
  | Some boundsComputed =>
      if included attrs boundsComputed
      then (results ++ [mkElementBound boundsComputed (labelOf n) (colorOf attrs)])%list
      else results
  | None => results
  end.

(** [traverse]: [results] is the array the walk pushes to. *)
Fixpoint traverse (n : HierarchyNode) (results : list ElementBound) : list ElementBound :=
  match n with
  | Node _ attrs cs =>
      if strict_eq (visible attrs) "false"
      then fold_left (fun acc child => traverse child acc) cs results
      else fold_left (fun acc child => traverse child acc) cs (pushOwn n results)
  end.

Definition extractElementBounds (node : HierarchyNode) : list ElementBound :=
  traverse node [].

(** *** The extractor in the words of the specification *)

(** [overlay_for n e]: node [n] is not marked not-visible, has computed
    bounds of width in (10, 2000) and height in (10, 3000), is clickable,
    scrollable, focusable or long-clickable or has a non-empty text, and
    [e] is its overlay. *)
Definition overlay_for (n : HierarchyNode) (e : ElementBound) : Prop :=
  let attrs := attributes n in
  visible attrs <> Some "false" /\
  exists b,
    bounds_computed attrs = Some b /\
    (10 < w b /\ w b < 2000) /\ (10 < h b /\ h b < 3000) /\
    (clickable attrs = Some "true" \/ scrollable attrs = Some "true" \/
     focusable attrs = Some "true" \/ long_clickable attrs = Some "true" \/
     exists s, text attrs = Some s /\ s <> "") /\
    e = mkElementBound b (labelOf n) (colorOf attrs).

(** The overlay of a single node, when it has one. *)
Definition entryOf (n : HierarchyNode) : option ElementBound :=
  if strict_eq (visible (attributes n)) "false" then None
  else match pushOwn n [] with
       | e :: _ => Some e
       | [] => None
       end.

(** The overlays of a list of nodes, in the order of the list. *)
Definition entries (l : list HierarchyNode) : list ElementBound :=
  flat_map (fun n => match entryOf n with Some e => [e] | None => [] end) l.

(** The last segment of [s] between occurrences of [sep]. *)
Definition last_segment (sep : ascii) (s : string) : string := or_empty (pop (split sep s)).

(** The label as the specification words it: the first non-empty of the
    text (truncated when longer than 20), the last path segment of the
    resource-id, the content-description and the last dotted segment of
    the tag. *)
Definition first_nonempty (candidates : list string) : string :=
  match List.filter nonempty candidates with
  | s :: _ => s
  | [] => ""
  end.

Definition claimedLabel (n : HierarchyNode) : string :=
  let attrs := attributes n in
  first_nonempty
    [ truncate (or_empty (text attrs));
      last_segment "/" (or_empty (resource_id attrs));
      or_empty (content_desc attrs);
      last_segment "." (tag n) ].

End Extractor.

(** ** Pointer handling: coordinates, taps and swipes *)
Module Gesture.
Import JS Reconciler.

(** [tapStartRef.current]: the device point and the canvas point captured
    on pointer-down. *)
Record TapStart : Type := mkTapStart {
  ts_x : number;
  ts_y : number;
  ts_canvasX : number;
  ts_canvasY : number
}.

Record Arrow : Type := mkArrow { x1 : number; y1 : number; x2 : number; y2 : number }.

(** [Coordinate], as [handleMouseMove] builds it. *)
Record Coordinate : Type := mkCoordinate {
  c_x : number;
  c_y : number;
  c_canvasX : number;
  c_canvasY : number
}.

(** The props, state and refs of [ScreenCanvas] that the pointer handlers
    read or write.  [coordinate] is the parent's [currentCoordinate], which
    [onCoordinateUpdate] sets; [onTap] tells whether the prop is given. *)
Record Canvas : Type := mkCanvas {
  deviceSerial : option string;
  deviceInfo : option DeviceInfo;
  scale : number;
  canvasSize : Size;
  frameSize : Size;
  onTap : bool;
  tapMode : bool;
  tapStartRef : option TapStart;
  swipeArrow : option Arrow;
  coordinate : option Coordinate
}.

Definition set_tapStartRef (v : option TapStart) (c : Canvas) : Canvas :=
  mkCanvas (deviceSerial c) (deviceInfo c) (scale c) (canvasSize c) (frameSize c) (onTap c)
           (tapMode c) v (swipeArrow c) (coordinate c).

Definition setSwipeArrow (v : option Arrow) (c : Canvas) : Canvas :=
  mkCanvas (deviceSerial c) (deviceInfo c) (scale c) (canvasSize c) (frameSize c) (onTap c)
           (tapMode c) (tapStartRef c) v (coordinate c).

Definition onCoordinateUpdate (v : option Coordinate) (c : Canvas) : Canvas :=
  mkCanvas (deviceSerial c) (deviceInfo c) (scale c) (canvasSize c) (frameSize c) (onTap c)
           (tapMode c) (tapStartRef c) (swipeArrow c) v.

(** What a handler sends out: [interactionAPI.tap], [interactionAPI.swipe]
    and the [onTap] callback (the element lookup by coordinate). *)
Inductive Request : Type :=
| Tap (serial : string) (x y : number)
| Swipe (serial : string) (x1 y1 x2 y2 duration : number)
| Lookup (x y : number).

Definition SWIPE_THRESHOLD : number := 20.

(** [dist] of [handleMouseUp], for the pointer at [pos] and the captured
    start: [Math.sqrt(dx * dx + dy * dy)]. *)
Definition dist (pos : Point) (start : TapStart) : number :=
  let dx := sub (p_x pos) (ts_canvasX start) in
  let dy := sub (p_y pos) (ts_canvasY start) in
  Math_sqrt (add (mul dx dx) (mul dy dy)).

(** [Math.sqrt(dx * dx + dy * dy) > SWIPE_THRESHOLD]. *)
Definition beyondThreshold (pos : Point) (start : TapStart) : bool :=
  gtb (dist pos start) SWIPE_THRESHOLD.

(** The handlers take the result of [stage.getPointerPosition()], which is
    [null] when the stage has no pointer. *)
Definition handleMouseMove (pointerPos : option Point) (c : Canvas) : Canvas :=
  match pointerPos with
  | None => c
  | Some pos =>
      let deviceCoord := canvasToDevice (deviceInfo c) (scale c) (p_x pos) (p_y pos) in
      let c := onCoordinateUpdate
                 (Some (mkCoordinate (p_x deviceCoord) (p_y deviceCoord) (p_x pos) (p_y pos))) c in
      match tapMode c, tapStartRef c with
      | true, Some start =>
          if beyondThreshold pos start
          then setSwipeArrow
                 (Some (mkArrow (ts_canvasX start) (ts_canvasY start) (p_x pos) (p_y pos))) c
          else c
      | _, _ => c
      end
  end.

Definition handleMouseLeave (c : Canvas) : Canvas :=
  setSwipeArrow None (onCoordinateUpdate None c).

Definition handleMouseDown (pointerPos : option Point) (c : Canvas) : Canvas :=
  if negb (tapMode c) then c
  else match pointerPos with
       | Some pos =>
           let dc := canvasToDevice (deviceInfo c) (scale c) (p_x pos) (p_y pos) in
           setSwipeArrow None
             (set_tapStartRef (Some (mkTapStart (p_x dc) (p_y dc) (p_x pos) (p_y pos))) c)
       | None => c
       end.

Definition handleMouseUp (pointerPos : option Point) (c : Canvas) : Canvas * list Request :=
  match tapMode c, tapStartRef c with
  | true, Some start =>
      match pointerPos with
      | None => (c, [])
      | Some pos =>
          let dist_gt := beyondThreshold pos start in
          let c' := setSwipeArrow None (set_tapStartRef None c) in
          match deviceSerial c with
          | Some serial =>
              if dist_gt
              then
                let endDc := canvasToDevice (deviceInfo c) (scale c) (p_x pos) (p_y pos) in
                (c', [Swipe serial (ts_x start) (ts_y start) (p_x endDc) (p_y endDc) 300])
              else (c', [Tap serial (ts_x start) (ts_y start)])
          | None => (c', [])
          end
      end
  | _, _ => (c, [])
  end.

Definition handleClick (pointerPos : option Point) (c : Canvas) : list Request :=
  if tapMode c then []
  else match pointerPos, onTap c, deviceInfo c with
       | Some pos, true, Some _ =>
           if gtb (s_width (frameSize c)) 0 && gtb (s_width (canvasSize c)) 0
           then [Lookup (Math_round (p_x pos * s_width (frameSize c) / s_width (canvasSize c)))
                        (Math_round (p_y pos * s_height (frameSize c) / s_height (canvasSize c)))]
           else
             let deviceCoord := canvasToDevice (deviceInfo c) (scale c) (p_x pos) (p_y pos) in
             [Lookup (p_x deviceCoord) (p_y deviceCoord)]
       | _, _, _ => []
       end.

(** *** The canvas over time *)

Definition set_deviceSerial (v : option string) (c : Canvas) : Canvas :=
  mkCanvas v (deviceInfo c) (scale c) (canvasSize c) (frameSize c) (onTap c)
           (tapMode c) (tapStartRef c) (swipeArrow c) (coordinate c).

Definition setDeviceInfo (v : option DeviceInfo) (c : Canvas) : Canvas :=
  mkCanvas (deviceSerial c) v (scale c) (canvasSize c) (frameSize c) (onTap c)
           (tapMode c) (tapStartRef c) (swipeArrow c) (coordinate c).

Definition setScale (v : number) (c : Canvas) : Canvas :=
  mkCanvas (deviceSerial c) (deviceInfo c) v (canvasSize c) (frameSize c) (onTap c)
           (tapMode c) (tapStartRef c) (swipeArrow c) (coordinate c).

Definition setCanvasSize (v : Size) (c : Canvas) : Canvas :=
  mkCanvas (deviceSerial c) (deviceInfo c) (scale c) v (frameSize c) (onTap c)
           (tapMode c) (tapStartRef c) (swipeArrow c) (coordinate c).

Definition setFrameSize (v : Size) (c : Canvas) : Canvas :=
  mkCanvas (deviceSerial c) (deviceInfo c) (scale c) (canvasSize c) v (onTap c)
           (tapMode c) (tapStartRef c) (swipeArrow c) (coordinate c).

Definition setTapMode (v : bool) (c : Canvas) : Canvas :=
  mkCanvas (deviceSerial c) (deviceInfo c) (scale c) (canvasSize c) (frameSize c) (onTap c)
           v (tapStartRef c) (swipeArrow c) (coordinate c).

(** The canvas as [ScreenCanvas] mounts it, for the props [deviceSerial] and
    [onTap]: the initial values of the [useState] and [useRef] calls. *)
Definition mount (deviceSerial : option string) (onTap : bool) : Canvas :=
  mkCanvas deviceSerial None 1 (mkSize 360 640) (mkSize 0 0) onTap false None None None.

(** [calculateScale] on the canvas: the only caller of [setScale] and
    [setCanvasSize]. *)
Definition rescale (v : Viewport) (deviceWidth deviceHeight : number) (c : Canvas) : Canvas :=
  let '(newScale, size) := calculateScale v deviceWidth deviceHeight in
  setCanvasSize size (setScale newScale c).

Inductive PointerEvent : Type :=
| MouseMove (pointerPos : option Point)
| MouseLeave
| MouseDown (pointerPos : option Point)
| MouseUp (pointerPos : option Point)
| Click (pointerPos : option Point).

(** What happens to the canvas:
    - [DeviceSelected serial]: the [deviceSerial] prop changes;
    - [DeviceInfoLoaded info v]: [fetchDeviceInfo] got [info], with the page
      as [v]: [setDeviceInfo(info)], then [calculateScale];
    - [WindowResized v]: [handleResize], which needs the device info;
    - [FrameDecoded frame]: [img.onload], [setFrameSize];
    - [TapModeToggled]: the tap-mode button;
    - [Pointer ev]: a pointer event of the stage. *)
Inductive Event : Type :=
| DeviceSelected (serial : option string)
| DeviceInfoLoaded (info : DeviceInfo) (v : Viewport)
| WindowResized (v : Viewport)
| FrameDecoded (frame : Size)
| TapModeToggled
| Pointer (ev : PointerEvent).

(** The stage is rendered while a device is selected, with the width and
    height of the canvas: a pointer can only be over a stage of positive
    width and height. *)
Definition hasStage (c : Canvas) : bool :=
  match deviceSerial c with
  | Some _ => gtb (s_width (canvasSize c)) 0 && gtb (s_height (canvasSize c)) 0
  | None => false
  end.

Definition dispatch (ev : PointerEvent) (c : Canvas) : Canvas * list Request :=
  match ev with
  | MouseMove pointerPos => (handleMouseMove pointerPos c, [])
  | MouseLeave => (handleMouseLeave c, [])
  | MouseDown pointerPos => (handleMouseDown pointerPos c, [])
  | MouseUp pointerPos => handleMouseUp pointerPos c
  | Click pointerPos => (c, handleClick pointerPos c)
  end.

Definition step (e : Event) (c : Canvas) : Canvas * list Request :=
  match e with
  | DeviceSelected serial => (set_deviceSerial serial c, [])
  | DeviceInfoLoaded info v =>
      (rescale v (width info) (height info) (setDeviceInfo (Some info) c), [])
  | WindowResized v =>
      match deviceInfo c with
      | Some info => (rescale v (width info) (height info) c, [])
      | None => (c, [])
      end
  | FrameDecoded frame => (setFrameSize frame c, [])
  | TapModeToggled => (setTapMode (negb (tapMode c)) c, [])
  | Pointer ev => if hasStage c then dispatch ev c else (c, [])
  end.

(** A run: the canvas after the events, and the requests sent on the way. *)
Fixpoint run (es : list Event) (c : Canvas) : Canvas * list Request :=
  match es with
  | [] => (c, [])
  | e :: es' =>
      let '(c1, sent1) := step e c in
      let '(c2, sent2) := run es' c1 in
      (c2, sent1 ++ sent2)
  end.

(** *** The notions the specification uses *)

(** The Euclidean distance, in render space, between [pos] and the canvas
    point of the captured start: a real number, the square root of the
    exact sum of the squares of the two offsets. *)
Definition squaredDistance (pos : Point) (start : TapStart) : Q :=
  (p_x pos - ts_canvasX start) * (p_x pos - ts_canvasX start)
  + (p_y pos - ts_canvasY start) * (p_y pos - ts_canvasY start).

Definition distance (pos : Point) (start : TapStart) : R :=
  sqrt (Q2R (squaredDistance pos start)).

(** How far from the threshold the Euclidean distance has to be for the
    rounding of the handlers' arithmetic not to matter. *)
Definition rounding_margin : Q := pow2 (-43).

(** Every coordinate of a request is a whole number. *)
Definition integral (r : Request) : Prop :=
  match r with
  | Tap _ x y => is_integer x /\ is_integer y
  | Swipe _ x1 y1 x2 y2 _ =>
      is_integer x1 /\ is_integer y1 /\ is_integer x2 /\ is_integer y2
  | Lookup x y => is_integer x /\ is_integer y
  end.

(** The device point of a pending gesture is made of whole numbers. *)
Definition captured (c : Canvas) : Prop :=
  forall start, tapStartRef c = Some start -> is_integer (ts_x start) /\ is_integer (ts_y start).

(** The canvas has the size that [calculateScale] gave it for the scale. *)
Definition scaled (c : Canvas) : Prop :=
  exists deviceWidth deviceHeight,
    s_width (canvasSize c) == deviceWidth * scale c /\
    s_height (canvasSize c) == deviceHeight * scale c.

End Gesture.

(** ** The stream session: the WebSocket effect of [ScreenCanvas] *)
Module Stream.
Import JS.

(** [WebSocket.readyState]. *)
Inductive ReadyState : Type := CONNECTING | OPEN | CLOSING | CLOSED.

Definition is_closed (r : ReadyState) : bool :=
  match r with CLOSED => true | _ => false end.

(** A listener added with [addEventListener('close', ...)]: [onPrevClose]
    of the effect run for [deviceSerial]. *)
Inductive Listener : Type := OnPrevClose (deviceSerial : string).

(** A WebSocket object.  [ws_serial] is the device of its URL, and the
    [deviceSerial] that its [onopen], [onmessage] and [onclose] handlers
    close over. *)
Record WebSocket : Type := mkWebSocket {
  ws_serial : string;
  readyState : ReadyState;
  closeListeners : list Listener
}.

(** The payload of a message: an encoded image. *)
Definition Frame : Type := list Byte.byte.

(** The refs and state of [ScreenCanvas] that the stream touches, and the
    objects they refer to.  A WebSocket is named by its index in [sockets],
    the list of the sockets created so far; an object URL by its index in
    [blobs].  [deviceSerial] is the prop of the last commit, [timers] the
    pending [setTimeout(.., 2000)] callbacks, each with the [deviceSerial]
    of the effect run that set it. *)
Record State : Type := mkState {
  deviceSerial : option string;
  sockets : list WebSocket;
  wsRef : option nat;
  currentSerialRef : option string;
  imageUrlRef : option nat;
  imageUrl : option nat;
  frameRecvTsRef : number;
  isConnected : bool;
  loading : bool;
  blobs : list Frame;
  revoked : list nat;
  timers : list string
}.

Definition set_deviceSerial (v : option string) (s : State) : State :=
  mkState v (sockets s) (wsRef s) (currentSerialRef s) (imageUrlRef s) (imageUrl s)
          (frameRecvTsRef s) (isConnected s) (loading s) (blobs s) (revoked s) (timers s).
Definition set_sockets (v : list WebSocket) (s : State) : State :=
  mkState (deviceSerial s) v (wsRef s) (currentSerialRef s) (imageUrlRef s) (imageUrl s)
          (frameRecvTsRef s) (isConnected s) (loading s) (blobs s) (revoked s) (timers s).
Definition set_wsRef (v : option nat) (s : State) : State :=
  mkState (deviceSerial s) (sockets s) v (currentSerialRef s) (imageUrlRef s) (imageUrl s)
          (frameRecvTsRef s) (isConnected s) (loading s) (blobs s) (revoked s) (timers s).
Definition set_currentSerialRef (v : option string) (s : State) : State :=
  mkState (deviceSerial s) (sockets s) (wsRef s) v (imageUrlRef s) (imageUrl s)
          (frameRecvTsRef s) (isConnected s) (loading s) (blobs s) (revoked s) (timers s).
Definition set_imageUrlRef (v : option nat) (s : State) : State :=
  mkState (deviceSerial s) (sockets s) (wsRef s) (currentSerialRef s) v (imageUrl s)
          (frameRecvTsRef s) (isConnected s) (loading s) (blobs s) (revoked s) (timers s).
Definition setImageUrl (v : option nat) (s : State) : State :=
  mkState (deviceSerial s) (sockets s) (wsRef s) (currentSerialRef s) (imageUrlRef s) v
          (frameRecvTsRef s) (isConnected s) (loading s) (blobs s) (revoked s) (timers s).
Definition set_frameRecvTsRef (v : number) (s : State) : State :=
  mkState (deviceSerial s) (sockets s) (wsRef s) (currentSerialRef s) (imageUrlRef s) (imageUrl s)
          v (isConnected s) (loading s) (blobs s) (revoked s) (timers s).
Definition setIsConnected (v : bool) (s : State) : State :=
  mkState (deviceSerial s) (sockets s) (wsRef s) (currentSerialRef s) (imageUrlRef s) (imageUrl s)
          (frameRecvTsRef s) v (loading s) (blobs s) (revoked s) (timers s).
Definition setLoading (v : bool) (s : State) : State :=
  mkState (deviceSerial s) (sockets s) (wsRef s) (currentSerialRef s) (imageUrlRef s) (imageUrl s)
          (frameRecvTsRef s) (isConnected s) v (blobs s) (revoked s) (timers s).
Definition set_blobs (v : list Frame) (s : State) : State :=
  mkState (deviceSerial s) (sockets s) (wsRef s) (currentSerialRef s) (imageUrlRef s) (imageUrl s)
          (frameRecvTsRef s) (isConnected s) (loading s) v (revoked s) (timers s).
Definition set_revoked (v : list nat) (s : State) : State :=
  mkState (deviceSerial s) (sockets s) (wsRef s) (currentSerialRef s) (imageUrlRef s) (imageUrl s)
          (frameRecvTsRef s) (isConnected s) (loading s) (blobs s) v (timers s).
Definition set_timers (v : list string) (s : State) : State :=
  mkState (deviceSerial s) (sockets s) (wsRef s) (currentSerialRef s) (imageUrlRef s) (imageUrl s)
          (frameRecvTsRef s) (isConnected s) (loading s) (blobs s) (revoked s) v.

(** The state of a component that has not mounted yet. *)
Definition initial : State :=
  mkState None [] None None None None 0 false false [] [] [].

(** *** The browser's side of a WebSocket *)

(** [ws.close(..)]: a socket that is connecting or open starts its closing
    handshake; on a closing or closed socket the call does nothing. *)
Definition closing (ws : WebSocket) : WebSocket :=
  match readyState ws with
  | CONNECTING | OPEN => mkWebSocket (ws_serial ws) CLOSING (closeListeners ws)
  | CLOSING | CLOSED => ws
  end.

Definition ws_close (id : nat) (s : State) : State :=
  set_sockets (alter closing id (sockets s)) s.

(** [ws.addEventListener('close', l)]. *)
Definition addEventListener (id : nat) (l : Listener) (s : State) : State :=
  set_sockets
    (alter (fun ws => mkWebSocket (ws_serial ws) (readyState ws) (closeListeners ws ++ [l]))
           id (sockets s)) s.

(** The browser moves a socket to another ready state. *)
Definition set_readyState (id : nat) (r : ReadyState) (s : State) : State :=
  set_sockets
    (alter (fun ws => mkWebSocket (ws_serial ws) r (closeListeners ws)) id (sockets s)) s.

(** A one-shot listener removes itself when it runs. *)
Definition clearListeners (id : nat) (s : State) : State :=
  set_sockets
    (alter (fun ws => mkWebSocket (ws_serial ws) (readyState ws) []) id (sockets s)) s.

(** *** The component's code *)

Definition cleanupImageUrl (s : State) : State :=
  match imageUrlRef s with
  | Some url => setImageUrl None (set_imageUrlRef None (set_revoked (revoked s ++ [url]) s))
  | None => s
  end.

(** [openNewWs] of the effect run for [deviceSerial]. *)
Definition openNewWs (deviceSerial : string) (s : State) : State :=
  if negb (strict_eq (currentSerialRef s) deviceSerial) then s
  else
    let s := setLoading true s in
    let ws := length (sockets s) in
    set_wsRef (Some ws) (set_sockets (sockets s ++ [mkWebSocket deviceSerial CONNECTING []]) s).

(** The body of the streaming effect, run for the prop [deviceSerial]. *)
Definition effect (deviceSerial : option string) (s : State) : State :=
  match deviceSerial with
  | None =>
      let s := match wsRef s with
               | Some ws => set_wsRef None (ws_close ws s)
               | None => s
               end in
      cleanupImageUrl (setIsConnected false s)
  | Some serial =>
      let prevWs := wsRef s in
      let s := setIsConnected false (set_wsRef None (set_currentSerialRef (Some serial) s)) in
      match prevWs with
      | Some prev =>
          match sockets s !! prev with
          | Some ws =>
              if negb (is_closed (readyState ws))
              then ws_close prev (addEventListener prev (OnPrevClose serial) (cleanupImageUrl s))
              else openNewWs serial s
          | None => openNewWs serial s
          end
      | None => openNewWs serial s
      end
  end.

(** The cleanup that the effect returns when it ran for a device. *)
Definition cleanup (s : State) : State :=
  let s := set_currentSerialRef None s in
  let s := match wsRef s with
           | Some ws => set_wsRef None (ws_close ws s)
           | None => s
           end in
  cleanupImageUrl s.

(** [forceDisconnect], exposed to the parent through the ref. *)
Definition forceDisconnect (s : State) : State :=
  let s := match wsRef s with
           | Some ws => ws_close ws (set_wsRef None (set_currentSerialRef None s))
           | None => s
           end in
  cleanupImageUrl (setIsConnected false s).

(** The handlers that [openNewWs] installs on the socket [id]. *)
Definition onopen (id : nat) (s : State) : State :=
  match sockets s !! id with
  | Some ws =>
      if negb (strict_eq (currentSerialRef s) (ws_serial ws)) then ws_close id s
      else setIsConnected true (setLoading false s)
  | None => s
  end.

Definition onmessage (id : nat) (data : Frame) (now : number) (s : State) : State :=
  match sockets s !! id with
  | Some ws =>
      if negb (strict_eq (currentSerialRef s) (ws_serial ws)) then s
      else
        let s := set_frameRecvTsRef now s in
        let url := length (blobs s) in
        let s := set_blobs (blobs s ++ [data]) s in
        let s := match imageUrlRef s with
                 | Some old => set_revoked (revoked s ++ [old]) s
                 | None => s
                 end in
        setImageUrl (Some url) (set_imageUrlRef (Some url) s)
  | None => s
  end.

Definition onerror (id : nat) (s : State) : State := setIsConnected false s.

Definition onclose (id : nat) (wasClean : bool) (s : State) : State :=
  match sockets s !! id with
  | Some ws =>
      let s := match wsRef s with
               | Some cur => if Nat.eqb cur id then set_wsRef None s else s
               | None => s
               end in
      let s := setIsConnected false s in
      if strict_eq (currentSerialRef s) (ws_serial ws) && negb wasClean
      then set_timers (timers s ++ [ws_serial ws]) s
      else s
  | None => s
  end.

(** The callback of the reconnect timer set by the effect run for
    [deviceSerial]. *)
Definition onTimeout (deviceSerial : string) (s : State) : State :=
  if strict_eq (currentSerialRef s) deviceSerial then openNewWs deviceSerial s else s.

(** [onPrevClose] of the effect run for [deviceSerial], listening on [prev]. *)
Definition onPrevClose (prev : nat) (deviceSerial : string) (s : State) : State :=
  openNewWs deviceSerial (clearListeners prev s).

(** *** The manual reconnect *)

(** [closeWebSocket]. *)
Definition closeWebSocket (s : State) : State :=
  let s := match wsRef s with
           | Some ws => set_wsRef None (ws_close ws s)
           | None => s
           end in
  setIsConnected false s.

(** [handleReconnect], the handler of the reconnect button, up to its
    [setTimeout(.., 100)]. *)
Definition handleReconnect (s : State) : State :=
  setLoading true (cleanupImageUrl (closeWebSocket s)).

(** The callback of that timer, for the [deviceSerial] prop of the render in
    which the button was pressed; [described] tells whether that render had
    a device descriptor.  The socket it creates gets handlers of its own. *)
Definition handleReconnect_timeout (deviceSerial : option string) (described : bool)
    (s : State) : State :=
  match deviceSerial with
  | Some serial =>
      if described
      then set_wsRef (Some (length (sockets s)))
             (set_sockets (sockets s ++ [mkWebSocket serial CONNECTING []]) s)
      else s
  | None => s
  end.

(** The close event of a socket that the manual reconnect created: the
    socket is closed, and its [onclose] only calls [setIsConnected(false)]. *)
Definition handleReconnect_onclose (id : nat) (s : State) : State :=
  setIsConnected false (set_readyState id CLOSED s).

(** *** Events *)

(** The streaming effect and what drives it.  The two buttons of the card,
    [handleReconnect] and [refreshScreen], are not among the events: a run
    is a run of the component in which they are not pressed.

    What the browser and React deliver to the component:
    - [Opened id]: the connection of socket [id] is established;
    - [Message id data now]: a message arrived on socket [id] at time [now];
    - [Failed id]: the [error] event of socket [id];
    - [Closed id wasClean]: the close event of socket [id], the
      acknowledgment of its close;
    - [Timeout]: the oldest pending reconnect timer fires;
    - [Render serial]: a commit in which the [deviceSerial] prop is
      [serial]: when the prop changed, React runs the cleanup of the
      previous effect run, then the effect;
    - [ForceDisconnect]: the parent calls [forceDisconnect]. *)
Inductive Event : Type :=
| Opened (id : nat)
| Message (id : nat) (data : Frame) (now : number)
| Failed (id : nat)
| Closed (id : nat) (wasClean : bool)
| Timeout
| Render (serial : option string)
| ForceDisconnect.

Definition same_serial (a b : option string) : bool :=
  match a, b with
  | Some s, Some t => String.eqb s t
  | None, None => true
  | _, _ => false
  end.

Definition render (serial : option string) (s : State) : State :=
  if same_serial (deviceSerial s) serial then s
  else
    let s := match deviceSerial s with
             | Some _ => cleanup s
             | None => s
             end in
    effect serial (set_deviceSerial serial s).

(** The close event of socket [id] (a socket closes once): the socket is
    closed, then [onclose] runs, then the listeners in the order they were
    added. *)
Definition deliverClose (id : nat) (wasClean : bool) (s : State) : State :=
  match sockets s !! id with
  | Some ws =>
      if is_closed (readyState ws) then s
      else
        let s := onclose id wasClean (set_readyState id CLOSED s) in
        fold_left (fun acc l => let 'OnPrevClose serial := l in onPrevClose id serial acc)
                  (closeListeners ws) s
  | None => s
  end.

Definition step (e : Event) (s : State) : State :=
  match e with
  | Opened id =>
      match sockets s !! id with
      | Some ws =>
          match readyState ws with
          | CONNECTING => onopen id (set_readyState id OPEN s)
          | _ => s
          end
      | None => s
      end
  | Message id data now => onmessage id data now s
  | Failed id => onerror id s
  | Closed id wasClean => deliverClose id wasClean s
  | Timeout =>
      match timers s with
      | serial :: rest => onTimeout serial (set_timers rest s)
      | [] => s
      end
  | Render serial => render serial s
  | ForceDisconnect => forceDisconnect s
  end.

Definition run (es : list Event) (s : State) : State :=
  fold_left (fun acc e => step e acc) es s.

(** [handleDeviceChange] of [App]: the force-disconnect of the old stream,
    the [stopStream] request for the old device, and the commit that
    [setSelectedDevice(serial)] causes.  The result carries the serials
    that [deviceAPI.stopStream] was called with. *)
Definition handleDeviceChange (serial : string) (s : State) : State * list string :=
  let '(s, stopped) :=
    match deviceSerial s with
    | Some selectedDevice =>
        if negb (String.eqb selectedDevice serial)
        then (forceDisconnect s, [selectedDevice])
        else (s, [])
    | None => (s, [])
    end in
  (render (Some serial) s, stopped).

(** The sockets that are not closed. *)
Definition live (s : State) : list WebSocket :=
  List.filter (fun ws => negb (is_closed (readyState ws))) (sockets s).

End Stream.

(** ** Concrete hierarchies, devices and pages used by the examples *)
Module Scenario.
Import Reconciler Extractor.
Local Open Scope string_scope.

Definition noAttrs : NodeAttributes :=
  mkAttrs None None None None None None None None None.

(** An OK button at (100, 200), 200 wide and 80 high. *)
Definition okButton : HierarchyNode :=
  Node "android.widget.Button"
    (mkAttrs None (Some "true") None None None (Some "OK") None None
             (Some (mkBounds 100 200 200 80))) [].

(** A container marked not-visible, itself clickable and of a valid size,
    around the OK button. *)
Definition hiddenParent : HierarchyNode :=
  Node "android.widget.FrameLayout"
    (mkAttrs (Some "false") (Some "true") None None None None None None
             (Some (mkBounds 0 0 1080 1920))) [okButton].

(** A clickable node with a text that is 5 wide. *)
Definition narrowNode : HierarchyNode :=
  Node "android.widget.TextView"
    (mkAttrs None (Some "true") None None None (Some "x") None None
             (Some (mkBounds 0 0 5 80))) [].

(** A button without a text whose content-description has 34 characters. *)
Definition upButton : HierarchyNode :=
  Node "android.widget.ImageButton"
    (mkAttrs None (Some "true") None None None None None
             (Some "Navigate up to the previous screen")
             (Some (mkBounds 0 0 100 100))) [].

(** A button without a text whose resource-id ends with the separator. *)
Definition backButton : HierarchyNode :=
  Node "android.widget.ImageButton"
    (mkAttrs None (Some "true") None None None None (Some "com.app:id/") (Some "Back")
             (Some (mkBounds 0 0 100 100))) [].

(** An iPhone in points, and a hierarchy reported in pixels. *)
Definition iphone : DeviceInfo := mkDeviceInfo "00008101" 375 812 "ios".

Definition pixelTree : HierarchyNode :=
  Node "XCUIElementTypeApplication"
    (mkAttrs None None None None None None None None (Some (mkBounds 0 0 1170 2532)))
    [Node "XCUIElementTypeButton"
       (mkAttrs None None None None None None None None (Some (mkBounds 100 200 200 80))) []].

(** A hierarchy without any bounds: its extent is 0. *)
Definition emptyTree : HierarchyNode := Node "hierarchy" noAttrs [].

(** A hierarchy of an absurd extent. *)
Definition hugeTree : HierarchyNode :=
  Node "hierarchy"
    (mkAttrs None None None None None None None None
             (Some (mkBounds 0 0 1000000000000 1000000000000))) [].

Definition noFrame : Size := mkSize 0 0.

(** A page whose canvas container is 360 wide, in a window 1005 high: the
    render surface is 360 x 800. *)
Definition page : Viewport := mkViewport (Some 360) 1280 1005.

(** A phone of 1080 x 2400 shown at a third of its size, in tap mode, with
    nothing pending. *)
Definition pixel : DeviceInfo := mkDeviceInfo "emulator-5554" 1080 2400 "android".

Definition tapCanvas : Gesture.Canvas :=
  Gesture.mkCanvas (Some "emulator-5554") (Some pixel) (1 # 3) (mkSize 360 800)
                   (mkSize 1080 2400) true true None None None.

(** The same canvas in select mode. *)
Definition selectCanvas : Gesture.Canvas :=
  Gesture.mkCanvas (Some "emulator-5554") (Some pixel) (1 # 3) (mkSize 360 800)
                   (mkSize 1080 2400) true false None None None.

(** The tap canvas after a pointer-down at the canvas point (100, 100). *)
Definition pressed : Gesture.Canvas :=
  Gesture.handleMouseDown (Some (mkPoint 100 100)) tapCanvas.

(** Two encoded frames. *)
Definition frame1 : Stream.Frame := [Byte.xff; Byte.xd8; Byte.x01].
Definition frame2 : Stream.Frame := [Byte.xff; Byte.xd8; Byte.x02].

(** Device A is selected, its socket (socket 0) is open and has shown one
    frame. *)
Definition streamingA : Stream.State :=
  Stream.run [Stream.Render (Some "A"); Stream.Opened 0; Stream.Message 0 frame1 10]
             Stream.initial.

(** The operator then picks device B. *)
Definition switchedToB : Stream.State := fst (Stream.handleDeviceChange "B" streamingA).

End Scenario.

(** ** The hierarchy tree: the keys of its nodes

    [convertToTreeData], [findNodeByKey], [getAllKeys] and the keys that
    [expandAndSelectNode] computes, of the [HierarchyTree] component.  A
    node path is an array of child indices: non-negative integers, which a
    template literal prints in decimal. *)
Module HierarchyTree.
Local Open Scope string_scope.

(** [`${n}`] for an index [n]. *)
Definition dec (n : nat) : string :=
  DecimalString.NilZero.string_of_uint (Nat.to_uint n).

(** [ExtendedDataNode]: the key, the bounds ([data]), the hierarchy node
    ([nodeData]) and the children.  The [title], a rendered element, is left
    out; [children] is empty where the source has [undefined]. *)
Inductive ExtendedDataNode : Type :=
| DataNode (key : string) (data : option BoundsComputed) (nodeData : HierarchyNode)
           (children : list ExtendedDataNode).

Definition key (n : ExtendedDataNode) : string := let 'DataNode k _ _ _ := n in k.
Definition data (n : ExtendedDataNode) : option BoundsComputed :=
  let 'DataNode _ d _ _ := n in d.
Definition nodeData (n : ExtendedDataNode) : HierarchyNode :=
  let 'DataNode _ _ nd _ := n in nd.
Definition children (n : ExtendedDataNode) : list ExtendedDataNode :=
  let 'DataNode _ _ _ cs := n in cs.

Fixpoint convertToTreeData (node : HierarchyNode) (parentKey : string) (childIndex : nat)
    : ExtendedDataNode :=
  match node with
  | Node _ attrs cs =>
      let key := if String.eqb parentKey "" then "0"
                 else parentKey ++ "-" ++ dec childIndex in
      DataNode key (bounds_computed attrs) node
        ((fix map (cs : list HierarchyNode) (index : nat) : list ExtendedDataNode :=
            match cs with
            | [] => []
            | child :: rest => convertToTreeData child key index :: map rest (S index)
            end) cs 0%nat)
  end.

(** [treeData] of a loaded hierarchy. *)
Definition treeData (hierarchy : HierarchyNode) : ExtendedDataNode :=
  convertToTreeData hierarchy "" 0.

Fixpoint findNodeByKey (node : ExtendedDataNode) (k : string) : option ExtendedDataNode :=
  match node with
  | DataNode key _ _ cs =>
      if String.eqb key k then Some node
      else (fix loop (cs : list ExtendedDataNode) : option ExtendedDataNode :=
              match cs with
              | [] => None
              | child :: rest =>
                  match findNodeByKey child k with
                  | Some found => Some found
                  | None => loop rest
                  end
              end) cs
  end.

(** [getAllKeys] of [expandAll]: the keys of a node and of its descendants,
    and of a list of nodes. *)
Fixpoint keysFrom (node : ExtendedDataNode) : list string :=
  match node with
  | DataNode key _ _ cs =>
      key :: (fix each (cs : list ExtendedDataNode) : list string :=
                match cs with
                | [] => []
                | child :: rest => (keysFrom child ++ each rest)%list
                end) cs
  end.

Definition getAllKeys (nodes : list ExtendedDataNode) : list string :=
  flat_map keysFrom nodes.

(** [l.join(sep)] on indices. *)
Definition join (l : list nat) (sep : string) : string :=
  match l with
  | [] => ""
  | i :: rest => fold_left (fun acc j => acc ++ sep ++ dec j) rest (dec i)
  end.

(** The loop of [expandAndSelectNode] over [nodePath[1]], [nodePath[2]], ... *)
Fixpoint expandLoop (rest : list nat) (currentKey : string) (keysToExpand : list string)
    : list string :=
  match rest with
  | [] => keysToExpand
  | i :: rest =>
      let currentKey := currentKey ++ "-" ++ dec i in
      expandLoop rest currentKey (keysToExpand ++ [currentKey])%list
  end.

Definition keysToExpand (nodePath : list nat) : list string :=
  expandLoop (tl nodePath) "0" ["0"].

Definition targetKey (nodePath : list nat) : string :=
  if Nat.eqb (length nodePath) 1 then "0" else "0-" ++ join (tl nodePath) "-".

(** The node that the deferred part of [expandAndSelectNode] looks up: its
    [data] goes to [onNodeSelect], its [nodeData] to [onElementSelect]. *)
Definition targetNode (hierarchy : HierarchyNode) (nodePath : list nat)
    : option ExtendedDataNode :=
  findNodeByKey (treeData hierarchy) (targetKey nodePath).

(** *** What the keys mean *)

(** The node reached from [n] by the child indices [q]. *)
Fixpoint nodeAt (n : HierarchyNode) (q : list nat) : option HierarchyNode :=
  match q with
  | [] => Some n
  | i :: q =>
      match nth_error (let 'Node _ _ cs := n in cs) i with
      | Some c => nodeAt c q
      | None => None
      end
  end.

(** The key of the node at the child indices [q]: 0-q1-q2-... *)
Fixpoint suffix (q : list nat) : string :=
  match q with
  | [] => ""
  | i :: q => "-" ++ dec i ++ suffix q
  end.

Definition pathKey (q : list nat) : string := "0" ++ suffix q.

(** The prefixes of a path, shortest first. *)
Fixpoint prefixes (q : list nat) : list (list nat) :=
  [] :: match q with
        | [] => []
        | i :: q => List.map (cons i) (prefixes q)
        end.

End HierarchyTree.

(** ** The overlays of [App]

    What [App] keeps in its [overlays] state: the handlers that the
    hierarchy tree and the XPath playground call, the part of [handleTap]
    that runs once the element lookup has settled, and the part of
    [executeQuery] that runs once the query has settled. *)
Module App.
Import HierarchyTree.
Local Open Scope string_scope.

Record Overlay : Type := mkOverlay {
  bounds : BoundsComputed;
  color : string;
  label : string
}.

Definition handleNodeHover (b : option BoundsComputed) (overlays : list Overlay)
    : list Overlay :=
  match b with
  | Some bounds => [mkOverlay bounds "#1890ff" "Hover"]
  | None => []
  end.

Definition handleNodeSelect (b : option BoundsComputed) (overlays : list Overlay)
    : list Overlay :=
  match b with
  | Some bounds => [mkOverlay bounds "#52c41a" "Selected"]
  | None => overlays
  end.

Definition handleXPathResults (bounds : list BoundsComputed) : list Overlay :=
  imap (fun index b => mkOverlay b "#ff4d4f" ("Match " ++ dec (index + 1))) bounds.

(** [XPathMatch] and [XPathQueryResponse], with the fields that the
    playground reads. *)
Record XPathMatch : Type := mkXPathMatch {
  m_tag : string;
  m_bounds_computed : option BoundsComputed
}.

Record XPathQueryResponse : Type := mkXPathQueryResponse {
  q_success : bool;
  q_count : nat;
  q_matches : list XPathMatch;
  q_error : option string
}.

(** [Boolean(v)] for a value that is an object or [undefined]. *)
Definition Boolean {A : Type} (v : option A) : bool :=
  match v with
  | Some _ => true
  | None => false
  end.

(** [executeQuery] of the playground, given [xpathQuery.trim()] and the
    outcome of the request ([None]: the promise was rejected).  The result
    is the argument of [onResultsUpdate], [None] when it is not called.
    [omap] is [.map(..).filter(Boolean)] in one pass, with the values that
    remain taken out of their option. *)
Definition executeQuery (deviceSerial : option string) (trimmed : string)
    (outcome : option XPathQueryResponse) : option (list BoundsComputed) :=
  match deviceSerial with
  | None => None
  | Some _ =>
      if String.eqb trimmed "" then None
      else match outcome with
           | Some response =>
               if q_success response
               then Some (omap m_bounds_computed (q_matches response))
               else Some []
           | None => Some []
           end
  end.

(** [SelectedElement] and [FindByCoordinateResponse], with the fields that
    [handleTap] reads. *)
Record SelectedElement : Type := mkSelectedElement {
  e_tag : string;
  e_attributes : NodeAttributes;
  e_node_path : option (list nat)
}.

Record FindByCoordinateResponse : Type := mkFindByCoordinateResponse {
  f_success : bool;
  f_element : option SelectedElement
}.

(** [v || 'Element'] for a string or [undefined]. *)
Definition or_Element (v : option string) : string :=
  match v with
  | Some s => if String.eqb s "" then "Element" else s
  | None => "Element"
  end.

(** [handleTap] once [findByCoordinate] has settled ([None]: rejected), with
    the [hierarchy] that the tree holds.  The result is the new [overlays]
    and the node path that [expandAndSelectNode] defers its lookup for. *)
Definition handleTap (selectedDevice : option string)
    (outcome : option FindByCoordinateResponse) (hierarchy : option HierarchyNode)
    (overlays : list Overlay) : list Overlay * option (list nat) :=
  match selectedDevice, outcome with
  | Some _, Some result =>
      match f_success result, f_element result with
      | true, Some element =>
          let deferred :=
            match e_node_path element, hierarchy with
            | Some nodePath, Some _ => Some nodePath
            | _, _ => None
            end in
          let overlays :=
            match bounds_computed (e_attributes element) with
            | Some bounds =>
                [mkOverlay bounds "#52c41a"
                           (or_Element (Extractor.pop (Extractor.split "." (e_tag element))))]
            | None => overlays
            end in
          (overlays, deferred)
      | _, _ => (overlays, None)
      end
  | _, _ => (overlays, None)
  end.

(** The deferred part of [expandAndSelectNode]: the node found is reported
    through [onNodeSelect], which is [handleNodeSelect], when it has bounds. *)
Definition deferredSelect (hierarchy : HierarchyNode) (nodePath : list nat)
    (overlays : list Overlay) : list Overlay :=
  match targetNode hierarchy nodePath with
  | Some targetNode =>
      match data targetNode with
      | Some bounds => handleNodeSelect (Some bounds) overlays
      | None => overlays
      end
  | None => overlays
  end.

End App.

(** ** Invariants of the stream session *)
Module StreamInvariants.
Import JS Stream.

(** Every event but a commit: what sockets, timers and the parent's
    [forceDisconnect] do between two commits. *)
Definition passive (e : Event) : bool :=
  match e with
  | Render _ => false
  | _ => true
  end.

(** The object URLs are accounted for: the image state and the ref agree;
    the URLs created so far are [0 .. length blobs - 1]; all of them have
    been revoked, once each and in the order of their creation, except the
    last one when it is the image shown. *)
Definition urls_accounted (s : State) : Prop :=
  imageUrl s = imageUrlRef s /\
  ((imageUrlRef s = None /\ revoked s = seq 0 (length (blobs s))) \/
   (exists n, length (blobs s) = S n /\ imageUrlRef s = Some n /\ revoked s = seq 0 n)).

(** The component's refs are coherent:
    - no socket carries a close listener;
    - the socket in [wsRef], if any, exists, is connecting or open, and was
      opened for the current serial;
    - the current serial, if any, is the [deviceSerial] prop. *)
Definition coherent (s : State) : Prop :=
  (forall id ws, sockets s !! id = Some ws -> closeListeners ws = []) /\
  (forall id, wsRef s = Some id ->
     exists ws, sockets s !! id = Some ws /\
                currentSerialRef s = Some (ws_serial ws) /\
                (readyState ws = CONNECTING \/ readyState ws = OPEN)) /\
  (currentSerialRef s = None \/ currentSerialRef s = deviceSerial s).

(** What the object-URL discipline reads of a state. *)
Definition urls (s : State) : option nat * option nat * nat * list nat :=
  (imageUrl s, imageUrlRef s, length (blobs s), revoked s).

(** A component that streams nothing: no current serial, no socket held,
    not connected, no image. *)
Definition disconnected (s : State) : Prop :=
  currentSerialRef s = None /\ wsRef s = None /\ isConnected s = false /\
  imageUrl s = None /\ imageUrlRef s = None.

End StreamInvariants.

(* ================================================================== *)
(** * Part II: properties *)
(* ================================================================== *)

Module JSFacts.
Import JS.

Lemma ltb_lt a b : ltb a b = true <-> a < b.
Proof.
  unfold ltb. rewrite negb_true_iff, <- not_true_iff_false, Qle_bool_iff.
  split; [apply Qnot_le_lt | apply Qlt_not_le].
Qed.

Lemma ltb_ge a b : ltb a b = false <-> b <= a.
Proof. unfold ltb. rewrite negb_false_iff. apply Qle_bool_iff. Qed.

Lemma leb_le a b : leb a b = true <-> a <= b.
Proof. apply Qle_bool_iff. Qed.

Lemma leb_gt a b : leb a b = false <-> b < a.
Proof.
  unfold leb. rewrite <- not_true_iff_false, Qle_bool_iff.
  split; [apply Qnot_le_lt | apply Qlt_not_le].
Qed.

Lemma gtb_gt a b : gtb a b = true <-> b < a.
Proof. apply ltb_lt. Qed.

Lemma gtb_le a b : gtb a b = false <-> a <= b.
Proof. apply ltb_ge. Qed.

Lemma strict_eq_true a v : strict_eq a v = true <-> a = Some v.
Proof.
  destruct a as [s |]; simpl; [| split; discriminate].
  rewrite String.eqb_eq. split; [now intros -> | now intros [= ->]].
Qed.

Lemma strict_eq_false a v : strict_eq a v = false <-> a <> Some v.
Proof. rewrite <- strict_eq_true. symmetry. apply not_true_iff_false. Qed.

Lemma Math_max_cases a b : Math_max a b = a \/ Math_max a b = b.
Proof. unfold Math_max. destruct (ltb a b); auto. Qed.

Lemma Math_max_ub_l a b : a <= Math_max a b.
Proof.
  unfold Math_max. destruct (ltb a b) eqn:E.
  - apply ltb_lt in E. now apply Qlt_le_weak.
  - apply Qle_refl.
Qed.

Lemma Math_max_ub_r a b : b <= Math_max a b.
Proof.
  unfold Math_max. destruct (ltb a b) eqn:E.
  - apply Qle_refl.
  - now apply ltb_ge in E.
Qed.

Lemma Math_min_cases a b : Math_min a b = a \/ Math_min a b = b.
Proof. unfold Math_min. destruct (ltb b a); auto. Qed.

Lemma Math_min_lb_l a b : Math_min a b <= a.
Proof.
  unfold Math_min. destruct (ltb b a) eqn:E.
  - apply ltb_lt in E. now apply Qlt_le_weak.
  - apply Qle_refl.
Qed.

Lemma Math_min_lb_r a b : Math_min a b <= b.
Proof.
  unfold Math_min. destruct (ltb b a) eqn:E.
  - apply Qle_refl.
  - now apply ltb_ge in E.
Qed.

Lemma Math_min3_cases a b c :
  Math_min3 a b c = a \/ Math_min3 a b c = b \/ Math_min3 a b c = c.
Proof.
  unfold Math_min3.
  destruct (Math_min_cases (Math_min a b) c) as [-> | ->]; auto.
  destruct (Math_min_cases a b) as [-> | ->]; auto.
Qed.

(** *** Binary64 arithmetic *)

Lemma double_zero q : q == 0 -> double q = 0.
Proof.
  intros H. unfold double. apply Qeq_bool_iff in H. now rewrite H.
Qed.

Lemma pow2_pos e : 0 < pow2 e.
Proof. unfold pow2. now apply Qpower_0_lt. Qed.

Lemma pow2_add a b : pow2 (a + b) == pow2 a * pow2 b.
Proof. unfold pow2. now apply Qpower_plus. Qed.

Lemma pow2_sub a b : pow2 (a - b) == pow2 a / pow2 b.
Proof. unfold pow2. now apply Qpower_minus. Qed.

Lemma pow2_le a b : (a <= b)%Z -> pow2 a <= pow2 b.
Proof. intros H. unfold pow2. now apply Qpower_le_compat_l. Qed.

Lemma pow2_lt a b : (a < b)%Z -> pow2 a < pow2 b.
Proof. intros H. unfold pow2. now apply Qpower_lt_compat_l. Qed.

Lemma pow2_le_inv a b : pow2 a <= pow2 b -> (a <= b)%Z.
Proof. intros H. unfold pow2 in H. now apply Qpower_le_compat_l_inv in H. Qed.

Lemma pow2_lt_inv a b : pow2 a < pow2 b -> (a < b)%Z.
Proof. intros H. unfold pow2 in H. now apply Qpower_lt_compat_l_inv in H. Qed.

Lemma pow2_Z n : (0 <= n)%Z -> pow2 n == inject_Z (2 ^ n).
Proof. intros H. unfold pow2. now rewrite Zpower_Qpower. Qed.

(** The exponent of a number that is not zero. *)
Lemma exponent_spec q :
  ~ q == 0 -> pow2 (exponent q) <= Qabs q /\ Qabs q < pow2 (exponent q + 1).
Proof.
  intros Hq. unfold exponent.
  destruct q as [n d]. simpl Qnum. simpl Qden.
  assert (Hn : (0 < Z.abs n)%Z).
  { assert (n <> 0%Z); [| lia]. intros ->. apply Hq. reflexivity. }
  set (a := Z.log2 (Z.abs n)). set (b := Z.log2 (Z.pos d)).
  destruct (Z.log2_spec (Z.abs n) Hn) as [Ha1 Ha2]. fold a in Ha1, Ha2.
  destruct (Z.log2_spec (Z.pos d) eq_refl) as [Hb1 Hb2]. fold b in Hb1, Hb2.
  assert (Ha0 : (0 <= a)%Z) by apply Z.log2_nonneg.
  assert (Hb0 : (0 <= b)%Z) by apply Z.log2_nonneg.
  assert (Habs : Qabs (n # d) == inject_Z (Z.abs n) / inject_Z (Z.pos d)).
  { unfold Qabs. simpl. rewrite (Qmake_Qdiv (Z.abs n) d). reflexivity. }
  assert (Hd : 0 < inject_Z (Z.pos d)) by reflexivity.
  assert (Hup : Qabs (n # d) < pow2 (a - b + 1)).
  { rewrite Habs. apply Qlt_shift_div_r; [exact Hd |].
    apply Qlt_le_trans with (inject_Z (2 ^ (a + 1))); [now rewrite <- Zlt_Qlt |].
    replace (a + 1)%Z with ((a - b + 1) + b)%Z by lia.
    rewrite <- pow2_Z by lia. rewrite pow2_add.
    apply Qmult_le_l; [apply pow2_pos |]. rewrite pow2_Z by lia. now rewrite <- Zle_Qle. }
  assert (Hlo : pow2 (a - b - 1) < Qabs (n # d)).
  { rewrite Habs. apply Qlt_shift_div_l; [exact Hd |].
    apply Qlt_le_trans with (inject_Z (2 ^ a)); [| now rewrite <- Zle_Qle].
    rewrite <- pow2_Z by lia.
    replace a with ((a - b - 1) + (b + 1))%Z at 2 by lia. rewrite pow2_add.
    apply Qmult_lt_l; [apply pow2_pos |]. rewrite pow2_Z by lia. now rewrite <- Zlt_Qlt. }
  destruct (Qle_bool (pow2 (a - b)) (Qabs (n # d))) eqn:E.
  - apply Qle_bool_iff in E. split; [exact E | exact Hup].
  - assert (E' : Qabs (n # d) < pow2 (a - b)).
    { apply Qnot_le_lt. intros H. apply Qle_bool_iff in H. congruence. }
    split; [now apply Qlt_le_weak |]. now replace (a - b - 1 + 1)%Z with (a - b)%Z by lia.
Qed.

Lemma exponent_unique q e :
  pow2 e <= Qabs q -> Qabs q < pow2 (e + 1) -> exponent q = e.
Proof.
  intros H1 H2.
  assert (Hq : ~ q == 0).
  { intros E. rewrite E in H1. change (Qabs 0) with 0 in H1.
    pose proof (pow2_pos e). Lqa.lra. }
  destruct (exponent_spec q Hq) as [H3 H4].
  assert (exponent q < e + 1)%Z by (apply pow2_lt_inv; Lqa.lra).
  assert (e < exponent q + 1)%Z by (apply pow2_lt_inv; Lqa.lra).
  lia.
Qed.

Lemma exponent_proper q1 q2 : q1 == q2 -> ~ q1 == 0 -> exponent q1 = exponent q2.
Proof.
  intros E Hq. destruct (exponent_spec q1 Hq) as [H1 H2].
  symmetry. apply exponent_unique; now rewrite <- E.
Qed.

Lemma nearest_even_proper q1 q2 : q1 == q2 -> nearest_even q1 = nearest_even q2.
Proof.
  intros E. unfold nearest_even. cbv zeta. rewrite (Qfloor_comp _ _ E).
  assert (Ec : Qcompare (q1 - inject_Z (Qfloor q2)) (1 # 2)
               = Qcompare (q2 - inject_Z (Qfloor q2)) (1 # 2))
    by (apply Qcompare_comp; [now rewrite E | reflexivity]).
  now rewrite Ec.
Qed.

Lemma nearest_even_Z z : nearest_even (inject_Z z) = z.
Proof.
  unfold nearest_even. cbv zeta. rewrite Qfloor_Z.
  assert (E : Qcompare (inject_Z z - inject_Z z) (1 # 2) = Lt).
  { apply Qlt_alt. unfold Qminus. rewrite Qplus_opp_r. reflexivity. }
  now rewrite E.
Qed.

Lemma double_proper q1 q2 : q1 == q2 -> double q1 = double q2.
Proof.
  intros E. unfold double.
  assert (Eb : Qeq_bool q1 0 = Qeq_bool q2 0).
  { destruct (Qeq_bool q2 0) eqn:E2.
    - apply Qeq_bool_iff. apply Qeq_bool_iff in E2. now rewrite E.
    - apply not_true_iff_false. intros E1. apply Qeq_bool_iff in E1.
      apply not_true_iff_false in E2. apply E2. apply Qeq_bool_iff. now rewrite <- E. }
  rewrite Eb. destruct (Qeq_bool q2 0) eqn:E2; [reflexivity |].
  assert (Hq1 : ~ q1 == 0).
  { intros H. apply not_true_iff_false in E2. apply E2. apply Qeq_bool_iff. now rewrite <- E. }
  cbv zeta. rewrite (exponent_proper q1 q2 E Hq1).
  apply Qred_complete.
  rewrite (nearest_even_proper (q1 / ulp (exponent q2)) (q2 / ulp (exponent q2)))
    by now rewrite E.
  reflexivity.
Qed.

Lemma ulp_pos e : 0 < ulp e.
Proof. apply pow2_pos. Qed.

(** A number on the grid of its own exponent is a binary64 number. *)
Lemma double_grid q m :
  ~ q == 0 -> q == inject_Z m * ulp (exponent q) -> double q == q.
Proof.
  intros Hq Hm. unfold double.
  assert (Eb : Qeq_bool q 0 = false).
  { apply not_true_iff_false. intros H. now apply Qeq_bool_iff in H. }
  rewrite Eb. cbv zeta. rewrite Qred_correct.
  assert (Hu := ulp_pos (exponent q)).
  assert (E : q / ulp (exponent q) == inject_Z m).
  { rewrite Hm at 1. field. intros H. rewrite H in Hu. now apply Qlt_irrefl in Hu. }
  rewrite (nearest_even_proper _ _ E), nearest_even_Z. now symmetry.
Qed.

(** The whole numbers up to [2^53] are binary64 numbers. *)
Lemma double_Z z : (Z.abs z <= 2 ^ 53)%Z -> double (inject_Z z) == inject_Z z.
Proof.
  intros Hz. destruct (Z.eq_dec z 0%Z) as [-> | Hnz]; [reflexivity |].
  assert (Hq : ~ inject_Z z == 0).
  { intros H. apply Hnz. unfold Qeq in H. simpl in H. lia. }
  destruct (exponent_spec _ Hq) as [H1 H2].
  set (e := exponent (inject_Z z)) in *.
  assert (Habs : Qabs (inject_Z z) == inject_Z (Z.abs z)) by reflexivity.
  rewrite Habs in H1, H2.
  assert (He53 : (e <= 53)%Z).
  { apply pow2_le_inv. eapply Qle_trans; [exact H1 |].
    rewrite pow2_Z by lia. now rewrite <- Zle_Qle. }
  assert (He0 : (0 <= e)%Z).
  { assert (0 < e + 1)%Z; [| lia]. apply pow2_lt_inv.
    eapply Qle_lt_trans; [| exact H2]. change (pow2 0) with (inject_Z 1).
    rewrite <- Zle_Qle. lia. }
  assert (Hulp : ulp e == pow2 (e - 52)).
  { unfold ulp. now replace (Z.max e (-1022)) with e by lia. }
  destruct (Z.eq_dec e 53%Z) as [E53 | Hne].
  - (* |z| = 2^53 *)
    assert (Hz53 : Z.abs z = (2 ^ 53)%Z).
    { rewrite E53, (pow2_Z 53), <- Zle_Qle in H1 by lia. lia. }
    apply (double_grid _ (z / 2)); [exact Hq |]. fold e. rewrite Hulp, E53.
    change (pow2 (53 - 52)) with (inject_Z 2). rewrite <- inject_Z_mult.
    apply inject_Z_injective. 
    assert (z = 2 ^ 53 \/ z = - 2 ^ 53)%Z as [-> | ->] by lia; reflexivity.
  - apply (double_grid _ (z * 2 ^ (52 - e))); [exact Hq |]. fold e. rewrite Hulp.
    rewrite inject_Z_mult, <- pow2_Z by lia.
    rewrite <- Qmult_assoc, <- pow2_add.
    replace (52 - e + (e - 52))%Z with 0%Z by lia. change (pow2 0) with 1. ring.
Qed.

(** *** The rounded square root *)

(** What [Math_sqrt s] is made of, for [s > 0]: with [u] the spacing at
    the exponent of the root, [t = s / u^2] and [n] the integer part of the
    square root of [t], the result is [n * u] or [(n + 1) * u], the latter
    only if the root is at least [n + 1/2]. *)
Lemma Math_sqrt_parts s :
  0 < s ->
  let u := pow2 (exponent s / 2 - 52) in
  let t := s / (u * u) in
  let n := Z.sqrt (Qfloor t) in
  (0 <= n)%Z /\
  inject_Z n * inject_Z n <= t /\ t < inject_Z (n + 1) * inject_Z (n + 1) /\
  (Math_sqrt s == inject_Z n * u \/
   (Math_sqrt s == inject_Z (n + 1) * u /\
    (inject_Z n + (1 # 2)) * (inject_Z n + (1 # 2)) <= t)).
Proof.
  intros Hs. cbv zeta.
  set (u := pow2 (exponent s / 2 - 52)). set (t := s / (u * u)).
  set (n := Z.sqrt (Qfloor t)).
  assert (Hu : 0 < u) by apply pow2_pos.
  assert (Ht : 0 < t).
  { unfold t. apply Qlt_shift_div_l; [| now rewrite Qmult_0_l].
    rewrite <- (Qmult_0_l u). now apply Qmult_lt_compat_r. }
  assert (Hf : (0 <= Qfloor t)%Z).
  { change 0%Z with (Qfloor 0). apply Qfloor_resp_le. now apply Qlt_le_weak. }
  destruct (Z.sqrt_spec (Qfloor t) Hf) as [Hn1 Hn2]. fold n in Hn1, Hn2.
  assert (Hn0 : (0 <= n)%Z) by apply Z.sqrt_nonneg.
  split; [exact Hn0 |]. split; [| split].
  - rewrite <- inject_Z_mult. eapply Qle_trans; [| apply Qfloor_le].
    now rewrite <- Zle_Qle.
  - rewrite <- inject_Z_mult. eapply Qlt_le_trans; [apply Qlt_floor |].
    rewrite <- Zle_Qle. lia.
  - unfold Math_sqrt.
    assert (Eb : Qle_bool s 0 = false).
    { apply not_true_iff_false. intros H. apply Qle_bool_iff in H. Lqa.lra. }
    rewrite Eb. cbv zeta. fold u. fold t. fold n. rewrite Qred_correct.
    destruct (Qcompare t ((inject_Z n + (1 # 2)) * (inject_Z n + (1 # 2)))) eqn:Ec.
    + apply Qeq_alt in Ec. destruct (Z.even n); [now left |].
      right. split; [reflexivity |]. rewrite Ec. apply Qle_refl.
    + now left.
    + apply Qgt_alt in Ec. right. split; [reflexivity |]. now apply Qlt_le_weak.
Qed.

Lemma exponent_pos_spec s :
  0 < s -> pow2 (exponent s) <= s /\ s < pow2 (exponent s + 1).
Proof.
  intros Hs. assert (Hq : ~ s == 0) by (intros E; rewrite E in Hs; now apply Qlt_irrefl in Hs).
  destruct (exponent_spec s Hq) as [H1 H2].
  rewrite (Qabs_pos s) in H1, H2 by now apply Qlt_le_weak. now split.
Qed.

(** The exponent of the root. *)
Lemma sqrt_exponent_spec s :
  0 < s ->
  pow2 (2 * (exponent s / 2)) <= s /\ s < pow2 (2 * (exponent s / 2) + 2).
Proof.
  intros Hs. destruct (exponent_pos_spec s Hs) as [H1 H2].
  pose proof (Z.div_mod (exponent s) 2 ltac:(lia)) as Hdm.
  pose proof (Z.mod_pos_bound (exponent s) 2 ltac:(lia)) as Hmod.
  split.
  - eapply Qle_trans; [| exact H1]. apply pow2_le. lia.
  - eapply Qlt_le_trans; [exact H2 |]. apply pow2_le. lia.
Qed.

(** A number of at most 400 has a root of at most 20; a number above 400
    by [2^-42] or more has a root above 20. *)
Lemma Math_sqrt_le_20 s : s <= 400 -> Math_sqrt s <= 20.
Proof.
  intros H400. destruct (Qlt_le_dec 0 s) as [Hs | Hs].
  2:{ unfold Math_sqrt. apply Qle_bool_iff in Hs. rewrite Hs. discriminate. }
  destruct (Math_sqrt_parts s Hs) as (Hn0 & Hn1 & Hn2 & Hr).
  destruct (sqrt_exponent_spec s Hs) as [He1 He2].
  set (E := (exponent s / 2)%Z) in *.
  set (u := pow2 (E - 52)) in *. set (t := s / (u * u)) in *.
  set (n := Z.sqrt (Qfloor t)) in *.
  assert (Hu : 0 < u) by apply pow2_pos.
  assert (HE : (E <= 4)%Z).
  { assert (2 * E < 10)%Z; [| lia]. apply pow2_lt_inv.
    eapply Qle_lt_trans; [exact He1 |]. eapply Qle_lt_trans; [exact H400 |]. reflexivity. }
  assert (Hts : t * (u * u) == s).
  { unfold t. field. intros H. rewrite H in Hu. now apply Qlt_irrefl in Hu. }
  destruct (Z.eq_dec E 4%Z) as [E4 | HE3].
  - (* the root has the exponent of 20 *)
    assert (Hu4 : u == pow2 (-48)) by (unfold u; now rewrite E4).
    assert (HtK : t <= inject_Z (20 * 2 ^ 48) * inject_Z (20 * 2 ^ 48)).
    { apply Qmult_le_r with (u * u); [Lqa.nra |]. rewrite Hts, Hu4.
      eapply Qle_trans; [exact H400 |]. apply Qle_bool_iff. vm_compute. reflexivity. }
    assert (H20 : inject_Z (20 * 2 ^ 48) * u == 20).
    { rewrite Hu4. apply Qeq_bool_iff. vm_compute. reflexivity. }
    destruct Hr as [-> | [-> Hhalf]]; rewrite <- H20; apply Qmult_le_compat_r;
      try (now apply Qlt_le_weak); rewrite <- Zle_Qle.
    + assert (inject_Z n * inject_Z n <= inject_Z (20 * 2 ^ 48) * inject_Z (20 * 2 ^ 48))
        by (eapply Qle_trans; eassumption).
      rewrite <- !inject_Z_mult, <- Zle_Qle in H. nia.
    + assert (Hh : (inject_Z n + (1 # 2)) * (inject_Z n + (1 # 2))
                   <= inject_Z (20 * 2 ^ 48) * inject_Z (20 * 2 ^ 48))
        by (eapply Qle_trans; eassumption).
      assert (Hlt : inject_Z n * inject_Z n < inject_Z (20 * 2 ^ 48) * inject_Z (20 * 2 ^ 48)).
      { assert (0 <= inject_Z n) by (change 0 with (inject_Z 0); now rewrite <- Zle_Qle).
        Lqa.nra. }
      rewrite <- !inject_Z_mult, <- Zlt_Qlt in Hlt. nia.
  - (* the root is below 16 *)
    assert (Hn53 : (n + 1 <= 2 ^ 53)%Z).
    { assert (Ht106 : t < inject_Z (2 ^ 53) * inject_Z (2 ^ 53)).
      { apply Qmult_lt_r with (u * u); [Lqa.nra |]. rewrite Hts.
        eapply Qlt_le_trans; [exact He2 |]. unfold u.
        rewrite <- !pow2_Z by lia. rewrite <- !pow2_add. apply pow2_le. lia. }
      assert (Hlt : inject_Z n * inject_Z n < inject_Z (2 ^ 53) * inject_Z (2 ^ 53))
        by (eapply Qle_lt_trans; eassumption).
      rewrite <- !inject_Z_mult, <- Zlt_Qlt in Hlt. nia. }
    assert (Hr' : Math_sqrt s <= inject_Z (n + 1) * u).
    { destruct Hr as [-> | [-> _]]; [| apply Qle_refl].
      apply Qmult_le_compat_r; [| now apply Qlt_le_weak]. rewrite <- Zle_Qle. lia. }
    eapply Qle_trans; [exact Hr' |].
    apply Qle_trans with (inject_Z (2 ^ 53) * u).
    { apply Qmult_le_compat_r; [| now apply Qlt_le_weak]. now rewrite <- Zle_Qle. }
    unfold u. rewrite <- pow2_Z by lia. rewrite <- pow2_add.
    apply Qle_trans with (pow2 4); [apply pow2_le; lia | discriminate].
Qed.

Lemma Math_sqrt_gt_20 s : 400 + pow2 (-42) <= s -> 20 < Math_sqrt s.
Proof.
  intros H401. pose proof (pow2_pos (-42)) as H42. assert (Hs : 0 < s) by Lqa.lra.
  destruct (Math_sqrt_parts s Hs) as (Hn0 & Hn1 & Hn2 & Hr).
  destruct (sqrt_exponent_spec s Hs) as [He1 He2].
  set (E := (exponent s / 2)%Z) in *.
  set (u := pow2 (E - 52)) in *. set (t := s / (u * u)) in *.
  set (n := Z.sqrt (Qfloor t)) in *.
  assert (Hu : 0 < u) by apply pow2_pos.
  assert (HE : (4 <= E)%Z).
  { assert (8 < 2 * E + 2)%Z; [| lia]. apply pow2_lt_inv.
    eapply Qlt_trans; [| exact He2]. eapply Qlt_le_trans; [| exact H401].
    vm_compute. reflexivity. }
  assert (Hts : t * (u * u) == s).
  { unfold t. field. intros H. rewrite H in Hu. now apply Qlt_irrefl in Hu. }
  assert (Hr' : inject_Z n * u <= Math_sqrt s).
  { destruct Hr as [-> | [-> _]]; [apply Qle_refl |].
    apply Qmult_le_compat_r; [| now apply Qlt_le_weak]. rewrite <- Zle_Qle. lia. }
  eapply Qlt_le_trans; [| exact Hr'].
  destruct (Z.eq_dec E 4%Z) as [E4 | HE5].
  - assert (Hu4 : u == pow2 (-48)) by (unfold u; now rewrite E4).
    assert (HtK : inject_Z (20 * 2 ^ 48 + 1) * inject_Z (20 * 2 ^ 48 + 1) <= t).
    { apply Qmult_le_r with (u * u); [Lqa.nra |]. rewrite Hts, Hu4.
      eapply Qle_trans; [| exact H401]. apply Qle_bool_iff. vm_compute. reflexivity. }
    assert (HK : (20 * 2 ^ 48 + 1 <= n)%Z).
    { assert (Hlt : inject_Z (20 * 2 ^ 48 + 1) * inject_Z (20 * 2 ^ 48 + 1)
                    < inject_Z (n + 1) * inject_Z (n + 1))
        by (eapply Qle_lt_trans; eassumption).
      rewrite <- !inject_Z_mult, <- Zlt_Qlt in Hlt. nia. }
    apply Qlt_le_trans with (inject_Z (20 * 2 ^ 48 + 1) * u).
    + rewrite Hu4. vm_compute. reflexivity.
    + apply Qmult_le_compat_r; [| now apply Qlt_le_weak]. now rewrite <- Zle_Qle.
  - assert (Hn52 : (2 ^ 52 <= n)%Z).
    { assert (Ht104 : inject_Z (2 ^ 52) * inject_Z (2 ^ 52) <= t).
      { apply Qmult_le_r with (u * u); [Lqa.nra |]. rewrite Hts.
        eapply Qle_trans; [| exact He1]. unfold u.
        rewrite <- !pow2_Z by lia. rewrite <- !pow2_add. apply pow2_le. lia. }
      assert (Hlt : inject_Z (2 ^ 52) * inject_Z (2 ^ 52)
                    < inject_Z (n + 1) * inject_Z (n + 1))
        by (eapply Qle_lt_trans; eassumption).
      rewrite <- !inject_Z_mult, <- Zlt_Qlt in Hlt. nia. }
    apply Qlt_le_trans with (pow2 5); [reflexivity |].
    apply Qle_trans with (inject_Z (2 ^ 52) * u).
    + unfold u. rewrite <- pow2_Z by lia. rewrite <- pow2_add. apply pow2_le. lia.
    + apply Qmult_le_compat_r; [| now apply Qlt_le_weak]. now rewrite <- Zle_Qle.
Qed.

(** *** Rounding errors *)

Lemma nearest_even_near r :
  - (1 # 2) <= inject_Z (nearest_even r) - r /\ inject_Z (nearest_even r) - r <= 1 # 2.
Proof.
  unfold nearest_even. cbv zeta.
  pose proof (Qfloor_le r) as Hlo. pose proof (Qlt_floor r) as Hhi.
  rewrite inject_Z_plus in Hhi. change (inject_Z 1) with 1 in Hhi.
  destruct (Qcompare (r - inject_Z (Qfloor r)) (1 # 2)) eqn:Ec.
  - apply Qeq_alt in Ec.
    destruct (Z.even (Qfloor r)); [| rewrite inject_Z_plus; change (inject_Z 1) with 1];
      split; Lqa.lra.
  - apply Qlt_alt in Ec. split; Lqa.lra.
  - apply Qgt_alt in Ec. rewrite inject_Z_plus. change (inject_Z 1) with 1. split; Lqa.lra.
Qed.

(** The spacing of the binary64 numbers at [q], against [q] itself. *)
Lemma ulp_bound q : ~ q == 0 -> ulp (exponent q) <= pow2 (-52) * Qabs q + pow2 (-1074).
Proof.
  intros Hq. destruct (exponent_spec q Hq) as [H1 _].
  pose proof (pow2_pos (-52)) as H52. pose proof (pow2_pos (-1074)) as H1074.
  pose proof (Qabs_nonneg q) as Habs.
  unfold ulp. destruct (Z_le_gt_dec (-1022) (exponent q)) as [Hn | Hs].
  - replace (Z.max (exponent q) (-1022)) with (exponent q) by lia.
    replace (exponent q - 52)%Z with (-52 + exponent q)%Z by lia. rewrite pow2_add.
    apply Qle_trans with (pow2 (-52) * Qabs q).
    + apply Qmult_le_l; assumption.
    + Lqa.lra.
  - replace (Z.max (exponent q) (-1022)) with (-1022)%Z by lia.
    change (-1022 - 52)%Z with (-1074)%Z.
    assert (0 <= pow2 (-52) * Qabs q) by (apply Qmult_le_0_compat; Lqa.lra).
    Lqa.lra.
Qed.

(** Rounding moves a number by at most half the spacing: a relative error
    of [2^-53], or [2^-1075] below the normal range. *)
Lemma double_near q :
  Qabs (double q - q) <= pow2 (-53) * Qabs q + pow2 (-1075).
Proof.
  pose proof (pow2_pos (-53)) as H53. pose proof (pow2_pos (-1075)) as H1075.
  pose proof (Qabs_nonneg q) as Habs.
  assert (H0 : 0 <= pow2 (-53) * Qabs q) by (apply Qmult_le_0_compat; Lqa.lra).
  destruct (Qeq_dec q 0) as [Hz | Hq].
  - rewrite (double_zero q Hz). unfold Qminus. rewrite Qplus_0_l, Qabs_opp. rewrite Hz.
    change (Qabs 0) with 0. Lqa.lra.
  - unfold double.
    assert (Eb : Qeq_bool q 0 = false).
    { apply not_true_iff_false. intros H. now apply Qeq_bool_iff in H. }
    rewrite Eb. cbv zeta. rewrite Qred_correct.
    set (u := ulp (exponent q)). assert (Hu : 0 < u) by apply ulp_pos.
    pose proof (nearest_even_near (q / u)) as [Hlo Hhi].
    set (n := inject_Z (nearest_even (q / u))) in *.
    assert (Hq' : q == (q / u) * u) by (field; Lqa.lra).
    assert (Hd : n * u - q == (n - q / u) * u) by (field; Lqa.lra).
    rewrite Hd, Qabs_Qmult, (Qabs_pos u) by Lqa.lra.
    assert (Hn : Qabs (n - q / u) <= 1 # 2) by (apply Qabs_Qle_condition; split; assumption).
    apply Qle_trans with ((1 # 2) * u).
    + apply Qmult_le_compat_r; [exact Hn | Lqa.lra].
    + pose proof (ulp_bound q Hq) as Hub. fold u in Hub.
      assert (E1 : (1 # 2) * pow2 (-52) == pow2 (-53)) by reflexivity.
      assert (E2 : (1 # 2) * pow2 (-1074) == pow2 (-1075)) by reflexivity.
      rewrite <- E1, <- E2. Lqa.lra.
Qed.

Lemma double_near_bound q B :
  Qabs q <= B -> Qabs (double q - q) <= pow2 (-53) * B + pow2 (-1075).
Proof.
  intros HB. eapply Qle_trans; [apply double_near |].
  pose proof (pow2_pos (-53)) as H53.
  assert (pow2 (-53) * Qabs q <= pow2 (-53) * B) by (apply Qmult_le_l; assumption).
  Lqa.lra.
Qed.

Lemma nearest_even_nonneg r : 0 <= r -> (0 <= nearest_even r)%Z.
Proof.
  intros Hr. unfold nearest_even. cbv zeta.
  assert (Hf : (0 <= Qfloor r)%Z).
  { change 0%Z with (Qfloor 0). now apply Qfloor_resp_le. }
  destruct (Qcompare _ _); [destruct (Z.even _) |..]; lia.
Qed.

(** Rounding keeps the sign. *)
Lemma double_nonneg q : 0 <= q -> 0 <= double q.
Proof.
  intros Hq. unfold double. destruct (Qeq_bool q 0); [apply Qle_refl |].
  cbv zeta. rewrite Qred_correct.
  pose proof (ulp_pos (exponent q)) as Hu.
  apply Qmult_le_0_compat; [| Lqa.lra].
  change 0 with (inject_Z 0). rewrite <- Zle_Qle. apply nearest_even_nonneg.
  apply Qle_shift_div_l; [exact Hu |]. now rewrite Qmult_0_l.
Qed.

Lemma Qabs_mult_le a b A B : Qabs a <= A -> Qabs b <= B -> Qabs (a * b) <= A * B.
Proof.
  intros Ha Hb. rewrite Qabs_Qmult.
  apply Qmult_le_compat_nonneg; split; try apply Qabs_nonneg; assumption.
Qed.

Lemma Qabs_sub_le a b c ea eb :
  Qabs (a - b) <= ea -> Qabs (b - c) <= eb -> Qabs (a - c) <= ea + eb.
Proof.
  intros Ha Hb. apply Qabs_Qle_condition in Ha, Hb. apply Qabs_Qle_condition.
  split; Lqa.lra.
Qed.

Lemma Qabs_le_add a b A e : Qabs (a - b) <= e -> Qabs b <= A -> Qabs a <= A + e.
Proof.
  intros Ha Hb. apply Qabs_Qle_condition in Ha, Hb. apply Qabs_Qle_condition.
  split; Lqa.lra.
Qed.

Lemma Qsquare_abs a : a * a == Qabs a * Qabs a.
Proof. rewrite <- Qabs_Qmult. symmetry. apply Qabs_pos. Lqa.nra. Qed.

(** The square that the handlers compute for an offset of at most 32. *)
Lemma mul_self_near X :
  Qabs X <= 32 -> Qabs (mul (double X) (double X) - X * X) <= pow2 (-41).
Proof.
  intros HX. set (dx := double X).
  set (e1 := pow2 (-53) * 32 + pow2 (-1075)).
  assert (A1 : Qabs (dx - X) <= e1) by now apply double_near_bound.
  assert (A2 : Qabs dx <= 32 + e1) by now apply (Qabs_le_add dx X).
  assert (A3 : Qabs (dx + X) <= 64 + e1).
  { eapply Qle_trans; [apply Qabs_triangle |]. Lqa.lra. }
  assert (A4 : Qabs (dx * dx - X * X) <= e1 * (64 + e1)).
  { assert (E : dx * dx - X * X == (dx - X) * (dx + X)) by ring.
    rewrite E. now apply Qabs_mult_le. }
  assert (A5 : Qabs (dx * dx) <= (32 + e1) * (32 + e1)) by now apply Qabs_mult_le.
  assert (A6 : Qabs (mul dx dx - dx * dx)
               <= pow2 (-53) * ((32 + e1) * (32 + e1)) + pow2 (-1075))
    by now apply double_near_bound.
  eapply Qle_trans; [exact (Qabs_sub_le _ _ _ _ _ A6 A4) |].
  apply Qle_bool_iff. vm_compute. reflexivity.
Qed.

(** The sum of squares that the handlers compute, for offsets of at most
    32: within [2^-39] of the exact sum. *)
Lemma sum_squares_near X Y :
  Qabs X <= 32 -> Qabs Y <= 32 ->
  Qabs (add (mul (double X) (double X)) (mul (double Y) (double Y)) - (X * X + Y * Y))
  <= pow2 (-39).
Proof.
  intros HX HY.
  pose proof (mul_self_near X HX) as Hx. pose proof (mul_self_near Y HY) as Hy.
  set (mx := mul (double X) (double X)) in *. set (my := mul (double Y) (double Y)) in *.
  assert (Hxx : Qabs (X * X) <= 32 * 32) by now apply Qabs_mult_le.
  assert (Hyy : Qabs (Y * Y) <= 32 * 32) by now apply Qabs_mult_le.
  assert (B1 : Qabs (mx + my - (X * X + Y * Y)) <= pow2 (-41) + pow2 (-41)).
  { apply Qabs_Qle_condition in Hx, Hy. apply Qabs_Qle_condition. split; Lqa.lra. }
  assert (B2 : Qabs (mx + my) <= 2048 + (pow2 (-41) + pow2 (-41))).
  { apply (Qabs_le_add _ (X * X + Y * Y)); [exact B1 |].
    eapply Qle_trans; [apply Qabs_triangle |]. Lqa.lra. }
  assert (B3 : Qabs (add mx my - (mx + my))
               <= pow2 (-53) * (2048 + (pow2 (-41) + pow2 (-41))) + pow2 (-1075))
    by now apply double_near_bound.
  eapply Qle_trans; [exact (Qabs_sub_le _ _ _ _ _ B3 B1) |].
  apply Qle_bool_iff. vm_compute. reflexivity.
Qed.

(** Rounding from below: a number that is not negative loses at most the
    relative error. *)
Lemma double_lower q : 0 <= q -> q * (1 - pow2 (-53)) - pow2 (-1075) <= double q.
Proof.
  intros Hq. pose proof (double_near q) as H. rewrite (Qabs_pos q) in H by assumption.
  apply Qabs_Qle_condition in H. Lqa.lra.
Qed.

(** The square that the handlers compute for an offset of at least 32. *)
Lemma mul_self_far X : 32 <= Qabs X -> 960 <= mul (double X) (double X).
Proof.
  intros HX. set (dx := double X).
  assert (A1 : 31 <= Qabs dx).
  { pose proof (double_near X) as H. fold dx in H.
    pose proof (Qabs_triangle_reverse X dx) as Ht.
    assert (Hs : Qabs (X - dx) == Qabs (dx - X)).
    { rewrite <- Qabs_opp. apply Qabs_wd. ring. }
    rewrite Hs in Ht.
    assert (Hm : 32 * (1 - pow2 (-53)) <= Qabs X * (1 - pow2 (-53))).
    { apply Qmult_le_compat_r; [exact HX |]. apply Qle_bool_iff. vm_compute. reflexivity. }
    assert (Hc : 31 <= 32 * (1 - pow2 (-53)) - pow2 (-1075))
      by (apply Qle_bool_iff; vm_compute; reflexivity).
    Lqa.lra. }
  assert (A2 : 961 <= dx * dx).
  { rewrite (Qsquare_abs dx). change 961 with (31 * 31).
    apply Qmult_le_compat_nonneg; split; try assumption; discriminate. }
  assert (A3 : 0 <= dx * dx) by Lqa.lra.
  pose proof (double_lower (dx * dx) A3) as H. fold (mul dx dx) in H.
  assert (Hm : 961 * (1 - pow2 (-53)) <= dx * dx * (1 - pow2 (-53))).
  { apply Qmult_le_compat_r; [exact A2 |]. apply Qle_bool_iff. vm_compute. reflexivity. }
  assert (Hc : 960 <= 961 * (1 - pow2 (-53)) - pow2 (-1075))
    by (apply Qle_bool_iff; vm_compute; reflexivity).
  Lqa.lra.
Qed.

Lemma mul_self_nonneg a : 0 <= mul a a.
Proof. unfold mul. apply double_nonneg. Lqa.nra. Qed.

Lemma sum_squares_far X Y :
  32 <= Qabs X \/ 32 <= Qabs Y ->
  401 <= add (mul (double X) (double X)) (mul (double Y) (double Y)).
Proof.
  intros H.
  set (mx := mul (double X) (double X)). set (my := mul (double Y) (double Y)).
  assert (Hsum : 960 <= mx + my).
  { pose proof (mul_self_nonneg (double X)). pose proof (mul_self_nonneg (double Y)).
    destruct H as [H | H]; apply mul_self_far in H; unfold mx, my; Lqa.lra. }
  assert (H0 : 0 <= mx + my) by Lqa.lra.
  pose proof (double_lower (mx + my) H0) as Hd. fold (add mx my) in Hd.
  assert (Hm : 960 * (1 - pow2 (-53)) <= (mx + my) * (1 - pow2 (-53))).
  { apply Qmult_le_compat_r; [exact Hsum |]. apply Qle_bool_iff. vm_compute. reflexivity. }
  assert (Hc : 401 <= 960 * (1 - pow2 (-53)) - pow2 (-1075))
    by (apply Qle_bool_iff; vm_compute; reflexivity).
  Lqa.lra.
Qed.

End JSFacts.

(** ** The hierarchy tree *)
Module TreeFacts.

(** Induction on a tree with the hypothesis for every child. *)
Lemma HierarchyNode_nested_ind (P : HierarchyNode -> Prop) :
  (forall t a cs, Forall P cs -> P (Node t a cs)) -> forall n, P n.
Proof.
  intros step. fix IH 1. intros [t a cs]. apply step.
  induction cs as [| c cs IHcs]; constructor; [apply IH | exact IHcs].
Qed.

Lemma preorder_root n : In n (preorder n).
Proof. destruct n; simpl; auto. Qed.

Lemma preorder_child t a cs c n :
  In c cs -> In n (preorder c) -> In n (preorder (Node t a cs)).
Proof. intros Hc Hn. simpl. right. apply in_flat_map. eauto. Qed.

End TreeFacts.

(** ** Coordinate reconciliation *)
Module ReconcilerFacts.
Import JS JSFacts Reconciler TreeFacts.

(** The recursive walk visits the nodes in pre-order. *)
Lemma walk_preorder n : forall e, walk n e = fold_left visit (preorder n) e.
Proof.
  induction n as [t a cs IH] using HierarchyNode_nested_ind. intros e. simpl.
  generalize (visit e (Node t a cs)). clear e.
  induction IH as [| c cs Hc _ IHcs]; intros e; simpl; [reflexivity |].
  rewrite fold_left_app, <- Hc. apply IHcs.
Qed.

Lemma visit_sized e n b :
  sized n b ->
  visit e n = mkExtent (Math_max (maxRight e) (add (x b) (w b))) (Math_max (maxBottom e) (add (y b) (h b))).
Proof.
  intros (Hb & Hw & Hh). unfold visit. rewrite Hb.
  apply gtb_gt in Hw, Hh. now rewrite Hw, Hh.
Qed.

Lemma visit_cases e n :
  visit e n = e \/
  exists b, sized n b /\
    visit e n = mkExtent (Math_max (maxRight e) (add (x b) (w b))) (Math_max (maxBottom e) (add (y b) (h b))).
Proof.
  unfold visit, sized. destruct (bounds_computed (attributes n)) as [b |]; [| now left].
  destruct (gtb (w b) 0) eqn:Hw; [| now left].
  destruct (gtb (h b) 0) eqn:Hh; [| now left].
  right. exists b. apply gtb_gt in Hw, Hh. simpl. auto.
Qed.

Lemma visit_mono e n :
  maxRight e <= maxRight (visit e n) /\ maxBottom e <= maxBottom (visit e n).
Proof.
  destruct (visit_cases e n) as [-> | (b & _ & ->)]; simpl.
  - split; apply Qle_refl.
  - split; apply Math_max_ub_l.
Qed.

Lemma fold_visit_mono l : forall e,
  maxRight e <= maxRight (fold_left visit l e) /\
  maxBottom e <= maxBottom (fold_left visit l e).
Proof.
  induction l as [| n l IH]; intros e; simpl.
  - split; apply Qle_refl.
  - destruct (visit_mono e n) as [Hr Hb]. destruct (IH (visit e n)) as [Hr' Hb'].
    split; eapply Qle_trans; eassumption.
Qed.

(** The running maxima bound the right and bottom edge of every sized node
    that was visited. *)
Lemma fold_visit_ub l : forall e n b,
  In n l -> sized n b ->
  add (x b) (w b) <= maxRight (fold_left visit l e) /\
  add (y b) (h b) <= maxBottom (fold_left visit l e).
Proof.
  induction l as [| m l IH]; intros e n b Hin Hs; [destruct Hin |].
  simpl. destruct Hin as [-> | Hin]; [| now apply (IH _ n)].
  destruct (fold_visit_mono l (visit e n)) as [Hr Hb].
  rewrite (visit_sized e n b Hs) in Hr, Hb |- *. simpl in Hr, Hb.
  split; (eapply Qle_trans; [apply Math_max_ub_r | eassumption]).
Qed.

(** Each running maximum is its initial value or the edge of a sized node. *)
Lemma fold_visit_right_attained l : forall e,
  maxRight (fold_left visit l e) = maxRight e \/
  exists n b, In n l /\ sized n b /\ maxRight (fold_left visit l e) = add (x b) (w b).
Proof.
  induction l as [| m l IH]; intros e; simpl; [now left |].
  destruct (IH (visit e m)) as [-> | (n & b & Hin & Hs & ->)].
  - destruct (visit_cases e m) as [-> | (b & Hs & ->)]; [now left |]. simpl.
    destruct (Math_max_cases (maxRight e) (add (x b) (w b))) as [-> | ->]; [now left |].
    right. exists m, b. auto.
  - right. exists n, b. auto.
Qed.

Lemma fold_visit_bottom_attained l : forall e,
  maxBottom (fold_left visit l e) = maxBottom e \/
  exists n b, In n l /\ sized n b /\ maxBottom (fold_left visit l e) = add (y b) (h b).
Proof.
  induction l as [| m l IH]; intros e; simpl; [now left |].
  destruct (IH (visit e m)) as [-> | (n & b & Hin & Hs & ->)].
  - destruct (visit_cases e m) as [-> | (b & Hs & ->)]; [now left |]. simpl.
    destruct (Math_max_cases (maxBottom e) (add (y b) (h b))) as [-> | ->]; [now left |].
    right. exists m, b. auto.
  - right. exists n, b. auto.
Qed.

(** The literal [0.1] is the binary64 number just above one tenth. *)
Lemma double_tenth : 1 # 10 <= double (1 # 10) /\ double (1 # 10) <= 2.
Proof. split; apply Qle_bool_iff; vm_compute; reflexivity. Qed.

Lemma clamp_range v : 1 # 10 <= clamp v /\ clamp v <= 2.
Proof.
  unfold clamp. destruct double_tenth as [Hlo Hhi]. split.
  - eapply Qle_trans; [exact Hlo | apply Math_max_ub_l].
  - destruct (Math_max_cases (double (1 # 10)) (Math_min 2 v)) as [-> | ->].
    + exact Hhi.
    + apply Math_min_lb_l.
Qed.

(** The extent is made of the largest right and bottom edge among the sized
    nodes of the tree, 0 standing in when there is none to the right of or
    below the origin. *)
Lemma estimate_upper_bound t n b :
  In n (preorder t) -> sized n b ->
  add (x b) (w b) <= maxRight (estimateHierarchyBounds t) /\
  add (y b) (h b) <= maxBottom (estimateHierarchyBounds t).
Proof.
  intros Hin Hs. unfold estimateHierarchyBounds. rewrite walk_preorder.
  now apply (fold_visit_ub _ _ n).
Qed.

Lemma estimate_right_attained t :
  0 < maxRight (estimateHierarchyBounds t) ->
  exists n b, In n (preorder t) /\ sized n b /\
              maxRight (estimateHierarchyBounds t) = add (x b) (w b).
Proof.
  unfold estimateHierarchyBounds. rewrite walk_preorder. intros Hpos.
  destruct (fold_visit_right_attained (preorder t) (mkExtent 0 0)) as [E | E]; [| exact E].
  rewrite E in Hpos. simpl in Hpos. Lqa.lra.
Qed.

Lemma estimate_bottom_attained t :
  0 < maxBottom (estimateHierarchyBounds t) ->
  exists n b, In n (preorder t) /\ sized n b /\
              maxBottom (estimateHierarchyBounds t) = add (y b) (h b).
Proof.
  unfold estimateHierarchyBounds. rewrite walk_preorder. intros Hpos.
  destruct (fold_visit_bottom_attained (preorder t) (mkExtent 0 0)) as [E | E]; [| exact E].
  rewrite E in Hpos. simpl in Hpos. Lqa.lra.
Qed.

Lemma oversized_true e d :
  mul (width d) (double (12 # 10)) < maxRight e \/ mul (height d) (double (12 # 10)) < maxBottom e ->
  gtb (maxRight e) (mul (width d) (double (12 # 10))) || gtb (maxBottom e) (mul (height d) (double (12 # 10))) = true.
Proof.
  intros [H | H]; apply gtb_gt in H; rewrite H; [reflexivity | apply orb_true_r].
Qed.

(** The three branches of the fit before the clamp. *)
Lemma rawFit_frame e d frame :
  mul (width d) (double (12 # 10)) < maxRight e \/ mul (height d) (double (12 # 10)) < maxBottom e ->
  0 < s_width frame -> 0 < s_height frame ->
  rawFit e d frame = mkFit (div (width d) (s_width frame)) (div (height d) (s_height frame)).
Proof.
  intros Hover Hw Hh. unfold rawFit. cbv zeta. rewrite (oversized_true e d Hover).
  apply gtb_gt in Hw, Hh. now rewrite Hw, Hh.
Qed.

Lemma rawFit_fallback e d frame :
  mul (width d) (double (12 # 10)) < maxRight e \/ mul (height d) (double (12 # 10)) < maxBottom e ->
  s_width frame <= 0 \/ s_height frame <= 0 ->
  rawFit e d frame = mkFit (div (width d) (maxRight e)) (div (height d) (maxBottom e)).
Proof.
  intros Hover Hf. unfold rawFit. cbv zeta. rewrite (oversized_true e d Hover).
  assert (gtb (s_width frame) 0 && gtb (s_height frame) 0 = false) as ->; [| reflexivity].
  apply andb_false_iff. destruct Hf as [Hf | Hf]; [left | right]; now apply gtb_le.
Qed.

Lemma rawFit_unit e d frame :
  maxRight e <= mul (width d) (double (12 # 10)) -> maxBottom e <= mul (height d) (double (12 # 10)) ->
  rawFit e d frame = mkFit 1 1.
Proof.
  intros Hx Hy. unfold rawFit. cbv zeta. apply gtb_le in Hx, Hy. now rewrite Hx, Hy.
Qed.

(** The product [w * 1.2] that the oversize test computes, against the
    exact product: a relative error of at most [2^-51]. *)
Lemma mul_12_near (w : number) :
  1 <= w ->
  (12 # 10) * w * (1 - pow2 (-51)) <= mul w (double (12 # 10)) /\
  mul w (double (12 # 10)) <= (12 # 10) * w * (1 + pow2 (-51)).
Proof.
  intros Hw. set (k := double (12 # 10)).
  assert (Hk : (12 # 10) * (1 - pow2 (-53)) <= k /\ k <= 12 # 10)
    by (split; apply Qle_bool_iff; vm_compute; reflexivity).
  destruct Hk as [Hk1 Hk2].
  assert (Hp : 0 <= w * k).
  { apply Qmult_le_0_compat; [Lqa.lra |]. apply Qle_bool_iff. vm_compute. reflexivity. }
  pose proof (double_near (w * k)) as Hd. fold (mul w k) in Hd.
  rewrite (Qabs_pos (w * k)) in Hd by assumption.
  apply Qabs_Qle_condition in Hd. destruct Hd as [Hd1 Hd2].
  assert (Hwk1 : w * ((12 # 10) * (1 - pow2 (-53))) <= w * k)
    by (apply Qmult_le_l; [Lqa.lra | exact Hk1]).
  assert (Hwk2 : w * k <= w * (12 # 10)) by (apply Qmult_le_l; [Lqa.lra | exact Hk2]).
  assert (He : pow2 (-1075) <= pow2 (-1075) * w).
  { rewrite <- (Qmult_1_r (pow2 (-1075))) at 1. apply Qmult_le_l; [apply pow2_pos | exact Hw]. }
  set (eps := pow2 (-53)) in *. set (eta := pow2 (-1075)) in *.
  assert (E51 : pow2 (-51) == 4 * eps) by reflexivity.
  assert (Heta : eta <= (1 # 10) * eps) by (apply Qle_bool_iff; vm_compute; reflexivity).
  assert (Heps : 0 < eps /\ eps <= 1 # 1000)
    by (split; [apply pow2_pos | apply Qle_bool_iff; vm_compute; reflexivity]).
  destruct Heps as [Heps0 Heps1].
  assert (Hwe : 0 <= w * eps) by (apply Qmult_le_0_compat; Lqa.lra).
  rewrite E51. split; Lqa.nra.
Qed.

(** So the oversize test decides as the exact comparison with 1.2 times
    the device dimension does, outside a relative margin of [2^-51]. *)
Lemma oversized_exact (m w : number) :
  1 <= w ->
  ((12 # 10) * w * (1 + pow2 (-51)) < m -> gtb m (mul w (double (12 # 10))) = true) /\
  (m <= (12 # 10) * w * (1 - pow2 (-51)) -> gtb m (mul w (double (12 # 10))) = false).
Proof.
  intros Hw. destruct (mul_12_near w Hw) as [Hlo Hhi]. split; intros H.
  - apply gtb_gt. eapply Qle_lt_trans; eassumption.
  - apply gtb_le. eapply Qle_trans; eassumption.
Qed.

(** C1.  For a hierarchy whose extent is positive: [maxRight] and
    [maxBottom] are the largest right edge [x+w] and bottom edge [y+h] among
    the nodes of strictly positive width and height; the fit that
    [recalcHierarchyFit] sets is the clamp of [rawFit], and [rawFit] is
    - [device.width/frame.width, device.height/frame.height] when
      [maxRight > device.width*1.2] or [maxBottom > device.height*1.2] and
      the frame has positive dimensions,
    - [device.width/maxRight, device.height/maxBottom] when one of the two
      is oversized and no such frame is there,
    - [1, 1] otherwise.
    The sums, the products by [1.2] and the quotients are those of the code,
    rounded to binary64; [oversized_exact] relates the oversize test to the
    exact product. *)
Theorem recalcHierarchyFit_unclamped (t : HierarchyNode) (d : DeviceInfo) (frame : Size) :
  0 < maxRight (estimateHierarchyBounds t) ->
  0 < maxBottom (estimateHierarchyBounds t) ->
  let e := estimateHierarchyBounds t in
  ((exists n b, In n (preorder t) /\ sized n b /\ maxRight e = add (x b) (w b)) /\
   (exists n b, In n (preorder t) /\ sized n b /\ maxBottom e = add (y b) (h b)) /\
   (forall n b, In n (preorder t) -> sized n b ->
      add (x b) (w b) <= maxRight e /\ add (y b) (h b) <= maxBottom e)) /\
  recalcHierarchyFit (Some t) (Some d) frame =
    mkFit (clamp (fit_x (rawFit e d frame))) (clamp (fit_y (rawFit e d frame))) /\
  (mul (width d) (double (12 # 10)) < maxRight e \/ mul (height d) (double (12 # 10)) < maxBottom e ->
     (0 < s_width frame /\ 0 < s_height frame ->
        rawFit e d frame = mkFit (div (width d) (s_width frame)) (div (height d) (s_height frame))) /\
     (s_width frame <= 0 \/ s_height frame <= 0 ->
        rawFit e d frame = mkFit (div (width d) (maxRight e)) (div (height d) (maxBottom e)))) /\
  (maxRight e <= mul (width d) (double (12 # 10)) /\ maxBottom e <= mul (height d) (double (12 # 10)) ->
     rawFit e d frame = mkFit 1 1).
Proof.
  intros Hr Hb e. subst e. split; [| split; [| split]].
  - split; [now apply estimate_right_attained |].
    split; [now apply estimate_bottom_attained |].
    intros n b. apply estimate_upper_bound.
  - unfold recalcHierarchyFit. cbv zeta.
    apply leb_gt in Hr, Hb. now rewrite Hr, Hb.
  - intros Hover. split.
    + intros [Hw Hh]. now apply rawFit_frame.
    + intros Hf. now apply rawFit_fallback.
  - intros [Hx Hy]. now apply rawFit_unit.
Qed.

(** C4.  Whatever the hierarchy (or none), the device descriptor (or none)
    and the frame size, both fit factors that [recalcHierarchyFit] sets lie
    in [0.1, 2]. *)
Theorem recalcHierarchyFit_range (tree : option HierarchyNode) (dInfo : option DeviceInfo)
    (frame : Size) :
  let f := recalcHierarchyFit tree dInfo frame in
  (1 # 10 <= fit_x f /\ fit_x f <= 2) /\ (1 # 10 <= fit_y f /\ fit_y f <= 2).
Proof.
  assert (Hone : (1 # 10 <= 1 /\ 1 <= 2) /\ (1 # 10 <= 1 /\ 1 <= 2))
    by (repeat split; Lqa.lra).
  cbv zeta. unfold recalcHierarchyFit.
  destruct tree as [t |]; [| exact Hone]. destruct dInfo as [d |]; [| exact Hone].
  cbv zeta. destruct (leb _ 0 || leb _ 0); [exact Hone |].
  simpl. split; apply clamp_range.
Qed.

(** C5.  For positive device dimensions and a positive render surface, the
    scale that [calculateScale] sets is the least of
    [renderSurface.width/device.width], [renderSurface.height/device.height]
    and [1.2], and it is strictly positive. *)
Theorem calculateScale_is_min (v : Viewport) (deviceWidth deviceHeight : number) :
  0 < deviceWidth -> 0 < deviceHeight ->
  0 < availableWidth v -> 0 < availableHeight v ->
  let rw := availableWidth v in
  let rh := availableHeight v in
  let s := fst (calculateScale v deviceWidth deviceHeight) in
  (s <= rw / deviceWidth /\ s <= rh / deviceHeight /\ s <= 12 # 10) /\
  (s = rw / deviceWidth \/ s = rh / deviceHeight \/ s = 12 # 10) /\
  0 < s.
Proof.
  intros Hdw Hdh Hrw Hrh. cbv zeta. unfold calculateScale. simpl fst.
  split; [| split].
  - unfold Math_min3. repeat split.
    + eapply Qle_trans; [apply Math_min_lb_l | apply Math_min_lb_l].
    + eapply Qle_trans; [apply Math_min_lb_l | apply Math_min_lb_r].
    + apply Math_min_lb_r.
  - apply Math_min3_cases.
  - assert (0 < availableWidth v / deviceWidth)
      by (apply Qlt_shift_div_l; [assumption | now rewrite Qmult_0_l]).
    assert (0 < availableHeight v / deviceHeight)
      by (apply Qlt_shift_div_l; [assumption | now rewrite Qmult_0_l]).
    destruct (Math_min3_cases (availableWidth v / deviceWidth)
                (availableHeight v / deviceHeight) (12 # 10)) as [-> | [-> | ->]];
      try assumption. reflexivity.
Qed.

(** The iPhone of the specification: 375 x 812 points, no frame yet, a
    hierarchy in pixels whose extent is 1170 x 2532. *)
Lemma recalcHierarchyFit_unclamped_witness :
  0 < maxRight (estimateHierarchyBounds Scenario.pixelTree) /\
  rawFit (estimateHierarchyBounds Scenario.pixelTree) Scenario.iphone Scenario.noFrame
  = mkFit (div 375 1170) (div 812 2532) /\
  recalcHierarchyFit (Some Scenario.pixelTree) (Some Scenario.iphone) Scenario.noFrame
  = mkFit (clamp (div 375 1170)) (clamp (div 812 2532)).
Proof.
  assert (Hr : 0 < maxRight (estimateHierarchyBounds Scenario.pixelTree))
    by (vm_compute; reflexivity).
  assert (Hb : 0 < maxBottom (estimateHierarchyBounds Scenario.pixelTree))
    by (vm_compute; reflexivity).
  destruct (recalcHierarchyFit_unclamped Scenario.pixelTree Scenario.iphone Scenario.noFrame
              Hr Hb) as (_ & Hclamp & Hover & _).
  destruct Hover as [_ Hfallback]; [left; vm_compute; reflexivity |].
  assert (Hraw : rawFit (estimateHierarchyBounds Scenario.pixelTree) Scenario.iphone
                   Scenario.noFrame = mkFit (div 375 1170) (div 812 2532)).
  { rewrite Hfallback; [vm_compute; reflexivity | left; discriminate]. }
  split; [exact Hr |]. split; [exact Hraw |].
  rewrite Hclamp, Hraw. reflexivity.
Defined.

(** The clamp at work: no extent, and an extent far beyond the device. *)
Example fit_of_empty_extent :
  recalcHierarchyFit (Some Scenario.emptyTree) (Some Scenario.iphone) Scenario.noFrame
  = mkFit 1 1.
Proof. vm_compute. reflexivity. Qed.

Example fit_of_huge_extent :
  recalcHierarchyFit (Some Scenario.hugeTree) (Some Scenario.iphone) Scenario.noFrame
  = mkFit (double (1 # 10)) (double (1 # 10)).
Proof. vm_compute. reflexivity. Qed.

Example fit_of_tiny_frame :
  recalcHierarchyFit (Some Scenario.hugeTree) (Some Scenario.iphone) (mkSize 1 1)
  = mkFit 2 2.
Proof. vm_compute. reflexivity. Qed.

(** The oversize test at its boundary.  For a device 428 wide the product
    [428 * 1.2] is the binary64 number next above 513.6, so a hierarchy
    whose right edge is that number is not oversized and the fit is 1,
    although the edge exceeds 1.2 times the width; the next binary64 number
    is oversized. *)
Example oversize_boundary :
  let d := mkDeviceInfo "00008110" 428 926 "ios" in
  let edge := double (5136 # 10) in
  let tree w := Node "XCUIElementTypeApplication"
                  (mkAttrs None None None None None None None None
                           (Some (mkBounds 0 0 w 926))) [] in
  428 * (12 # 10) < edge /\
  mul 428 (double (12 # 10)) = edge /\
  recalcHierarchyFit (Some (tree edge)) (Some d) (mkSize 1284 2778) = mkFit 1 1 /\
  recalcHierarchyFit (Some (tree (edge + pow2 (-43)))) (Some d) (mkSize 1284 2778)
  = mkFit (div 428 1284) (div 926 2778).
Proof.
  cbv zeta. split; [vm_compute; reflexivity |].
  split; [vm_compute; reflexivity |]. split; vm_compute; reflexivity.
Qed.

(** The device 1080 x 2400 on a render surface of 360 x 800. *)
Lemma calculateScale_is_min_witness :
  fst (calculateScale Scenario.page 1080 2400) == 1 # 3 /\
  0 < fst (calculateScale Scenario.page 1080 2400).
Proof.
  destruct (calculateScale_is_min Scenario.page 1080 2400 eq_refl eq_refl eq_refl eq_refl)
    as (_ & _ & Hpos).
  split; [reflexivity | exact Hpos].
Defined.

End ReconcilerFacts.

(** ** Extraction of the interactive elements *)
Module ExtractorFacts.
Import JS JSFacts Extractor TreeFacts.
Local Open Scope string_scope.

Lemma nonempty_true s : nonempty s = true <-> s <> "".
Proof.
  unfold nonempty. rewrite negb_true_iff. apply String.eqb_neq.
Qed.

Lemma truthy_true a : truthy a = true <-> exists s, a = Some s /\ s <> "".
Proof.
  destruct a as [s |]; simpl.
  - rewrite nonempty_true. split; [eauto | now intros (? & [= ->] & ?)].
  - split; [discriminate | now intros (? & ? & _)].
Qed.

Lemma pushOwn_app n results : pushOwn n results = (results ++ pushOwn n [])%list.
Proof.
  unfold pushOwn. destruct (bounds_computed (attributes n)) as [b |].
  - destruct (included (attributes n) b); [reflexivity | now rewrite app_nil_r].
  - now rewrite app_nil_r.
Qed.

Lemma entryOf_visible n :
  strict_eq (visible (attributes n)) "false" = false ->
  pushOwn n [] = match entryOf n with Some e => [e] | None => [] end.
Proof.
  intros Hv. unfold entryOf. rewrite Hv. unfold pushOwn.
  destruct (bounds_computed (attributes n)) as [b |]; [| reflexivity].
  now destruct (included (attributes n) b).
Qed.

(** The walk appends, in pre-order, the overlay of every node that has one. *)
Lemma traverse_preorder n : forall results,
  traverse n results = (results ++ entries (preorder n))%list.
Proof.
  induction n as [t a cs IH] using HierarchyNode_nested_ind. intros results.
  assert (Hfold : forall r,
    fold_left (fun acc child => traverse child acc) cs r
    = (r ++ entries (flat_map preorder cs))%list).
  { induction IH as [| c cs Hc _ IHcs]; intros r; simpl.
    - now rewrite app_nil_r.
    - rewrite IHcs, Hc. unfold entries. now rewrite flat_map_app, app_assoc. }
  unfold entries in *. simpl. destruct (strict_eq (visible a) "false") eqn:Hv.
  - rewrite Hfold. unfold entryOf. simpl. now rewrite Hv.
  - rewrite Hfold, pushOwn_app, (entryOf_visible (Node t a cs)) by exact Hv.
    now rewrite <- app_assoc.
Qed.

Lemma included_true attrs b :
  included attrs b = true <->
  (10 < w b /\ w b < 2000) /\ (10 < h b /\ h b < 3000) /\
  (clickable attrs = Some "true" \/ scrollable attrs = Some "true" \/
   focusable attrs = Some "true" \/ long_clickable attrs = Some "true" \/
   exists s, text attrs = Some s /\ s <> "").
Proof.
  unfold included.
  rewrite !andb_true_iff, !orb_true_iff, !strict_eq_true, truthy_true, !gtb_gt, !ltb_lt.
  tauto.
Qed.

Lemma entryOf_spec n e : entryOf n = Some e <-> overlay_for n e.
Proof.
  unfold entryOf, overlay_for, pushOwn. cbv zeta.
  destruct (strict_eq (visible (attributes n)) "false") eqn:Hv.
  - apply strict_eq_true in Hv. split; [discriminate | now intros [? _]].
  - apply strict_eq_false in Hv.
    destruct (bounds_computed (attributes n)) as [b |].
    + destruct (included (attributes n) b) eqn:Hi; simpl.
      * apply included_true in Hi. split.
        -- intros [= <-]. split; [assumption |]. exists b. tauto.
        -- intros (_ & b' & [= <-] & _ & _ & _ & ->). reflexivity.
      * split; [discriminate |].
        intros (_ & b' & [= <-] & Hw & Hh & Hk & _).
        assert (included (attributes n) b = true) by (apply included_true; tauto).
        congruence.
    + split; [discriminate | now intros (_ & b' & ? & _)].
Qed.

(** C7.  The extractor returns, in pre-order, the overlay of every node
    that has one; a node has an overlay exactly when it is not marked
    not-visible, has computed bounds of width in (10, 2000) and height in
    (10, 3000), and is clickable, scrollable, focusable or long-clickable or
    has a non-empty text; the output for a node is its own overlay (none
    when it is marked not-visible) followed by the outputs for its children,
    in order. *)
Theorem extractElementBounds_spec (t : HierarchyNode) :
  extractElementBounds t = entries (preorder t) /\
  (forall n e, entryOf n = Some e <-> overlay_for n e) /\
  (forall e, In e (extractElementBounds t) <->
             exists n, In n (preorder t) /\ overlay_for n e) /\
  (forall tg a cs,
     extractElementBounds (Node tg a cs)
     = (match entryOf (Node tg a cs) with Some e => [e] | None => [] end
        ++ flat_map extractElementBounds cs)%list) /\
  (forall tg a cs, strict_eq (visible a) "false" = true ->
     extractElementBounds (Node tg a cs) = flat_map extractElementBounds cs) /\
  (forall tg a c e, strict_eq (visible a) "false" = true ->
     children c = [] -> overlay_for c e ->
     extractElementBounds (Node tg a [c]) = [e]).
Proof.
  assert (Hext : forall u, extractElementBounds u = entries (preorder u))
    by (intros u; unfold extractElementBounds; now rewrite traverse_preorder).
  assert (Hnode : forall tg a cs,
     extractElementBounds (Node tg a cs)
     = (match entryOf (Node tg a cs) with Some e => [e] | None => [] end
        ++ flat_map extractElementBounds cs)%list).
  { intros tg a cs. rewrite Hext. simpl. unfold entries at 1. simpl. f_equal.
    induction cs as [| c cs IHcs]; simpl; [reflexivity |].
    rewrite flat_map_app, IHcs, Hext. reflexivity. }
  split; [apply Hext |]. split; [apply entryOf_spec |].
  assert (Hhidden : forall tg a cs, strict_eq (visible a) "false" = true ->
     extractElementBounds (Node tg a cs) = flat_map extractElementBounds cs).
  { intros tg a cs Hv. rewrite Hnode. unfold entryOf. simpl. now rewrite Hv. }
  split; [| split; [apply Hnode | split; [apply Hhidden |]]].
  - intros e. rewrite Hext. unfold entries. rewrite in_flat_map. split.
    + intros (n & Hin & He). exists n. split; [assumption |]. apply entryOf_spec.
      destruct (entryOf n) as [e' |]; [| destruct He].
      destruct He as [-> | []]. reflexivity.
    + intros (n & Hin & Ho). exists n. split; [assumption |].
      apply entryOf_spec in Ho. rewrite Ho. now left.
  - intros tg a c e Hv Hleaf Ho. rewrite Hhidden by exact Hv. simpl.
    rewrite app_nil_r. destruct c as [tc ac cs]. simpl in Hleaf. subst cs.
    rewrite Hnode. apply entryOf_spec in Ho. now rewrite Ho.
Qed.

(** An invisible parent with one visible, interactive child of a valid size
    yields exactly one overlay, the child's. *)
Example hidden_parent_one_overlay :
  extractElementBounds Scenario.hiddenParent
  = [mkElementBound (mkBounds 100 200 200 80) "OK" "#52c41a"].
Proof. reflexivity. Qed.

(** A node 5 wide is left out, although it is clickable and has a text. *)
Example narrow_node_excluded : extractElementBounds Scenario.narrowNode = [].
Proof. reflexivity. Qed.

(** [split] cuts at every separator: the segments have no separator, and
    the string is the last segment, possibly after a prefix and a separator. *)
Lemma split_spec sep s :
  exists first rest,
    split sep s = first :: rest /\
    ~ In sep (list_ascii_of_string first) /\
    (rest = [] -> s = first) /\
    (rest <> [] -> exists seg pre,
       pop rest = Some seg /\ ~ In sep (list_ascii_of_string seg) /\
       s = pre ++ String sep seg).
Proof.
  induction s as [| c s' (f & r & Hsplit & Hf & Hone & Hmany)]; simpl.
  - exists "", []. repeat split; [now intros [] | congruence].
  - rewrite Hsplit. destruct (Ascii.eqb_spec c sep) as [-> | Hne].
    + exists "", (f :: r). split; [reflexivity |]. split; [now intros [] |].
      split; [discriminate |]. intros _. destruct r as [| r1 r'].
      * exists f, "". rewrite (Hone eq_refl). auto.
      * destruct Hmany as (seg & pre & Hpop & Hseg & ->); [discriminate |].
        exists seg, (String sep pre). auto.
    + exists (String c f), r. split; [reflexivity |]. split.
      * simpl. intros [-> | Hin]; [now apply Hne | now apply Hf].
      * split; [intros Hr; now rewrite (Hone Hr) |].
        intros Hr. destruct (Hmany Hr) as (seg & pre & Hpop & Hseg & ->).
        exists seg, (String c pre). auto.
Qed.

(** The last segment has no separator, and the string ends with it: it is
    the whole string, or what follows the last separator. *)
Lemma last_segment_spec sep s :
  ~ In sep (list_ascii_of_string (last_segment sep s)) /\
  (s = last_segment sep s \/ exists pre, s = pre ++ String sep (last_segment sep s)).
Proof.
  unfold last_segment.
  destruct (split_spec sep s) as (f & r & -> & Hf & Hone & Hmany).
  destruct r as [| r1 r'].
  - simpl. split; [exact Hf | left; now apply Hone].
  - destruct Hmany as (seg & pre & Hpop & Hseg & ->); [discriminate |].
    change (pop (f :: r1 :: r')) with (pop (r1 :: r')). rewrite Hpop. simpl.
    split; [exact Hseg | right; now exists pre].
Qed.

Lemma append_dots_nonempty s : nonempty (s ++ "...") = true.
Proof. now destruct s. Qed.

Lemma nonempty_truncate s : nonempty (truncate s) = nonempty s.
Proof.
  unfold truncate. destruct (nonempty s) eqn:E; simpl; [| exact E].
  destruct (20 <? String.length s)%nat; [apply append_dots_nonempty | exact E].
Qed.

Lemma truncate_nonempty s :
  s <> "" -> truncate s = if (20 <? String.length s)%nat then substring 0 17 s ++ "..." else s.
Proof. intros H. apply nonempty_true in H. unfold truncate. now rewrite H. Qed.

Lemma truthy_some s : s <> "" -> truthy (Some s) = true.
Proof. intros H. now apply nonempty_true. Qed.

(** C8, as the code has it.  The label of a node is taken from the first
    of text, resource-id and content-description that is present and not
    empty: the text, the last path segment of the resource-id, or the
    content-description, in each case cut to its first 17 characters
    followed by three dots when it is longer than 20 characters.  When that
    gives nothing (none of the three is present and non-empty, or the
    resource-id ends with a slash), the label is the last dotted segment of
    the tag. *)
Theorem labelOf_cases (n : HierarchyNode) :
  let attrs := attributes n in
  (forall s, text attrs = Some s -> s <> "" -> labelOf n = truncate s) /\
  (truthy (text attrs) = false ->
   forall r, resource_id attrs = Some r -> r <> "" -> last_segment "/" r <> "" ->
     labelOf n = truncate (last_segment "/" r)) /\
  (truthy (text attrs) = false -> truthy (resource_id attrs) = false ->
   forall d, content_desc attrs = Some d -> d <> "" -> labelOf n = truncate d) /\
  (truthy (text attrs) = false ->
   (exists r, resource_id attrs = Some r /\ r <> "" /\ last_segment "/" r = "") \/
   (truthy (resource_id attrs) = false /\ truthy (content_desc attrs) = false) ->
     labelOf n = last_segment "." (tag n)) /\
  (forall s, s <> "" ->
     truncate s = if (20 <? String.length s)%nat then substring 0 17 s ++ "..." else s).
Proof.
  cbv zeta. unfold labelOf. cbv zeta. repeat split.
  - intros s Ht Hs. rewrite Ht, (truthy_some s Hs). simpl or_empty.
    rewrite nonempty_truncate. apply nonempty_true in Hs. now rewrite Hs.
  - intros Ht r Hr Hr0 Hseg. rewrite Ht, Hr, (truthy_some r Hr0). simpl or_empty.
    fold (last_segment "/" r). rewrite nonempty_truncate.
    apply nonempty_true in Hseg. now rewrite Hseg.
  - intros Ht Hr d Hd Hd0. rewrite Ht, Hr, Hd, (truthy_some d Hd0). simpl or_empty.
    rewrite nonempty_truncate. apply nonempty_true in Hd0. now rewrite Hd0.
  - intros Ht [(r & Hr & Hr0 & Hseg) | [Hr Hd]]; rewrite Ht.
    + rewrite Hr, (truthy_some r Hr0). simpl or_empty. fold (last_segment "/" r).
      rewrite Hseg. reflexivity.
    + rewrite Hr, Hd. reflexivity.
  - apply truncate_nonempty.
Qed.

(** C8 fails as worded.  A content-description of 34 characters is cut to
    17 characters and three dots, where the wording keeps it whole; and a
    resource-id that ends with a slash sends the label to the tag, where the
    wording takes the content-description. *)
Lemma labelOf_not_first_nonempty :
  (labelOf Scenario.upButton = "Navigate up to th..." /\
   claimedLabel Scenario.upButton = "Navigate up to the previous screen") /\
  (labelOf Scenario.backButton = "ImageButton" /\
   claimedLabel Scenario.backButton = "Back").
Proof. repeat split. Qed.

(** The four cases of [labelOf_cases] on concrete nodes. *)
Lemma labelOf_cases_witness :
  labelOf Scenario.okButton = "OK" /\
  labelOf Scenario.upButton = "Navigate up to th..." /\
  labelOf Scenario.backButton = "ImageButton".
Proof.
  destruct (labelOf_cases Scenario.okButton) as (H1 & _).
  destruct (labelOf_cases Scenario.upButton) as (_ & _ & H3 & _).
  destruct (labelOf_cases Scenario.backButton) as (_ & _ & _ & H4 & _).
  split; [| split].
  - apply (H1 "OK"); [reflexivity | discriminate].
  - apply (H3 eq_refl eq_refl "Navigate up to the previous screen");
      [reflexivity | discriminate].
  - apply (H4 eq_refl). left. exists "com.app:id/".
    split; [reflexivity | split; [discriminate | reflexivity]].
Defined.

End ExtractorFacts.

(** ** Pointer handling *)
Module GestureFacts.
Import JS JSFacts Reconciler Gesture.

(** The test of the handlers is the comparison of the computed distance
    with the threshold of 20. *)
Lemma beyondThreshold_dist pos start :
  beyondThreshold pos start = true <-> 20 < dist pos start.
Proof. unfold beyondThreshold. apply gtb_gt. Qed.

Lemma within_threshold_dist pos start :
  beyondThreshold pos start = false <-> dist pos start <= 20.
Proof. unfold beyondThreshold. apply gtb_le. Qed.

(** From here on the test is taken as a whole. *)
#[local] Opaque beyondThreshold.

(** The Euclidean distance against a threshold that is not negative, on
    the exact squares. *)
Lemma squaredDistance_nonneg pos start : 0 <= squaredDistance pos start.
Proof.
  unfold squaredDistance.
  set (dx := p_x pos - ts_canvasX start). set (dy := p_y pos - ts_canvasY start).
  assert (0 <= dx * dx) by Lqa.nra. assert (0 <= dy * dy) by Lqa.nra. Lqa.lra.
Qed.

Lemma Q2R_nonneg q : 0 <= q -> (0 <= Q2R q)%R.
Proof. intros H. apply Qle_Rle in H. change (Q2R 0) with (0 / 1)%R in H. Lra.lra. Qed.

Lemma distance_le pos start (c : Q) :
  0 <= c -> ((distance pos start <= Q2R c)%R <-> squaredDistance pos start <= c * c).
Proof.
  intros Hc. unfold distance.
  pose proof (Q2R_nonneg _ (squaredDistance_nonneg pos start)) as Hs.
  pose proof (Q2R_nonneg _ Hc) as Hc'.
  split.
  - intros H. apply Rle_Qle. rewrite Q2R_mult.
    rewrite <- (sqrt_sqrt (Q2R (squaredDistance pos start))) by assumption.
    apply Rmult_le_compat; try apply sqrt_pos; assumption.
  - intros H. apply Qle_Rle in H. rewrite Q2R_mult in H.
    rewrite <- (sqrt_square (Q2R c)) by assumption. now apply sqrt_le_1_alt.
Qed.

Lemma distance_ge pos start (c : Q) :
  0 <= c -> ((Q2R c <= distance pos start)%R <-> c * c <= squaredDistance pos start).
Proof.
  intros Hc. unfold distance.
  pose proof (Q2R_nonneg _ (squaredDistance_nonneg pos start)) as Hs.
  pose proof (Q2R_nonneg _ Hc) as Hc'.
  split.
  - intros H. apply Rle_Qle. rewrite Q2R_mult.
    rewrite <- (sqrt_sqrt (Q2R (squaredDistance pos start))) by assumption.
    apply Rmult_le_compat; assumption.
  - intros H. apply Qle_Rle in H. rewrite Q2R_mult in H.
    rewrite <- (sqrt_square (Q2R c)) by assumption. now apply sqrt_le_1_alt.
Qed.

Lemma distance_le_20 pos start :
  (distance pos start <= 20)%R <-> squaredDistance pos start <= 400.
Proof.
  assert (H20 : Q2R 20 = 20%R) by (unfold Q2R; simpl; Lra.lra).
  rewrite <- H20. apply (distance_le pos start 20). discriminate.
Qed.

(** The sum of squares that the handlers compute, for offsets that are
    whole numbers of at most [2^26]: no operation rounds. *)
Lemma squares_whole pos start (a b : Z) :
  p_x pos - ts_canvasX start == inject_Z a ->
  p_y pos - ts_canvasY start == inject_Z b ->
  (Z.abs a <= 2 ^ 26)%Z -> (Z.abs b <= 2 ^ 26)%Z ->
  let dx := sub (p_x pos) (ts_canvasX start) in
  let dy := sub (p_y pos) (ts_canvasY start) in
  add (mul dx dx) (mul dy dy) == inject_Z (a * a + b * b).
Proof.
  intros Ha Hb Hza Hzb. cbv zeta.
  assert (Hsq : forall z, (Z.abs z <= 2 ^ 26)%Z -> (0 <= z * z <= 2 ^ 52)%Z).
  { intros z Hz. change (2 ^ 52)%Z with (2 ^ 26 * 2 ^ 26)%Z. nia. }
  pose proof (Hsq a Hza) as Haa. pose proof (Hsq b Hzb) as Hbb.
  assert (Hdx : sub (p_x pos) (ts_canvasX start) == inject_Z a).
  { unfold sub. rewrite (double_proper _ _ Ha). apply double_Z. lia. }
  assert (Hdy : sub (p_y pos) (ts_canvasY start) == inject_Z b).
  { unfold sub. rewrite (double_proper _ _ Hb). apply double_Z. lia. }
  set (dx := sub (p_x pos) (ts_canvasX start)) in *.
  set (dy := sub (p_y pos) (ts_canvasY start)) in *.
  assert (Hmx : mul dx dx == inject_Z (a * a)).
  { unfold mul. rewrite (double_proper (dx * dx) (inject_Z (a * a))).
    - apply double_Z. lia.
    - now rewrite Hdx, inject_Z_mult. }
  assert (Hmy : mul dy dy == inject_Z (b * b)).
  { unfold mul. rewrite (double_proper (dy * dy) (inject_Z (b * b))).
    - apply double_Z. lia.
    - now rewrite Hdy, inject_Z_mult. }
  unfold add. rewrite (double_proper _ (inject_Z (a * a + b * b))).
  - apply double_Z. change (2 ^ 53)%Z with (2 ^ 52 + 2 ^ 52)%Z. lia.
  - now rewrite Hmx, Hmy, inject_Z_plus.
Qed.

(** For such offsets the computed distance and the Euclidean distance are
    on the same side of the threshold. *)
Lemma dist_whole pos start (a b : Z) :
  p_x pos - ts_canvasX start == inject_Z a ->
  p_y pos - ts_canvasY start == inject_Z b ->
  (Z.abs a <= 2 ^ 26)%Z -> (Z.abs b <= 2 ^ 26)%Z ->
  (dist pos start <= 20 <-> (distance pos start <= 20)%R).
Proof.
  intros Ha Hb Hza Hzb. rewrite distance_le_20. unfold squaredDistance. rewrite Ha, Hb.
  pose proof (squares_whole pos start a b Ha Hb Hza Hzb) as Hsum. cbv zeta in Hsum.
  unfold dist. cbv zeta.
  set (s := add _ _) in *.
  rewrite <- !inject_Z_mult, <- inject_Z_plus.
  destruct (Z_le_gt_dec (a * a + b * b) 400) as [Hle | Hgt].
  - split; intros _.
    + change 400 with (inject_Z 400). now rewrite <- Zle_Qle.
    + apply Math_sqrt_le_20. rewrite Hsum. change 400 with (inject_Z 400).
      now rewrite <- Zle_Qle.
  - assert (H401 : 400 + pow2 (-42) <= s).
    { apply Qle_trans with 401; [apply Qle_bool_iff; vm_compute; reflexivity |].
      rewrite Hsum. change 401 with (inject_Z 401). rewrite <- Zle_Qle. lia. }
    apply Math_sqrt_gt_20 in H401. split; intros H.
    + exfalso. apply (Qlt_irrefl 20). eapply Qlt_le_trans; eassumption.
    + change 400 with (inject_Z 400) in H. rewrite <- Zle_Qle in H. lia.
Qed.

Lemma Qsquare_le_abs a B : 0 <= B -> a * a <= B * B -> Qabs a <= B.
Proof.
  intros HB H. apply Qabs_Qle_condition. split.
  - apply Qnot_lt_le. intros Hlt. Lqa.nra.
  - apply Qnot_lt_le. intros Hlt. Lqa.nra.
Qed.

(** Outside a margin of [2^-38] around 400 the computed distance is on the
    side of the threshold on which the exact sum of squares is. *)
Lemma dist_margin pos start :
  (squaredDistance pos start <= 400 - pow2 (-38) -> dist pos start <= 20) /\
  (400 + pow2 (-38) <= squaredDistance pos start -> 20 < dist pos start).
Proof.
  unfold squaredDistance, dist, sub. cbv zeta.
  set (X := p_x pos - ts_canvasX start). set (Y := p_y pos - ts_canvasY start).
  assert (HXX : 0 <= X * X) by Lqa.nra. assert (HYY : 0 <= Y * Y) by Lqa.nra.
  split; intros H.
  - assert (HX : Qabs X <= 32).
    { apply Qsquare_le_abs; [discriminate |].
      assert (pow2 (-38) >= 0) by discriminate. Lqa.lra. }
    assert (HY : Qabs Y <= 32).
    { apply Qsquare_le_abs; [discriminate |].
      assert (pow2 (-38) >= 0) by discriminate. Lqa.lra. }
    pose proof (sum_squares_near X Y HX HY) as Hn. apply Qabs_Qle_condition in Hn.
    apply Math_sqrt_le_20.
    assert (Hc : pow2 (-39) <= pow2 (-38)) by (apply pow2_le; lia). Lqa.lra.
  - apply Math_sqrt_gt_20.
    destruct (Qlt_le_dec 32 (Qabs X)) as [HX | HX].
    { assert (Hf := sum_squares_far X Y (or_introl (Qlt_le_weak _ _ HX))).
      assert (Hc : 400 + pow2 (-42) <= 401) by (apply Qle_bool_iff; vm_compute; reflexivity).
      Lqa.lra. }
    destruct (Qlt_le_dec 32 (Qabs Y)) as [HY | HY].
    { assert (Hf := sum_squares_far X Y (or_intror (Qlt_le_weak _ _ HY))).
      assert (Hc : 400 + pow2 (-42) <= 401) by (apply Qle_bool_iff; vm_compute; reflexivity).
      Lqa.lra. }
    pose proof (sum_squares_near X Y HX HY) as Hn. apply Qabs_Qle_condition in Hn.
    assert (Hc : pow2 (-39) + pow2 (-42) <= pow2 (-38))
      by (apply Qle_bool_iff; vm_compute; reflexivity).
    Lqa.lra.
Qed.

(** The same for the Euclidean distance: outside the rounding margin
    around the threshold, the computed distance is on the side of the
    threshold on which the Euclidean distance is. *)
Lemma dist_margin_distance pos start :
  ((distance pos start <= Q2R (20 - rounding_margin))%R -> dist pos start <= 20) /\
  ((Q2R (20 + rounding_margin) <= distance pos start)%R -> 20 < dist pos start).
Proof.
  destruct (dist_margin pos start) as [Hle Hgt]. split; intros H.
  - apply distance_le in H; [| discriminate]. apply Hle.
    eapply Qle_trans; [exact H |]. apply Qle_bool_iff. vm_compute. reflexivity.
  - apply distance_ge in H; [| discriminate]. apply Hgt.
    eapply Qle_trans; [| exact H]. apply Qle_bool_iff. vm_compute. reflexivity.
Qed.

(** Pointer-down in tap mode captures the device point of the pointer and
    its canvas point. *)
Lemma handleMouseDown_captures c pos :
  tapMode c = true ->
  tapStartRef (handleMouseDown (Some pos) c)
  = Some (mkTapStart (p_x (canvasToDevice (deviceInfo c) (scale c) (p_x pos) (p_y pos)))
                     (p_y (canvasToDevice (deviceInfo c) (scale c) (p_x pos) (p_y pos)))
                     (p_x pos) (p_y pos)).
Proof. intros Hm. unfold handleMouseDown. now rewrite Hm. Qed.


(** Without a selected device the release sends nothing; the gesture is
    cleared all the same.  (The stage that delivers the release is rendered
    only while a device is selected.) *)
Lemma handleMouseUp_no_device (c : Canvas) (start : TapStart) (pos : Point) :
  tapMode c = true -> tapStartRef c = Some start -> deviceSerial c = None ->
  snd (handleMouseUp (Some pos) c) = [] /\
  tapStartRef (fst (handleMouseUp (Some pos) c)) = None.
Proof.
  intros Hm Hs Hd. unfold handleMouseUp. rewrite Hm, Hs, Hd. auto.
Qed.


(** The threshold at the last binary digit.  A release 20 to the right of
    the press and [2^-22] below it is further than 20 from it, yet the sum
    of the squares rounds to 400 and the release is a tap. *)
Example release_at_rounding_boundary :
  let start := mkTapStart 300 300 100 100 in
  let pos := mkPoint 120 (100 + pow2 (-22)) in
  ~ (distance pos start <= 20)%R /\ dist pos start = 20 /\
  snd (handleMouseUp (Some pos) Scenario.pressed) = [Tap "emulator-5554" 300 300].
Proof.
  cbv zeta. split; [| split].
  - rewrite distance_le_20. intros H. apply Qle_bool_iff in H. vm_compute in H. discriminate.
  - vm_compute. reflexivity.
  - vm_compute. reflexivity.
Qed.

(** C9.  Pointer-leave clears the swipe arrow and the coordinate readout
    and keeps the pending gesture; a pointer-up after it sends what it
    would have sent without the leave, from the same captured start. *)
Theorem handleMouseLeave_keeps_gesture (c : Canvas) :
  let left := handleMouseLeave c in
  swipeArrow left = None /\ coordinate left = None /\
  tapStartRef left = tapStartRef c /\
  (forall pointerPos,
     snd (handleMouseUp pointerPos left) = snd (handleMouseUp pointerPos c) /\
     fst (handleMouseUp pointerPos left) = handleMouseLeave (fst (handleMouseUp pointerPos c))).
Proof.
  cbv zeta. repeat split.
  - unfold handleMouseUp, handleMouseLeave. simpl.
    destruct (tapMode c); [| reflexivity].
    destruct (tapStartRef c) as [start |]; [| reflexivity].
    destruct pointerPos as [pos |]; [| reflexivity].
    destruct (deviceSerial c); [| reflexivity].
    now destruct (beyondThreshold pos start).
  - unfold handleMouseUp, handleMouseLeave. simpl.
    destruct (tapMode c); [| reflexivity].
    destruct (tapStartRef c) as [start |]; [| reflexivity].
    destruct pointerPos as [pos |]; [| reflexivity].
    destruct (deviceSerial c); [| reflexivity].
    now destruct (beyondThreshold pos start).
Qed.

(** Press, drag 60 to the right, leave the surface, release: the arrow is
    gone after the leave, and the swipe still starts at the captured point. *)
Example leave_then_release :
  let dragged := handleMouseMove (Some (mkPoint 160 100)) Scenario.pressed in
  swipeArrow dragged = Some (mkArrow 100 100 160 100) /\
  swipeArrow (handleMouseLeave dragged) = None /\
  snd (handleMouseUp (Some (mkPoint 160 100)) (handleMouseLeave dragged))
    = [Swipe "emulator-5554" 300 300 480 300 300].
Proof. cbv zeta. split; [| split]; vm_compute; reflexivity. Qed.

Lemma Math_round_integer q : is_integer (Math_round q).
Proof. now exists (Qfloor (q + (1 # 2))). Qed.

(** [Math.round] is within a half of its argument. *)
Lemma Math_round_nearest q : q - (1 # 2) < Math_round q /\ Math_round q <= q + (1 # 2).
Proof.
  unfold Math_round. split.
  - pose proof (Qlt_floor (q + (1 # 2))) as H.
    rewrite inject_Z_plus in H. change (inject_Z 1) with 1 in H. Lqa.lra.
  - apply Qfloor_le.
Qed.

Lemma canvasToDevice_integer deviceInfo scale canvasX canvasY :
  is_integer (p_x (canvasToDevice deviceInfo scale canvasX canvasY)) /\
  is_integer (p_y (canvasToDevice deviceInfo scale canvasX canvasY)).
Proof.
  destruct deviceInfo; simpl; split; try apply Math_round_integer; now exists 0%Z.
Qed.

Lemma captured_ext c c' : tapStartRef c' = tapStartRef c -> captured c -> captured c'.
Proof. unfold captured. now intros ->. Qed.

Lemma captured_none c : tapStartRef c = None -> captured c.
Proof. intros H start. rewrite H. discriminate. Qed.

(** Pointer-move does not touch the pending gesture. *)
Lemma handleMouseMove_tapStartRef pointerPos c :
  tapStartRef (handleMouseMove pointerPos c) = tapStartRef c.
Proof.
  unfold handleMouseMove. destruct pointerPos as [pos |]; [| reflexivity].
  cbv zeta. simpl tapMode. simpl tapStartRef at 1.
  destruct (tapMode c); [| reflexivity].
  destruct (tapStartRef c) as [start |] eqn:E; [| exact E].
  destruct (beyondThreshold pos start); exact E.
Qed.

(** The pointer handlers keep the pending device point whole. *)
Lemma dispatch_captured ev c : captured c -> captured (fst (dispatch ev c)).
Proof.
  intros Hc. destruct ev as [pointerPos | | pointerPos | pointerPos | pointerPos]; simpl.
  - apply (captured_ext c); [apply handleMouseMove_tapStartRef | exact Hc].
  - exact Hc.
  - unfold handleMouseDown. destruct (tapMode c); simpl; [| exact Hc].
    destruct pointerPos as [pos |]; [| exact Hc].
    intros start [= <-]. simpl. apply canvasToDevice_integer.
  - unfold handleMouseUp. destruct (tapMode c); [| exact Hc].
    destruct (tapStartRef c) as [start |]; [| exact Hc].
    destruct pointerPos as [pos |]; [| exact Hc].
    cbv zeta. apply captured_none.
    destruct (deviceSerial c); [destruct (beyondThreshold pos start) |]; reflexivity.
  - exact Hc.
Qed.

(** What the pointer handlers send has whole coordinates. *)
Lemma dispatch_integral ev c : captured c -> Forall integral (snd (dispatch ev c)).
Proof.
  intros Hc. destruct ev as [pointerPos | | pointerPos | pointerPos | pointerPos]; simpl;
    try constructor.
  - unfold handleMouseUp. destruct (tapMode c); [| constructor].
    destruct (tapStartRef c) as [start |] eqn:Hs; [| constructor].
    destruct pointerPos as [pos |]; [| constructor].
    cbv zeta. destruct (Hc start Hs) as [Hx Hy].
    destruct (deviceSerial c); [| constructor].
    destruct (beyondThreshold pos start); repeat constructor; simpl;
      try assumption; apply canvasToDevice_integer.
  - unfold handleClick. destruct (tapMode c); [constructor |].
    destruct pointerPos as [pos |]; [| constructor].
    destruct (onTap c); [| constructor].
    destruct (deviceInfo c) as [d |]; [| constructor].
    destruct (gtb _ 0 && gtb _ 0); repeat constructor; simpl; apply Math_round_integer.
Qed.

Lemma dispatch_scaled ev c : scaled c -> scaled (fst (dispatch ev c)).
Proof.
  assert (Hext : forall c', scale c' = scale c -> canvasSize c' = canvasSize c ->
                            scaled c -> scaled c').
  { unfold scaled. now intros c' -> ->. }
  intros Hs. destruct ev as [pointerPos | | pointerPos | pointerPos | pointerPos]; simpl;
    try exact Hs; apply Hext; try exact Hs.
  - unfold handleMouseMove. destruct pointerPos as [pos |]; [| reflexivity].
    cbv zeta. simpl tapMode. simpl tapStartRef.
    destruct (tapMode c); [| reflexivity]. destruct (tapStartRef c) as [start |]; [| reflexivity].
    now destruct (beyondThreshold pos start).
  - unfold handleMouseMove. destruct pointerPos as [pos |]; [| reflexivity].
    cbv zeta. simpl tapMode. simpl tapStartRef.
    destruct (tapMode c); [| reflexivity]. destruct (tapStartRef c) as [start |]; [| reflexivity].
    now destruct (beyondThreshold pos start).
  - unfold handleMouseDown. destruct (tapMode c); [| reflexivity].
    now destruct pointerPos.
  - unfold handleMouseDown. destruct (tapMode c); [| reflexivity].
    now destruct pointerPos.
  - unfold handleMouseUp. destruct (tapMode c); [| reflexivity].
    destruct (tapStartRef c) as [start |]; [| reflexivity].
    destruct pointerPos as [pos |]; [| reflexivity].
    cbv zeta. destruct (deviceSerial c); [destruct (beyondThreshold pos start) |]; reflexivity.
  - unfold handleMouseUp. destruct (tapMode c); [| reflexivity].
    destruct (tapStartRef c) as [start |]; [| reflexivity].
    destruct pointerPos as [pos |]; [| reflexivity].
    cbv zeta. destruct (deviceSerial c); [destruct (beyondThreshold pos start) |]; reflexivity.
Qed.

Lemma rescale_scaled v deviceWidth deviceHeight c :
  scaled (rescale v deviceWidth deviceHeight c) /\
  tapStartRef (rescale v deviceWidth deviceHeight c) = tapStartRef c.
Proof.
  unfold rescale, calculateScale. cbv zeta. simpl. split; [| reflexivity].
  exists deviceWidth, deviceHeight. simpl. split; reflexivity.
Qed.

(** Every step keeps the two invariants, and sends whole coordinates. *)
Lemma step_invariant e c :
  captured c -> scaled c ->
  captured (fst (step e c)) /\ scaled (fst (step e c)) /\ Forall integral (snd (step e c)).
Proof.
  intros Hc Hs. destruct e as [serial | info v | v | frame | | ev]; simpl.
  - split; [exact Hc | split; [exact Hs | constructor]].
  - destruct (rescale_scaled v (width info) (height info) (setDeviceInfo (Some info) c))
      as [Hs' Ht].
    split; [| split; [exact Hs' | constructor]].
    eapply captured_ext; [exact Ht | exact Hc].
  - destruct (deviceInfo c) as [info |]; simpl.
    + destruct (rescale_scaled v (width info) (height info) c) as [Hs' Ht].
      split; [| split; [exact Hs' | constructor]].
      eapply captured_ext; [exact Ht | exact Hc].
    + split; [exact Hc | split; [exact Hs | constructor]].
  - split; [exact Hc | split; [exact Hs | constructor]].
  - split; [exact Hc | split; [exact Hs | constructor]].
  - destruct (hasStage c); simpl.
    + split; [now apply dispatch_captured |].
      split; [now apply dispatch_scaled | now apply dispatch_integral].
    + split; [exact Hc | split; [exact Hs | constructor]].
Qed.

Lemma run_invariant es : forall c,
  captured c -> scaled c ->
  captured (fst (run es c)) /\ scaled (fst (run es c)) /\ Forall integral (snd (run es c)).
Proof.
  induction es as [| e es IH]; intros c Hc Hs; simpl.
  - split; [exact Hc | split; [exact Hs | constructor]].
  - destruct (step_invariant e c Hc Hs) as (Hc1 & Hs1 & Hi1).
    destruct (step e c) as [c1 sent1]. simpl in Hc1, Hs1, Hi1.
    destruct (IH c1 Hc1 Hs1) as (Hc2 & Hs2 & Hi2).
    destruct (run es c1) as [c2 sent2]. simpl in *.
    split; [exact Hc2 | split; [exact Hs2 |]]. apply Forall_app. now split.
Qed.

(** A canvas that can receive a pointer event has a device, and neither its
    scale nor its height is zero: the quotients of the handlers are
    well-defined. *)
Lemma hasStage_regular c :
  scaled c -> hasStage c = true ->
  deviceSerial c <> None /\ ~ scale c == 0 /\ ~ s_height (canvasSize c) == 0.
Proof.
  intros (dw & dh & Hw & Hh). unfold hasStage.
  destruct (deviceSerial c); [| discriminate].
  rewrite andb_true_iff, !gtb_gt. intros [Hpw Hph].
  split; [discriminate |]. split.
  - intros Hz. rewrite Hw, Hz in Hpw. rewrite Qmult_0_r in Hpw. now apply Qlt_irrefl in Hpw.
  - intros Hz. rewrite Hz in Hph. now apply Qlt_irrefl in Hph.
Qed.

(** C10.  [canvasToDevice] rounds each component with [Math.round]; and in
    every run of the canvas from its mount (device selection, device info,
    resizes, frames, tap-mode toggles and pointer events in any order),
    every coordinate sent with a tap, a swipe or an element lookup is a whole
    number.  Whenever the canvas can receive a pointer event, its scale and
    its height are not zero. *)
Theorem dispatched_coordinates_integral (deviceSerial : option string) (onTap : bool)
    (es : list Event) :
  (forall d scale canvasX canvasY,
     canvasToDevice (Some d) scale canvasX canvasY
     = mkPoint (Math_round (canvasX / scale)) (Math_round (canvasY / scale))) /\
  Forall integral (snd (run es (mount deviceSerial onTap))) /\
  (hasStage (fst (run es (mount deviceSerial onTap))) = true ->
   ~ scale (fst (run es (mount deviceSerial onTap))) == 0 /\
   ~ s_height (canvasSize (fst (run es (mount deviceSerial onTap)))) == 0).
Proof.
  assert (Hc : captured (mount deviceSerial onTap)) by now apply captured_none.
  assert (Hs : scaled (mount deviceSerial onTap)).
  { exists 360, 640. simpl. split; reflexivity. }
  destruct (run_invariant es _ Hc Hs) as (_ & Hs' & Hi).
  split; [reflexivity |]. split; [exact Hi |].
  intros Hst. now apply hasStage_regular.
Qed.

(** A session: the device info arrives, tap mode is switched on, a press at
    (100, 100) and a release at (100, 121); tap mode is switched off and a
    click at (100, 121) looks the element up. *)
Example session_requests :
  snd (run [DeviceInfoLoaded Scenario.pixel Scenario.page;
            FrameDecoded (mkSize 1080 2400);
            TapModeToggled;
            Pointer (MouseDown (Some (mkPoint 100 100)));
            Pointer (MouseUp (Some (mkPoint 100 121)));
            TapModeToggled;
            Pointer (Click (Some (mkPoint 100 121)))]
           (mount (Some "emulator-5554"%string) true))
  = [Swipe "emulator-5554" 300 300 300 363 300; Lookup 300 363].
Proof. vm_compute. reflexivity. Qed.

Example click_in_frame_pixels :
  handleClick (Some (mkPoint 100 121)) Scenario.selectCanvas = [Lookup 300 363].
Proof. reflexivity. Qed.

End GestureFacts.

(** ** The stream session *)
Module StreamFacts.
Import JS JSFacts Stream.
Local Open Scope string_scope.

(** C3.  A message that arrives on a socket whose serial is no longer the
    current serial changes nothing: the handler returns the state it was
    given (image, frame time stamp and object URLs included), whether it is
    called directly or through the event. *)
Theorem stale_message_dropped (s : State) (id : nat) (ws : WebSocket) (data : Frame)
    (now : number) :
  sockets s !! id = Some ws ->
  currentSerialRef s <> Some (ws_serial ws) ->
  onmessage id data now s = s /\ step (Message id data now) s = s.
Proof.
  intros Hws Hstale. apply strict_eq_false in Hstale.
  assert (onmessage id data now s = s) as H.
  { unfold onmessage. now rewrite Hws, Hstale. }
  split; [exact H | exact H].
Qed.

(** A message on the socket of the current serial is shown: it gets a new
    object URL, which becomes the image, and the previous URL is revoked. *)
Lemma current_message_shown (s : State) (id : nat) (ws : WebSocket) (data : Frame)
    (now : number) :
  sockets s !! id = Some ws ->
  currentSerialRef s = Some (ws_serial ws) ->
  let s' := onmessage id data now s in
  imageUrl s' = Some (length (blobs s)) /\ imageUrlRef s' = Some (length (blobs s)) /\
  blobs s' = (blobs s ++ [data])%list /\ frameRecvTsRef s' = now /\
  revoked s' = (revoked s ++ match imageUrlRef s with Some old => [old] | None => [] end)%list.
Proof.
  intros Hws Hcur. apply strict_eq_true in Hcur. cbv zeta.
  unfold onmessage. rewrite Hws, Hcur. simpl.
  destruct (imageUrlRef s); simpl; repeat split; now rewrite ?app_nil_r.
Qed.

(** [forceDisconnect] on a component that holds a socket leaves no current
    serial: every socket is stale afterwards. *)
Lemma forceDisconnect_invalidates (s : State) (ws : nat) :
  wsRef s = Some ws ->
  currentSerialRef (forceDisconnect s) = None /\ wsRef (forceDisconnect s) = None.
Proof.
  intros H. unfold forceDisconnect. rewrite H. unfold cleanupImageUrl. simpl.
  now destruct (imageUrlRef s).
Qed.

(** After the switch from A to B, a late frame on A's socket is dropped. *)
Lemma stale_message_dropped_witness :
  sockets Scenario.switchedToB !! 0%nat = Some (mkWebSocket "A" CLOSING []) /\
  currentSerialRef Scenario.switchedToB = Some "B" /\
  step (Message 0 Scenario.frame2 20) Scenario.switchedToB = Scenario.switchedToB.
Proof.
  split; [vm_compute; reflexivity |]. split; [vm_compute; reflexivity |].
  apply (stale_message_dropped Scenario.switchedToB 0 (mkWebSocket "A" CLOSING [])
           Scenario.frame2 20); [vm_compute; reflexivity | vm_compute; discriminate].
Defined.

(** After [forceDisconnect] alone, too; before it, the frame is shown. *)
Example frame_after_forceDisconnect :
  imageUrl (step (Message 0 Scenario.frame2 20) Scenario.streamingA) = Some 1%nat /\
  step (Message 0 Scenario.frame2 20) (forceDisconnect Scenario.streamingA)
  = forceDisconnect Scenario.streamingA.
Proof. split; vm_compute; reflexivity. Qed.

Lemma closing_not_closed ws :
  readyState ws <> CLOSED ->
  closing ws = mkWebSocket (ws_serial ws) CLOSING (closeListeners ws).
Proof. unfold closing. destruct ws as [sr [] ls]; simpl; congruence. Qed.

Lemma openNewWs_current serial s :
  currentSerialRef s = Some serial ->
  sockets (openNewWs serial s) = (sockets s ++ [mkWebSocket serial CONNECTING []])%list /\
  wsRef (openNewWs serial s) = Some (length (sockets s)) /\
  currentSerialRef (openNewWs serial s) = Some serial.
Proof.
  intros H. unfold openNewWs. apply strict_eq_true in H as H'. rewrite H'. simpl. auto.
Qed.

(** C2 fails as worded.  Device A streams on an open socket; the operator
    picks B.  [handleDeviceChange] force-disconnects, which clears [wsRef],
    so the effect finds no previous socket and creates B's socket at once:
    the two sockets exist side by side, A's still closing, and no close
    event has been delivered. *)
Lemma switch_opens_before_close :
  sockets Scenario.streamingA = [mkWebSocket "A" OPEN []] /\
  sockets Scenario.switchedToB
  = [mkWebSocket "A" CLOSING []; mkWebSocket "B" CONNECTING []] /\
  live Scenario.switchedToB
  = [mkWebSocket "A" CLOSING []; mkWebSocket "B" CONNECTING []] /\
  sockets (render (Some "B") Scenario.streamingA)
  = [mkWebSocket "A" CLOSING []; mkWebSocket "B" CONNECTING []].
Proof. split; [| split; [| split]]; vm_compute; reflexivity. Qed.

(** What the helpers leave alone. *)
Lemma cleanupImageUrl_keeps s :
  sockets (cleanupImageUrl s) = sockets s /\ wsRef (cleanupImageUrl s) = wsRef s /\
  currentSerialRef (cleanupImageUrl s) = currentSerialRef s /\
  deviceSerial (cleanupImageUrl s) = deviceSerial s.
Proof. unfold cleanupImageUrl. now destruct (imageUrlRef s). Qed.

Lemma onclose_keeps id wasClean s :
  wsRef s = None ->
  sockets (onclose id wasClean s) = sockets s /\ wsRef (onclose id wasClean s) = None /\
  currentSerialRef (onclose id wasClean s) = currentSerialRef s.
Proof.
  intros Href. unfold onclose. destruct (sockets s !! id) as [ws |]; [| now rewrite Href].
  rewrite Href. cbv zeta. simpl currentSerialRef.
  now destruct (strict_eq (currentSerialRef s) (ws_serial ws) && negb wasClean).
Qed.

(** The effect run for [B] that finds an unclosed socket in [wsRef]. *)
Lemma effect_waiting s B prev ws :
  wsRef s = Some prev -> sockets s !! prev = Some ws -> readyState ws <> CLOSED ->
  sockets (effect (Some B) s)
    = alter closing prev
        (alter (fun ws => mkWebSocket (ws_serial ws) (readyState ws)
                                      (closeListeners ws ++ [OnPrevClose B])%list)
               prev (sockets s)) /\
  wsRef (effect (Some B) s) = None /\
  currentSerialRef (effect (Some B) s) = Some B.
Proof.
  intros Href Hws Hopen.
  assert (Hnc : is_closed (readyState ws) = false)
    by (destruct (readyState ws) eqn:E; simpl; congruence).
  unfold effect. rewrite Href. simpl sockets. rewrite Hws, Hnc. simpl negb. cbv iota.
  destruct (cleanupImageUrl_keeps
              (setIsConnected false (set_wsRef None (set_currentSerialRef (Some B) s))))
    as (Hs & Hr & Hc & _).
  unfold ws_close, addEventListener. simpl. rewrite Hs, Hr, Hc. auto.
Qed.

(** The effect run for [B] that finds no socket, or a closed one. *)
Lemma effect_immediate s B :
  (wsRef s = None \/
   exists prev ws, wsRef s = Some prev /\ sockets s !! prev = Some ws /\
                   readyState ws = CLOSED) ->
  sockets (effect (Some B) s) = (sockets s ++ [mkWebSocket B CONNECTING []])%list /\
  wsRef (effect (Some B) s) = Some (length (sockets s)) /\
  currentSerialRef (effect (Some B) s) = Some B.
Proof.
  intros H. unfold effect.
  assert (Hopen : forall s', sockets s' = sockets s -> currentSerialRef s' = Some B ->
            sockets (openNewWs B s') = (sockets s ++ [mkWebSocket B CONNECTING []])%list /\
            wsRef (openNewWs B s') = Some (length (sockets s)) /\
            currentSerialRef (openNewWs B s') = Some B).
  { intros s' Hs' Hc'. destruct (openNewWs_current B s' Hc') as (-> & -> & ->).
    now rewrite Hs'. }
  destruct H as [-> | (prev & ws & -> & Hws & Hcl)].
  - now apply Hopen.
  - simpl sockets. rewrite Hws, Hcl. simpl. now apply Hopen.
Qed.

Lemma forceDisconnect_fields s prev :
  wsRef s = Some prev ->
  sockets (forceDisconnect s) = alter closing prev (sockets s) /\
  wsRef (forceDisconnect s) = None /\
  deviceSerial (forceDisconnect s) = deviceSerial s.
Proof.
  intros Href. unfold forceDisconnect. rewrite Href.
  match goal with |- context [cleanupImageUrl ?x] =>
    destruct (cleanupImageUrl_keeps x) as (-> & -> & _ & ->) end.
  auto.
Qed.

Lemma cleanup_without_socket s :
  wsRef s = None ->
  sockets (cleanup s) = sockets s /\ wsRef (cleanup s) = None.
Proof.
  intros Href. unfold cleanup. cbv zeta. simpl wsRef. rewrite Href.
  match goal with |- context [cleanupImageUrl ?x] =>
    destruct (cleanupImageUrl_keeps x) as (-> & -> & _) end.
  auto.
Qed.

(** A commit for another device, on a component that holds no socket,
    creates the socket of the new device at once. *)
Lemma render_without_socket s A B :
  deviceSerial s = Some A -> A <> B -> wsRef s = None ->
  sockets (render (Some B) s) = (sockets s ++ [mkWebSocket B CONNECTING []])%list /\
  wsRef (render (Some B) s) = Some (length (sockets s)).
Proof.
  intros Hdev Hne Href. unfold render. rewrite Hdev. simpl same_serial.
  apply String.eqb_neq in Hne. rewrite Hne.
  destruct (cleanup_without_socket s Href) as (Hs & Hr).
  destruct (effect_immediate (set_deviceSerial (Some B) (cleanup s)) B) as (H1 & H2 & _).
  { left. exact Hr. }
  rewrite H1, H2. simpl sockets. rewrite Hs. auto.
Qed.

(** C2, as the code has it.
    - When the effect runs for B while [wsRef] holds a socket that is not
      closed, no socket is created: the previous socket is asked to close
      and gets the listener; B's socket is created when the close event of
      the previous socket is delivered.
    - When [wsRef] is empty or holds a closed socket, the effect creates
      B's socket at once.
    - [handleDeviceChange] from A to another device B force-disconnects
      first, so B's socket is created at once, next to A's socket, which
      has been asked to close; [stopStream] is called for A. *)
Theorem effect_waits_only_for_wsRef (s : State) (B : string) :
  (forall prev ws,
     wsRef s = Some prev -> sockets s !! prev = Some ws ->
     readyState ws <> CLOSED -> closeListeners ws = [] ->
     let waiting := effect (Some B) s in
     length (sockets waiting) = length (sockets s) /\
     sockets waiting !! prev = Some (mkWebSocket (ws_serial ws) CLOSING [OnPrevClose B]) /\
     wsRef waiting = None /\
     forall wasClean,
       let acked := step (Closed prev wasClean) waiting in
       sockets acked !! prev = Some (mkWebSocket (ws_serial ws) CLOSED []) /\
       sockets acked !! length (sockets s) = Some (mkWebSocket B CONNECTING []) /\
       length (sockets acked) = S (length (sockets s)) /\
       wsRef acked = Some (length (sockets s))) /\
  ((wsRef s = None \/
    exists prev ws, wsRef s = Some prev /\ sockets s !! prev = Some ws /\
                    readyState ws = CLOSED) ->
     sockets (effect (Some B) s) = (sockets s ++ [mkWebSocket B CONNECTING []])%list /\
     wsRef (effect (Some B) s) = Some (length (sockets s))) /\
  (forall A prev ws,
     deviceSerial s = Some A -> A <> B ->
     wsRef s = Some prev -> sockets s !! prev = Some ws ->
     let switched := fst (handleDeviceChange B s) in
     sockets switched !! prev = Some (closing ws) /\
     sockets switched !! length (sockets s) = Some (mkWebSocket B CONNECTING []) /\
     wsRef switched = Some (length (sockets s)) /\
     snd (handleDeviceChange B s) = [A]).
Proof.
  split; [| split].
  - intros prev ws Href Hws Hopen Hls. cbv zeta.
    destruct (effect_waiting s B prev ws Href Hws Hopen) as (Hs & Hr & Hc).
    remember (effect (Some B) s) as waiting eqn:Ew. clear Ew.
    assert (Hprev : sockets waiting !! prev
                    = Some (mkWebSocket (ws_serial ws) CLOSING [OnPrevClose B])).
    { rewrite Hs, !list_lookup_alter_eq, Hws. simpl. rewrite Hls.
      rewrite closing_not_closed by exact Hopen. reflexivity. }
    assert (Hlen : length (sockets waiting) = length (sockets s))
      by (now rewrite Hs, !length_alter).
    split; [exact Hlen |]. split; [exact Hprev |]. split; [exact Hr |].
    intros wasClean. simpl step. unfold deliverClose. rewrite Hprev. simpl is_closed.
    cbv iota. simpl closeListeners. simpl fold_left.
    remember (set_readyState prev CLOSED waiting) as closed eqn:Ecl.
    assert (Hcr : wsRef closed = None) by (subst closed; exact Hr).
    assert (Hcs : sockets closed
                  = alter (fun ws => mkWebSocket (ws_serial ws) CLOSED (closeListeners ws))
                          prev (sockets waiting)) by (subst closed; reflexivity).
    assert (Hcc : currentSerialRef closed = Some B) by (subst closed; exact Hc).
    clear Ecl.
    destruct (onclose_keeps prev wasClean closed Hcr) as (Hs' & Hr' & Hc').
    remember (onclose prev wasClean closed) as after eqn:Ea. clear Ea.
    unfold onPrevClose.
    destruct (openNewWs_current B (clearListeners prev after)) as (Hs2 & Hr2 & _).
    { simpl. rewrite Hc'. exact Hcc. }
    rewrite Hs2, Hr2. simpl sockets. rewrite Hs', Hcs.
    rewrite length_app, !length_alter, Hlen. simpl length.
    split; [| split; [| split]].
    + rewrite lookup_app_l by (rewrite !length_alter, Hlen; eapply lookup_lt_Some; eassumption).
      rewrite !list_lookup_alter_eq, Hprev. reflexivity.
    + apply list_lookup_middle. now rewrite !length_alter.
    + lia.
    + reflexivity.
  - intros H. destruct (effect_immediate s B H) as (? & ? & _). auto.
  - intros A prev ws Hdev Hne Href Hws. cbv zeta.
    unfold handleDeviceChange. rewrite Hdev.
    apply String.eqb_neq in Hne. rewrite Hne. simpl negb. cbv iota. simpl fst. simpl snd.
    destruct (forceDisconnect_fields s prev Href) as (Hs & Hr & Hd).
    destruct (render_without_socket (forceDisconnect s) A B) as (Hs2 & Hr2);
      [now rewrite Hd | now apply String.eqb_neq | exact Hr |].
    assert (Hlt : (prev < length (sockets s))%nat) by (eapply lookup_lt_Some; eassumption).
    rewrite Hs2, Hr2, Hs, length_alter.
    split; [| split; [| split]].
    + rewrite lookup_app_l by now rewrite length_alter.
      now rewrite list_lookup_alter_eq, Hws.
    + apply list_lookup_middle. now rewrite length_alter.
    + reflexivity.
    + reflexivity.
Qed.

(** The three cases on the scenario: the effect run for B on the streaming
    component itself (no force-disconnect, no cleanup) waits for the close
    of A's socket; the operator's switch does not. *)
Lemma effect_waits_only_for_wsRef_witness :
  sockets (effect (Some "B") Scenario.streamingA) !! 0%nat
    = Some (mkWebSocket "A" CLOSING [OnPrevClose "B"]) /\
  length (sockets (effect (Some "B") Scenario.streamingA)) = 1%nat /\
  sockets (step (Closed 0 true) (effect (Some "B") Scenario.streamingA)) !! 1%nat
    = Some (mkWebSocket "B" CONNECTING []) /\
  sockets (effect (Some "B") initial) = [mkWebSocket "B" CONNECTING []] /\
  sockets Scenario.switchedToB !! 1%nat = Some (mkWebSocket "B" CONNECTING []) /\
  sockets Scenario.switchedToB !! 0%nat = Some (mkWebSocket "A" CLOSING []).
Proof.
  destruct (effect_waits_only_for_wsRef Scenario.streamingA "B") as (Hwait & _ & Hswitch).
  destruct (effect_waits_only_for_wsRef initial "B") as (_ & Hnow & _).
  destruct (Hwait 0%nat (mkWebSocket "A" OPEN [])) as (Hlen & Hprev & _ & Hack);
    [vm_compute; reflexivity | vm_compute; reflexivity | discriminate | reflexivity |].
  destruct (Hack true) as (_ & Hnew & _).
  destruct (Hnow (or_introl eq_refl)) as (Hinit & _).
  destruct (Hswitch "A" 0%nat (mkWebSocket "A" OPEN [])) as (Hold & HB & _);
    [vm_compute; reflexivity | discriminate | vm_compute; reflexivity
    | vm_compute; reflexivity |].
  split; [exact Hprev |]. split; [exact Hlen |]. split; [exact Hnew |].
  split; [exact Hinit |]. split; [exact HB | exact Hold].
Defined.

End StreamFacts.


(* ================================================================== *)
(** * Part III: further properties of the code *)
(* ================================================================== *)

(** ** Coordinate reconciliation: conversions, canvas size, extent *)
Module ReconcilerExtra.
Import JS JSFacts Reconciler TreeFacts ReconcilerFacts.

Lemma Math_round_proper a b : a == b -> Math_round a = Math_round b.
Proof. intros H. unfold Math_round. now rewrite H. Qed.

Lemma Math_round_inject z : Math_round (inject_Z z) = inject_Z z.
Proof.
  unfold Math_round. f_equal.
  pose proof (Qfloor_le (inject_Z z + (1 # 2))) as Hle.
  pose proof (Qlt_floor (inject_Z z + (1 # 2))) as Hlt.
  rewrite inject_Z_plus in Hlt. change (inject_Z 1) with 1 in Hlt.
  assert (H1 : inject_Z (Qfloor (inject_Z z + (1 # 2))) < inject_Z (z + 1)).
  { rewrite inject_Z_plus. change (inject_Z 1) with 1. Lqa.lra. }
  assert (H2 : inject_Z z < inject_Z (Qfloor (inject_Z z + (1 # 2)) + 1)).
  { rewrite inject_Z_plus. change (inject_Z 1) with 1. Lqa.lra. }
  rewrite <- Zlt_Qlt in H1, H2. lia.
Qed.

Lemma Math_round_mono a b : a <= b -> Math_round a <= Math_round b.
Proof.
  intros H. unfold Math_round. rewrite <- Zle_Qle. apply Qfloor_resp_le. Lqa.lra.
Qed.

Lemma Math_round_integer_id q : is_integer q -> Math_round q = q.
Proof. intros [z ->]. apply Math_round_inject. Qed.



Lemma preorder_trans t : forall n m,
  In n (preorder t) -> In m (preorder n) -> In m (preorder t).
Proof.
  induction t as [tg a cs IH] using HierarchyNode_nested_ind. intros n m Hn Hm.
  simpl in Hn. destruct Hn as [<- | Hn]; [exact Hm |].
  simpl. right. apply in_flat_map in Hn. destruct Hn as (c & Hc & Hn).
  apply in_flat_map. exists c. split; [exact Hc |].
  rewrite List.Forall_forall in IH. now apply (IH c Hc n).
Qed.

Lemma estimate_nonneg t :
  0 <= maxRight (estimateHierarchyBounds t) /\ 0 <= maxBottom (estimateHierarchyBounds t).
Proof.
  unfold estimateHierarchyBounds. rewrite walk_preorder.
  apply (fold_visit_mono (preorder t) (mkExtent 0 0)).
Qed.

(** A node that has no bounds, or bounds whose width or height is not
    positive, leaves the running maxima as they are. *)
Lemma visit_unsized e m :
  (forall b, bounds_computed (attributes m) = Some b -> w b <= 0 \/ h b <= 0) ->
  visit e m = e.
Proof.
  intros H. unfold visit. destruct (bounds_computed (attributes m)) as [b |]; [| reflexivity].
  destruct (H b eq_refl) as [Hw | Hh].
  - apply gtb_le in Hw. now rewrite Hw.
  - apply gtb_le in Hh. rewrite Hh. now rewrite andb_false_r.
Qed.

Lemma fold_visit_unsized l : forall e,
  (forall m b, In m l -> bounds_computed (attributes m) = Some b -> w b <= 0 \/ h b <= 0) ->
  fold_left visit l e = e.
Proof.
  induction l as [| m l IHl]; intros e Hnone; [reflexivity |].
  simpl. rewrite visit_unsized by (intros b; apply Hnone; now left).
  apply IHl. intros k b Hk. apply Hnone. now right.
Qed.

(** X3.  The extent of a hierarchy is never negative, it is at least the
    extent of the subtree of each of its nodes, and it is (0, 0) when no
    node has bounds of positive width and height: bounds whose width or
    height is zero or negative count for nothing, wherever they lie. *)
Theorem extent_bounds_subtrees (t n : HierarchyNode) :
  In n (preorder t) ->
  let e := estimateHierarchyBounds t in
  let en := estimateHierarchyBounds n in
  (0 <= maxRight e /\ 0 <= maxBottom e) /\
  (maxRight en <= maxRight e /\ maxBottom en <= maxBottom e) /\
  ((forall m b, In m (preorder t) -> bounds_computed (attributes m) = Some b ->
      w b <= 0 \/ h b <= 0) ->
   e = mkExtent 0 0).
Proof.
  intros Hn. cbv zeta. split; [apply estimate_nonneg |]. split; [split |].
  - destruct (Qlt_le_dec 0 (maxRight (estimateHierarchyBounds n))) as [Hpos | Hle].
    + destruct (estimate_right_attained n Hpos) as (m & b & Hm & Hs & ->).
      apply (estimate_upper_bound t m b); [now apply (preorder_trans t n) | exact Hs].
    + eapply Qle_trans; [exact Hle | apply estimate_nonneg].
  - destruct (Qlt_le_dec 0 (maxBottom (estimateHierarchyBounds n))) as [Hpos | Hle].
    + destruct (estimate_bottom_attained n Hpos) as (m & b & Hm & Hs & ->).
      apply (estimate_upper_bound t m b); [now apply (preorder_trans t n) | exact Hs].
    + eapply Qle_trans; [exact Hle | apply estimate_nonneg].
  - intros Hnone. unfold estimateHierarchyBounds. rewrite walk_preorder.
    now apply fold_visit_unsized.
Qed.

(** A hierarchy whose only bounds have a width of zero, 500 to the right of
    the origin: its extent is (0, 0). *)
Example extent_of_flat_bounds :
  estimateHierarchyBounds
    (Node "hierarchy"
       (mkAttrs None None None None None None None None (Some (mkBounds 500 0 0 80))) [])
  = mkExtent 0 0.
Proof. vm_compute. reflexivity. Qed.

(** The button inside the pixel tree: its extent is (300, 280), that of the
    tree (1170, 2532). *)
Lemma extent_bounds_subtrees_witness :
  maxRight (estimateHierarchyBounds
              (Node "XCUIElementTypeButton"
                 (mkAttrs None None None None None None None None
                    (Some (mkBounds 100 200 200 80))) []))
  <= maxRight (estimateHierarchyBounds Scenario.pixelTree).
Proof.
  refine (proj1 (proj1 (proj2 (extent_bounds_subtrees Scenario.pixelTree _ _)))).
  simpl. right. left. reflexivity.
Defined.

End ReconcilerExtra.

(** ** Extraction: labels and colours of the overlays *)
Module ExtractorExtra.
Import JS JSFacts Extractor TreeFacts ExtractorFacts.
Local Open Scope string_scope.

Lemma length_append s1 s2 :
  String.length (s1 ++ s2) = (String.length s1 + String.length s2)%nat.
Proof. induction s1 as [| c s1 IH]; simpl; [reflexivity | now rewrite IH]. Qed.

Lemma length_substring_0 n : forall s,
  String.length (substring 0 n s) = Nat.min n (String.length s).
Proof.
  induction n as [| n IH]; intros [| c s]; simpl; try reflexivity.
  now rewrite IH.
Qed.

(** A truncated label has at most 20 characters, and keeps the first 17
    characters of a label that was cut. *)
Lemma length_truncate s : (String.length (truncate s) <= 20)%nat.
Proof.
  unfold truncate. destruct (nonempty s) eqn:Hn; simpl.
  - destruct (20 <? String.length s)%nat eqn:E.
    + rewrite length_append, length_substring_0.
      change (String.length "...") with 3%nat. apply Nat.ltb_lt in E. lia.
    + apply Nat.ltb_ge in E. exact E.
  - destruct s; [simpl; lia | discriminate Hn].
Qed.

Lemma colorOf_palette attrs :
  In (colorOf attrs) ["#52c41a"; "#faad14"; "#13c2c2"; "#1890ff"].
Proof.
  unfold colorOf.
  destruct (strict_eq (clickable attrs) "true"); [now left |].
  destruct (strict_eq (scrollable attrs) "true"); [right; now left |].
  destruct (strict_eq (long_clickable attrs) "true"); [right; right; now left |].
  right; right; right; now left.
Qed.

Lemma labelOf_short_or_tag n :
  (String.length (labelOf n) <= 20)%nat \/ labelOf n = last_segment "." (tag n).
Proof.
  unfold labelOf. cbv zeta.
  match goal with |- context [nonempty (truncate ?l)] =>
    destruct (nonempty (truncate l)); [left; apply length_truncate | right; reflexivity] end.
Qed.

Lemma entries_length l : (length (entries l) <= length l)%nat.
Proof.
  unfold entries. induction l as [| n l IH]; simpl; [lia |].
  rewrite length_app. destruct (entryOf n); simpl; lia.
Qed.

(** X4.  Every overlay that the extractor returns belongs to a node of the
    hierarchy; its label has at most 20 characters unless it is the last
    dotted segment of that node's tag; its colour is one of green, orange,
    cyan and blue, green exactly when the node is clickable; and there
    are never more overlays than nodes. *)
Theorem overlays_labels_and_colours (t : HierarchyNode) :
  (forall e, In e (extractElementBounds t) ->
     exists n, In n (preorder t) /\
       ((String.length (label e) <= 20)%nat \/ label e = last_segment "." (tag n)) /\
       In (color e) ["#52c41a"; "#faad14"; "#13c2c2"; "#1890ff"] /\
       (color e = "#52c41a" <-> clickable (attributes n) = Some "true")) /\
  (length (extractElementBounds t) <= length (preorder t))%nat.
Proof.
  assert (Hext : extractElementBounds t = entries (preorder t))
    by (unfold extractElementBounds; now rewrite traverse_preorder).
  rewrite Hext. split.
  - intros e He. unfold entries in He. apply in_flat_map in He.
    destruct He as (n & Hn & He). exists n. split; [exact Hn |].
    destruct (entryOf n) as [e' |] eqn:E; [| destruct He].
    destruct He as [<- | []]. apply entryOf_spec in E.
    destruct E as (_ & b & _ & _ & _ & _ & ->). simpl.
    split; [apply labelOf_short_or_tag |]. split; [apply colorOf_palette |].
    unfold colorOf. rewrite <- strict_eq_true.
    destruct (strict_eq (clickable (attributes n)) "true"); [tauto |].
    destruct (strict_eq (scrollable (attributes n)) "true"); [split; discriminate |].
    destruct (strict_eq (long_clickable (attributes n)) "true"); split; discriminate.
  - apply entries_length.
Qed.

End ExtractorExtra.

(** ** Pointer handling: preview, press and release, modes, hit test *)
Module GestureExtra.
Import JS JSFacts Reconciler Gesture GestureFacts ReconcilerExtra.
#[local] Opaque beyondThreshold.

(** X5.  A pointer-move at [pos] always sets the coordinate readout to the
    device point of [pos] and never touches the pending gesture.  In tap
    mode with a pending gesture it sets the swipe arrow from the start to
    [pos] when the distance that the handler computes,
    [Math.sqrt(dx * dx + dy * dy)], is above 20, which it is when the
    Euclidean distance is at least [20 + 2^-43]; in every other case it
    leaves the arrow as it was (the handler has no else branch), so an arrow
    that was shown stays when the pointer comes back within 20 of the
    start. *)
Theorem handleMouseMove_preview (c : Canvas) (pos : Point) :
  let moved := handleMouseMove (Some pos) c in
  let dc := canvasToDevice (deviceInfo c) (scale c) (p_x pos) (p_y pos) in
  coordinate moved = Some (mkCoordinate (p_x dc) (p_y dc) (p_x pos) (p_y pos)) /\
  tapStartRef moved = tapStartRef c /\
  (forall start, tapMode c = true -> tapStartRef c = Some start ->
     let arrow := mkArrow (ts_canvasX start) (ts_canvasY start) (p_x pos) (p_y pos) in
     (20 < dist pos start -> swipeArrow moved = Some arrow) /\
     (dist pos start <= 20 -> swipeArrow moved = swipeArrow c) /\
     ((Q2R (20 + rounding_margin) <= distance pos start)%R ->
        swipeArrow moved = Some arrow) /\
     ((distance pos start <= Q2R (20 - rounding_margin))%R ->
        swipeArrow moved = swipeArrow c)) /\
  (tapMode c = false \/ tapStartRef c = None -> swipeArrow moved = swipeArrow c).
Proof.
  cbv zeta. split; [| split; [apply handleMouseMove_tapStartRef | split]].
  - unfold handleMouseMove. cbv zeta. simpl tapMode. simpl tapStartRef.
    destruct (tapMode c); [| reflexivity].
    destruct (tapStartRef c) as [start |]; [| reflexivity].
    now destruct (beyondThreshold pos start).
  - intros start Hm Hs. unfold handleMouseMove. cbv zeta. simpl tapMode. simpl tapStartRef.
    rewrite Hm, Hs. destruct (dist_margin_distance pos start) as [Hnear Hfar].
    destruct (beyondThreshold pos start) eqn:E.
    + apply beyondThreshold_dist in E.
      assert (Hno : dist pos start <= 20 -> False) by (intros H; exact (Qlt_not_le _ _ E H)).
      split; [reflexivity |]. split; [intros H; now apply Hno in H |].
      split; [reflexivity |]. intros H. apply Hnear in H. now apply Hno in H.
    + apply within_threshold_dist in E.
      assert (Hno : 20 < dist pos start -> False) by (intros H; exact (Qlt_not_le _ _ H E)).
      split; [intros H; now apply Hno in H |]. split; [reflexivity |].
      split; [intros H; apply Hfar in H; now apply Hno in H | reflexivity].
  - intros H. unfold handleMouseMove. cbv zeta. simpl tapMode. simpl tapStartRef.
    destruct H as [-> | ->]; [reflexivity | now destruct (tapMode c)].
Qed.

(** A drag of 60 shows the arrow; coming back to 10 from the start keeps it. *)
Lemma handleMouseMove_preview_witness :
  swipeArrow (handleMouseMove (Some (mkPoint 160 100)) Scenario.pressed)
    = Some (mkArrow 100 100 160 100) /\
  swipeArrow (handleMouseMove (Some (mkPoint 110 100))
                (handleMouseMove (Some (mkPoint 160 100)) Scenario.pressed))
    = Some (mkArrow 100 100 160 100).
Proof.
  pose (start := mkTapStart 300 300 100 100).
  destruct (handleMouseMove_preview Scenario.pressed (mkPoint 160 100)) as (_ & _ & H1 & _).
  destruct (handleMouseMove_preview
              (handleMouseMove (Some (mkPoint 160 100)) Scenario.pressed) (mkPoint 110 100))
    as (_ & _ & H2 & _).
  destruct (H1 start eq_refl eq_refl) as (Hfar & _).
  destruct (H2 start eq_refl eq_refl) as (_ & Hnear & _).
  assert (E1 : swipeArrow (handleMouseMove (Some (mkPoint 160 100)) Scenario.pressed)
               = Some (mkArrow 100 100 160 100)).
  { apply Hfar. vm_compute. reflexivity. }
  split; [exact E1 |]. rewrite Hnear; [exact E1 |].
  apply Qle_bool_iff. vm_compute. reflexivity.
Defined.

(** Nothing is at distance 0 from itself. *)
Lemma dist_same (p : Point) (start : TapStart) :
  ts_canvasX start = p_x p -> ts_canvasY start = p_y p -> dist p start = 0.
Proof.
  intros Hx Hy. unfold dist, sub. cbv zeta. rewrite Hx, Hy.
  rewrite !double_zero by ring. vm_compute. reflexivity.
Qed.

(** X6.  In tap mode, with a device selected, a press at [p0] followed by a
    release at [p1] sends exactly one request: a tap at the device point of
    the press when the distance that the release computes between the two
    points, [Math.sqrt(dx * dx + dy * dy)], is at most 20 (in particular
    when the release is at the point of the press, and whenever the
    Euclidean distance is at most [20 - 2^-43]), and otherwise a swipe of
    300 ms from the device point of the press to that of the release (in
    particular whenever the Euclidean distance is at least [20 + 2^-43]).
    Afterwards no gesture is pending. *)
Theorem press_then_release (c : Canvas) (p0 p1 : Point) (serial : string) :
  tapMode c = true -> deviceSerial c = Some serial ->
  let from := canvasToDevice (deviceInfo c) (scale c) (p_x p0) (p_y p0) in
  let to := canvasToDevice (deviceInfo c) (scale c) (p_x p1) (p_y p1) in
  let start := mkTapStart (p_x from) (p_y from) (p_x p0) (p_y p0) in
  let r := handleMouseUp (Some p1) (handleMouseDown (Some p0) c) in
  let tap := [Tap serial (p_x from) (p_y from)] in
  let swipe := [Swipe serial (p_x from) (p_y from) (p_x to) (p_y to) 300] in
  tapStartRef (handleMouseDown (Some p0) c) = Some start /\
  (dist p1 start <= 20 -> snd r = tap) /\
  (20 < dist p1 start -> snd r = swipe) /\
  (p1 = p0 -> snd r = tap) /\
  ((distance p1 start <= Q2R (20 - rounding_margin))%R -> snd r = tap) /\
  ((Q2R (20 + rounding_margin) <= distance p1 start)%R -> snd r = swipe) /\
  tapStartRef (fst r) = None /\ swipeArrow (fst r) = None.
Proof.
  intros Hm Hd. cbv zeta.
  set (start := mkTapStart (p_x (canvasToDevice (deviceInfo c) (scale c) (p_x p0) (p_y p0)))
                           (p_y (canvasToDevice (deviceInfo c) (scale c) (p_x p0) (p_y p0)))
                           (p_x p0) (p_y p0)).
  assert (Hup : handleMouseUp (Some p1) (handleMouseDown (Some p0) c)
    = (setSwipeArrow None (set_tapStartRef None (handleMouseDown (Some p0) c)),
       if beyondThreshold p1 start
       then [Swipe serial (ts_x start) (ts_y start)
               (p_x (canvasToDevice (deviceInfo c) (scale c) (p_x p1) (p_y p1)))
               (p_y (canvasToDevice (deviceInfo c) (scale c) (p_x p1) (p_y p1))) 300]
       else [Tap serial (ts_x start) (ts_y start)])).
  { unfold handleMouseUp, handleMouseDown. rewrite Hm. simpl. rewrite Hm, Hd.
    fold start. now destruct (beyondThreshold p1 start). }
  rewrite Hup. simpl fst. simpl snd.
  destruct (dist_margin_distance p1 start) as [Hnear Hfar].
  assert (Htap : dist p1 start <= 20 -> beyondThreshold p1 start = false)
    by apply within_threshold_dist.
  assert (Hswipe : 20 < dist p1 start -> beyondThreshold p1 start = true)
    by apply beyondThreshold_dist.
  split; [now apply handleMouseDown_captures |].
  split; [intros H; now rewrite (Htap H) |].
  split; [intros H; now rewrite (Hswipe H) |].
  split; [| split; [| split; [| split; reflexivity]]].
  - intros ->. assert (E : beyondThreshold p0 start = false).
    { apply within_threshold_dist. rewrite (dist_same p0 start) by reflexivity.
      discriminate. }
    now rewrite E.
  - intros H. now rewrite (Htap (Hnear H)).
  - intros H. now rewrite (Hswipe (Hfar H)).
Qed.

(** A press and a release at the canvas point (100, 100). *)
Lemma press_then_release_witness :
  snd (handleMouseUp (Some (mkPoint 100 100))
         (handleMouseDown (Some (mkPoint 100 100)) Scenario.tapCanvas))
  = [Tap "emulator-5554" 300 300].
Proof.
  destruct (press_then_release Scenario.tapCanvas (mkPoint 100 100) (mkPoint 100 100)
              "emulator-5554" eq_refl eq_refl) as (_ & _ & _ & Hsame & _).
  apply Hsame. reflexivity.
Defined.

(** X7.  The two modes never mix: in tap mode a click sends no lookup;
    outside tap mode a press captures nothing and a release sends nothing
    and changes nothing; so no pointer event pair ever sends both a lookup
    and a tap or swipe. *)
Theorem modes_are_exclusive (c : Canvas) (p q : option Point) :
  (tapMode c = true -> handleClick p c = []) /\
  (tapMode c = false -> handleMouseDown p c = c /\ handleMouseUp q c = (c, [])) /\
  (snd (handleMouseUp q c) = [] \/ handleClick p c = []).
Proof.
  unfold handleClick, handleMouseDown, handleMouseUp.
  destruct (tapMode c); simpl.
  - split; [reflexivity |]. split; [discriminate | now right].
  - split; [discriminate |]. split; [now split | now left].
Qed.

Lemma scaled_within (p f c : number) :
  0 < c -> 0 <= f -> 0 <= p -> p <= c -> 0 <= p * f / c /\ p * f / c <= f.
Proof.
  intros Hc Hf Hp Hpc. split.
  - apply Qle_shift_div_l; [exact Hc |]. rewrite Qmult_0_l. now apply Qmult_le_0_compat.
  - apply Qle_shift_div_r; [exact Hc |]. rewrite (Qmult_comm f c).
    now apply Qmult_le_compat_r.
Qed.

(** X8.  A click in select mode, once a frame has been decoded, on a
    pointer position inside the canvas: the lookup is requested at a point
    inside the frame, [0 <= x <= frame.width] and [0 <= y <= frame.height]
    (the frame dimensions being whole numbers). *)
Theorem click_lookup_within_frame (c : Canvas) (pos : Point) (d : DeviceInfo) :
  tapMode c = false -> onTap c = true -> deviceInfo c = Some d ->
  0 < s_width (frameSize c) -> 0 < s_height (frameSize c) ->
  is_integer (s_width (frameSize c)) -> is_integer (s_height (frameSize c)) ->
  0 < s_width (canvasSize c) -> 0 < s_height (canvasSize c) ->
  0 <= p_x pos -> p_x pos <= s_width (canvasSize c) ->
  0 <= p_y pos -> p_y pos <= s_height (canvasSize c) ->
  exists hx hy,
    handleClick (Some pos) c = [Lookup hx hy] /\
    (0 <= hx /\ hx <= s_width (frameSize c)) /\
    (0 <= hy /\ hy <= s_height (frameSize c)).
Proof.
  intros Hm Ht Hd Hfw Hfh Hiw Hih Hcw Hch Hx0 Hx1 Hy0 Hy1.
  unfold handleClick. rewrite Hm, Ht, Hd.
  apply gtb_gt in Hfw as Bfw. apply gtb_gt in Hcw as Bcw. rewrite Bfw, Bcw. simpl andb.
  cbv iota.
  destruct (scaled_within (p_x pos) (s_width (frameSize c)) (s_width (canvasSize c)))
    as [Hx2 Hx3]; try assumption; [now apply Qlt_le_weak |].
  destruct (scaled_within (p_y pos) (s_height (frameSize c)) (s_height (canvasSize c)))
    as [Hy2 Hy3]; try assumption; [now apply Qlt_le_weak |].
  assert (Hlow : forall q, 0 <= q -> 0 <= Math_round q).
  { intros q Hq. change (Math_round (inject_Z 0) <= Math_round q). now apply Math_round_mono. }
  assert (Hhigh : forall q f, is_integer f -> q <= f -> Math_round q <= f).
  { intros q f Hi Hq. rewrite <- (Math_round_integer_id f Hi). now apply Math_round_mono. }
  eexists _, _. split; [reflexivity |].
  split; (split; [now apply Hlow | now apply Hhigh]).
Qed.

(** A click at (100, 121) on the canvas of 360 x 800 showing a frame of
    1080 x 2400. *)
Lemma click_lookup_within_frame_witness :
  exists hx hy,
    handleClick (Some (mkPoint 100 121)) Scenario.selectCanvas = [Lookup hx hy] /\
    (0 <= hx /\ hx <= 1080) /\ (0 <= hy /\ hy <= 2400).
Proof.
  apply (click_lookup_within_frame Scenario.selectCanvas (mkPoint 100 121) Scenario.pixel);
    try reflexivity; try discriminate; [now exists 1080%Z | now exists 2400%Z].
Defined.

End GestureExtra.

(** ** The stream session: disconnects, reconnects, object URLs, refs *)
Module StreamExtra.
Import JS JSFacts Stream StreamFacts StreamInvariants.
Local Open Scope string_scope.

(** X9.  [forceDisconnect] is idempotent: a second call changes nothing. *)
Theorem forceDisconnect_idempotent (s : State) :
  forceDisconnect (forceDisconnect s) = forceDisconnect s.
Proof.
  unfold forceDisconnect, cleanupImageUrl.
  destruct s as [dev socks [id |] cur [url |] img ts conn load bl rev tm]; reflexivity.
Qed.

(** *** Object URLs *)

Lemma urls_accounted_ext s s' : urls s' = urls s -> urls_accounted s -> urls_accounted s'.
Proof.
  unfold urls, urls_accounted. intros H. injection H as Hi Hr Hb Hv.
  now rewrite Hi, Hr, Hb, Hv.
Qed.

Lemma cleanupImageUrl_accounted s : urls_accounted s -> urls_accounted (cleanupImageUrl s).
Proof.
  unfold urls_accounted, cleanupImageUrl. intros (Hi & H).
  destruct (imageUrlRef s) as [url |] eqn:Hr; simpl; [| now rewrite Hr].
  split; [reflexivity |]. left. split; [reflexivity |].
  destruct H as [(Hn & _) | (n & Hl & Hn & Hv)]; [discriminate |].
  injection Hn as ->. now rewrite Hl, Hv, seq_S.
Qed.

Lemma onmessage_accounted id data now s :
  urls_accounted s -> urls_accounted (onmessage id data now s).
Proof.
  unfold onmessage. intros Ha.
  destruct (sockets s !! id) as [ws |]; [| exact Ha].
  destruct (negb (strict_eq (currentSerialRef s) (ws_serial ws))); [exact Ha |].
  destruct Ha as (Hi & H). unfold urls_accounted. cbv zeta. simpl imageUrlRef.
  destruct (imageUrlRef s) as [old |] eqn:Hr; simpl; rewrite length_app; simpl;
    (split; [reflexivity |]); right; exists (length (blobs s)).
  - destruct H as [(Hn & _) | (n & Hl & Hn & Hv)]; [discriminate |].
    injection Hn as ->. rewrite Hv, Hl, seq_S. split; [lia | auto].
  - destruct H as [(_ & Hv) | (n & _ & Hn & _)]; [| discriminate].
    split; [lia | auto].
Qed.

Lemma openNewWs_urls serial s : urls (openNewWs serial s) = urls s.
Proof. unfold openNewWs. now destruct (negb _). Qed.

Lemma onclose_urls id wasClean s : urls (onclose id wasClean s) = urls s.
Proof.
  unfold onclose. destruct (sockets s !! id) as [ws |]; [| reflexivity]. cbv zeta.
  destruct (wsRef s) as [cur |]; [destruct (Nat.eqb cur id) |];
    match goal with |- context [if ?b then _ else _] => destruct b end; reflexivity.
Qed.

Lemma listeners_urls id ls s :
  urls (fold_left (fun acc l => let 'OnPrevClose serial := l in onPrevClose id serial acc) ls s)
  = urls s.
Proof.
  revert s. induction ls as [| [serial] ls IH]; intros s; [reflexivity |].
  simpl fold_left. rewrite IH. unfold onPrevClose. now rewrite openNewWs_urls.
Qed.

Lemma cleanup_accounted s : urls_accounted s -> urls_accounted (cleanup s).
Proof.
  intros Ha. unfold cleanup. cbv zeta. apply cleanupImageUrl_accounted.
  apply (urls_accounted_ext s); [| exact Ha]. simpl wsRef. now destruct (wsRef s).
Qed.

Lemma effect_accounted serial s : urls_accounted s -> urls_accounted (effect serial s).
Proof.
  intros Ha. unfold effect. destruct serial as [serial |].
  - cbv zeta.
    set (s1 := setIsConnected false (set_wsRef None (set_currentSerialRef (Some serial) s))).
    assert (H1 : urls_accounted s1) by (apply (urls_accounted_ext s); [reflexivity | exact Ha]).
    assert (Hopen : urls_accounted (openNewWs serial s1))
      by (apply (urls_accounted_ext s1); [apply openNewWs_urls | exact H1]).
    destruct (wsRef s) as [prev |]; [| exact Hopen].
    destruct (sockets s1 !! prev) as [ws |]; [| exact Hopen].
    destruct (negb (is_closed (readyState ws))); [| exact Hopen].
    apply (urls_accounted_ext (cleanupImageUrl s1)); [reflexivity |].
    now apply cleanupImageUrl_accounted.
  - cbv zeta. apply cleanupImageUrl_accounted.
    apply (urls_accounted_ext s); [| exact Ha]. now destruct (wsRef s).
Qed.

Lemma forceDisconnect_accounted s : urls_accounted s -> urls_accounted (forceDisconnect s).
Proof.
  intros Ha. unfold forceDisconnect. cbv zeta. apply cleanupImageUrl_accounted.
  apply (urls_accounted_ext s); [| exact Ha]. now destruct (wsRef s).
Qed.

Lemma step_accounted e s : urls_accounted s -> urls_accounted (step e s).
Proof.
  intros Ha. destruct e as [id | id data now | id | id wasClean | | serial |]; simpl step.
  - destruct (sockets s !! id) as [ws |] eqn:Hws; [| exact Ha].
    destruct (readyState ws); try exact Ha.
    apply (urls_accounted_ext s); [| exact Ha].
    unfold onopen. destruct (sockets (set_readyState id OPEN s) !! id) as [ws' |];
      [| reflexivity].
    now destruct (negb _).
  - now apply onmessage_accounted.
  - exact Ha.
  - unfold deliverClose. destruct (sockets s !! id) as [ws |]; [| exact Ha].
    destruct (is_closed (readyState ws)); [exact Ha |]. cbv zeta.
    apply (urls_accounted_ext s); [| exact Ha].
    now rewrite listeners_urls, onclose_urls.
  - destruct (timers s) as [| serial rest]; [exact Ha |].
    apply (urls_accounted_ext s); [| exact Ha].
    unfold onTimeout. destruct (strict_eq _ _); [| reflexivity]. now rewrite openNewWs_urls.
  - unfold render. destruct (same_serial (deviceSerial s) serial); [exact Ha |]. cbv zeta.
    apply effect_accounted.
    destruct (deviceSerial s); [| exact Ha].
    apply (urls_accounted_ext (cleanup s)); [reflexivity |]. now apply cleanup_accounted.
  - now apply forceDisconnect_accounted.
Qed.

(** X10.  The object URLs are accounted for in every run of the component:
    whatever the sockets, the timers, the commits and the parent do, the
    image shown is the URL in [imageUrlRef], and every URL that was created
    has been revoked exactly once, in the order of creation, except the
    last one while it is the image shown. *)
Theorem object_urls_accounted (es : list Event) : urls_accounted (run es initial).
Proof.
  assert (H : forall s, urls_accounted s -> urls_accounted (run es s)).
  { unfold run. induction es as [| e es IH]; intros s Hs; [exact Hs |].
    simpl. apply IH. now apply step_accounted. }
  apply H. split; [reflexivity |]. left. split; reflexivity.
Qed.

(** *** The refs *)

Lemma coherent_same s s' :
  coherent s -> sockets s' = sockets s ->
  wsRef s' = None \/ (wsRef s' = wsRef s /\ currentSerialRef s' = currentSerialRef s) ->
  currentSerialRef s' = None \/ currentSerialRef s' = deviceSerial s' ->
  coherent s'.
Proof.
  intros (HL & HH & HD) Hs Hr Hd. split; [| split].
  - rewrite Hs. exact HL.
  - intros id Hid. destruct Hr as [Hr | (Hr & Hc)]; [congruence |].
    rewrite Hs, Hc. apply HH. congruence.
  - exact Hd.
Qed.

Lemma coherent_alter s s' f id :
  coherent s -> sockets s' = alter f id (sockets s) ->
  (forall ws, ws_serial (f ws) = ws_serial ws) ->
  (forall ws, closeListeners (f ws) = closeListeners ws) ->
  wsRef s' = None \/
    (wsRef s' = wsRef s /\ currentSerialRef s' = currentSerialRef s /\
     (wsRef s = Some id -> forall ws, sockets s !! id = Some ws ->
        readyState (f ws) = CONNECTING \/ readyState (f ws) = OPEN)) ->
  currentSerialRef s' = None \/ currentSerialRef s' = deviceSerial s' ->
  coherent s'.
Proof.
  intros (HL & HH & HD) Hs Hser Hls Hr Hd. split; [| split].
  - rewrite Hs. intros i ws. destruct (decide (i = id)) as [-> | Hne].
    + rewrite list_lookup_alter_eq. destruct (sockets s !! id) as [ws0 |] eqn:E; [| discriminate].
      simpl. intros [= <-]. rewrite Hls. now apply (HL id).
    + rewrite list_lookup_alter_ne by congruence. apply HL.
  - intros h Hh. destruct Hr as [Hr | (Hr & Hc & Hst)]; [congruence |].
    rewrite Hr in Hh. destruct (HH h Hh) as (ws & Hws & Hcur & Hrs).
    rewrite Hs, Hc. destruct (decide (h = id)) as [-> | Hne].
    + exists (f ws). rewrite list_lookup_alter_eq, Hws, Hser. auto.
    + exists ws. rewrite list_lookup_alter_ne by congruence. auto.
  - exact Hd.
Qed.

Lemma coherent_open serial s :
  coherent s -> currentSerialRef s = Some serial -> coherent (openNewWs serial s).
Proof.
  intros (HL & HH & HD) Hc. destruct (openNewWs_current serial s Hc) as (Hs & Hr & Hc').
  assert (Hdev : deviceSerial (openNewWs serial s) = deviceSerial s).
  { unfold openNewWs. now destruct (negb _). }
  split; [| split].
  - rewrite Hs. intros i ws Hi. apply lookup_app_Some in Hi as [Hi | (_ & Hi)].
    + now apply (HL i).
    + apply list_lookup_singleton_Some in Hi as (_ & <-). reflexivity.
  - intros id. rewrite Hr, Hs, Hc'. intros [= <-].
    exists (mkWebSocket serial CONNECTING []).
    split; [now apply list_lookup_middle | auto].
  - rewrite Hc', Hdev. rewrite Hc in HD. exact HD.
Qed.

Lemma coherent_held_none s : coherent s -> currentSerialRef s = None -> wsRef s = None.
Proof.
  intros (_ & HH & _) Hc. destruct (wsRef s) as [id |] eqn:Hr; [| reflexivity].
  destruct (HH id eq_refl) as (ws & _ & Hcur & _). congruence.
Qed.

Lemma closing_keeps ws :
  ws_serial (closing ws) = ws_serial ws /\ closeListeners (closing ws) = closeListeners ws.
Proof. unfold closing. now destruct (readyState ws). Qed.

Lemma cleanup_coherent s :
  coherent s ->
  coherent (cleanup s) /\ wsRef (cleanup s) = None /\ currentSerialRef (cleanup s) = None.
Proof.
  intros Hco. unfold cleanup. cbv zeta. simpl wsRef.
  destruct (wsRef s) as [id |] eqn:Href;
    match goal with |- context [cleanupImageUrl ?x] =>
      destruct (cleanupImageUrl_keeps x) as (Hs & Hr & Hc & Hd) end;
    rewrite Hr, Hc; (split; [| simpl; rewrite ?Href; split; reflexivity]).
  - apply (coherent_alter s _ closing id); try (intros; apply closing_keeps);
      rewrite ?Hs, ?Hr, ?Hc, ?Hd; simpl; auto.
  - apply (coherent_same s); rewrite ?Hs, ?Hr, ?Hc, ?Hd; simpl; rewrite ?Href; auto.
Qed.

Lemma forceDisconnect_coherent s : coherent s -> coherent (forceDisconnect s).
Proof.
  intros Hco. unfold forceDisconnect. cbv zeta.
  destruct (wsRef s) as [id |] eqn:Href;
    match goal with |- context [cleanupImageUrl ?x] =>
      destruct (cleanupImageUrl_keeps x) as (Hs & Hr & Hc & Hd) end.
  - apply (coherent_alter s _ closing id); try (intros; apply closing_keeps);
      rewrite ?Hs, ?Hr, ?Hc, ?Hd; simpl; auto.
  - apply (coherent_same s); rewrite ?Hs, ?Hr, ?Hc, ?Hd; simpl; rewrite ?Href; auto.
    apply Hco.
Qed.

(** The effect, run as React runs it: after the cleanup, or on a component
    that ran for no device. *)
Lemma effect_coherent serial s :
  coherent s -> wsRef s = None -> deviceSerial s = serial ->
  currentSerialRef s = None ->
  coherent (effect serial s).
Proof.
  intros Hco Href Hdev Hcur. unfold effect. destruct serial as [serial |].
  - rewrite Href. cbv zeta. apply coherent_open; [| reflexivity].
    apply (coherent_same s); simpl; rewrite ?Hdev; auto.
  - rewrite Href. cbv zeta.
    match goal with |- context [cleanupImageUrl ?x] =>
      destruct (cleanupImageUrl_keeps x) as (Hs & Hr & Hc & Hd) end.
    apply (coherent_same s); rewrite ?Hs, ?Hr, ?Hc, ?Hd; simpl; rewrite ?Href; auto.
Qed.

Lemma render_coherent serial s : coherent s -> coherent (render serial s).
Proof.
  intros Hco. unfold render. destruct (same_serial (deviceSerial s) serial); [exact Hco |].
  cbv zeta.
  assert (H : exists s1, (match deviceSerial s with Some _ => cleanup s | None => s end) = s1 /\
                         coherent s1 /\ wsRef s1 = None /\ currentSerialRef s1 = None).
  { destruct (deviceSerial s) as [prev |] eqn:Hdev.
    - exists (cleanup s). split; [reflexivity |]. now apply cleanup_coherent.
    - exists s. split; [reflexivity |].
      assert (Hc : currentSerialRef s = None).
      { destruct Hco as (_ & _ & [Hc | Hc]); [exact Hc | now rewrite Hc]. }
      split; [exact Hco |]. split; [now apply coherent_held_none | exact Hc]. }
  destruct H as (s1 & -> & H1 & Hr1 & Hc1).
  apply effect_coherent; auto.
  apply (coherent_same s1); auto.
Qed.

Lemma step_coherent e s : coherent s -> coherent (step e s).
Proof.
  intros Hco. pose proof Hco as (HL & HH & HD).
  destruct e as [id | id data now | id | id wasClean | | serial |]; simpl step.
  - destruct (sockets s !! id) as [ws |] eqn:Hws; [| exact Hco].
    destruct (readyState ws) eqn:Hrs; try exact Hco.
    set (opened := fun ws => mkWebSocket (ws_serial ws) OPEN (closeListeners ws)).
    assert (H1 : coherent (set_readyState id OPEN s)).
    { apply (coherent_alter s _ opened id); auto. }
    unfold onopen.
    assert (Hl : sockets (set_readyState id OPEN s) !! id = Some (opened ws)).
    { unfold set_readyState. simpl. now rewrite list_lookup_alter_eq, Hws. }
    rewrite Hl. simpl ws_serial. simpl currentSerialRef.
    destruct (strict_eq (currentSerialRef s) (ws_serial ws)) eqn:Hcur; simpl negb; cbv iota.
    + apply (coherent_same (set_readyState id OPEN s)); auto.
    + apply strict_eq_false in Hcur.
      apply (coherent_alter (set_readyState id OPEN s) _ closing id);
        try (intros; apply closing_keeps); auto.
      right. split; [reflexivity |]. split; [reflexivity |].
      simpl wsRef. intros Hheld.
      destruct (HH id Hheld) as (ws' & Hws' & Hc' & _). congruence.
  - assert (Hk : sockets (onmessage id data now s) = sockets s /\
                 wsRef (onmessage id data now s) = wsRef s /\
                 currentSerialRef (onmessage id data now s) = currentSerialRef s /\
                 deviceSerial (onmessage id data now s) = deviceSerial s).
    { unfold onmessage. destruct (sockets s !! id) as [ws |]; [| auto].
      destruct (negb _); [auto |]. cbv zeta. simpl. now destruct (imageUrlRef s). }
    destruct Hk as (Hs & Hr & Hc & Hd).
    apply (coherent_same s); rewrite ?Hs, ?Hr, ?Hc, ?Hd; auto.
  - apply (coherent_same s); auto.
  - unfold deliverClose. destruct (sockets s !! id) as [ws |] eqn:Hws; [| exact Hco].
    destruct (is_closed (readyState ws)); [exact Hco |]. cbv zeta.
    assert (Hls : closeListeners ws = []) by now apply (HL id).
    rewrite Hls. simpl fold_left.
    set (closed := fun ws => mkWebSocket (ws_serial ws) CLOSED (closeListeners ws)).
    unfold onclose.
    assert (Hl : sockets (set_readyState id CLOSED s) !! id = Some (closed ws)).
    { unfold set_readyState. simpl. now rewrite list_lookup_alter_eq, Hws. }
    rewrite Hl. cbv zeta. simpl wsRef.
    destruct (wsRef s) as [cur |] eqn:Href; [destruct (Nat.eqb cur id) eqn:Heq |];
      match goal with |- context [if ?b then _ else _] => destruct b end;
      apply (coherent_alter s _ closed id); auto; simpl; rewrite ?Href;
      try (now left);
      (right; split; [reflexivity |]; split; [reflexivity |]);
      intros [= ->]; rewrite Nat.eqb_refl in Heq; discriminate.
  - destruct (timers s) as [| serial rest]; [exact Hco |].
    assert (H1 : coherent (set_timers rest s)) by (apply (coherent_same s); auto).
    unfold onTimeout. destruct (strict_eq _ serial) eqn:Hcur; [| exact H1].
    apply strict_eq_true in Hcur. now apply coherent_open.
  - now apply render_coherent.
  - now apply forceDisconnect_coherent.
Qed.

Lemma run_coherent es s : coherent s -> coherent (run es s).
Proof.
  unfold run. revert s. induction es as [| e es IH]; intros s Hs; [exact Hs |].
  simpl. apply IH. now apply step_coherent.
Qed.

Lemma initial_coherent : coherent initial.
Proof.
  split; [| split].
  - intros id ws H. discriminate H.
  - intros id H. discriminate H.
  - now left.
Qed.

(** X11.  The refs stay coherent in every run of the streaming effect, that
    is under commits of the [deviceSerial] prop, the events of the sockets
    that [openNewWs] opened, the reconnect timer and [forceDisconnect]: no
    socket ever carries a close listener; the socket in [wsRef], if there is
    one, exists, is connecting or open, and was opened for the current
    serial; and the current serial, if there is one, is the [deviceSerial]
    prop.  The manual reconnect is no event of a run, and it does not keep
    the refs coherent ([manual_reconnect_keeps_closed_socket]). *)
Theorem refs_coherent (es : list Event) : coherent (run es initial).
Proof. apply run_coherent, initial_coherent. Qed.

(** The manual reconnect on a component that streams device A: the socket
    it creates stays in [wsRef] after it has closed, no timer is set for it,
    and the refs are no longer coherent. *)
Example manual_reconnect_keeps_closed_socket :
  let s := handleReconnect_onclose 1
             (handleReconnect_timeout (Some "A") true
                (handleReconnect Scenario.streamingA)) in
  coherent Scenario.streamingA /\
  wsRef s = Some 1%nat /\ sockets s !! 1%nat = Some (mkWebSocket "A" CLOSED []) /\
  timers s = [] /\ ~ coherent s.
Proof.
  cbv zeta. split; [| split; [| split; [| split]]].
  - unfold Scenario.streamingA. apply run_coherent, initial_coherent.
  - vm_compute. reflexivity.
  - vm_compute. reflexivity.
  - vm_compute. reflexivity.
  - intros (_ & Hheld & _). destruct (Hheld 1%nat) as (ws & Hws & _ & Hst).
    + vm_compute. reflexivity.
    + vm_compute in Hws. injection Hws as <-. destruct Hst as [Hst | Hst]; discriminate Hst.
Qed.

Lemma cleanup_sockets s :
  sockets (cleanup s)
  = match wsRef s with Some held => alter closing held (sockets s) | None => sockets s end.
Proof.
  unfold cleanup. cbv zeta. simpl wsRef.
  match goal with |- context [cleanupImageUrl ?x] =>
    destruct (cleanupImageUrl_keeps x) as (-> & _) end.
  now destruct (wsRef s).
Qed.

(** X12.  A commit never waits.  In a coherent state (every state of a run
    is one), a commit of another device creates the socket of that device
    in the commit itself: the socket that was held is asked to close, the
    new socket is appended, connecting, and becomes the held one. *)
Theorem commit_opens_at_once (s : State) (serial : string) :
  coherent s -> deviceSerial s <> Some serial ->
  sockets (step (Render (Some serial)) s)
  = (match wsRef s with Some held => alter closing held (sockets s) | None => sockets s end
     ++ [mkWebSocket serial CONNECTING []])%list /\
  wsRef (step (Render (Some serial)) s) = Some (length (sockets s)) /\
  currentSerialRef (step (Render (Some serial)) s) = Some serial.
Proof.
  intros Hco Hdev. simpl step. unfold render.
  assert (Hne : same_serial (deviceSerial s) (Some serial) = false).
  { destruct (deviceSerial s) as [a |]; [| reflexivity]. simpl.
    apply String.eqb_neq. congruence. }
  rewrite Hne. cbv zeta.
  assert (H : exists s1, (match deviceSerial s with Some _ => cleanup s | None => s end) = s1 /\
                         wsRef s1 = None /\
                         sockets s1 = match wsRef s with
                                      | Some held => alter closing held (sockets s)
                                      | None => sockets s
                                      end).
  { destruct (deviceSerial s) as [prev |] eqn:Hprev.
    - exists (cleanup s). split; [reflexivity |].
      split; [now apply cleanup_coherent | apply cleanup_sockets].
    - exists s. split; [reflexivity |].
      assert (Hc : currentSerialRef s = None).
      { destruct Hco as (_ & _ & [Hc | Hc]); [exact Hc | now rewrite Hc]. }
      rewrite (coherent_held_none s Hco Hc). auto. }
  destruct H as (s1 & -> & Hr1 & Hs1).
  destruct (effect_immediate (set_deviceSerial (Some serial) s1) serial) as (Hs & Hr & Hc);
    [now left |].
  rewrite Hs, Hr, Hc. simpl sockets. rewrite Hs1.
  split; [reflexivity |]. split; [| reflexivity].
  destruct (wsRef s); now rewrite ?length_alter.
Qed.

Lemma streamingA_coherent : coherent Scenario.streamingA.
Proof. unfold Scenario.streamingA. apply run_coherent, initial_coherent. Qed.

Lemma commit_opens_at_once_witness :
  sockets (step (Render (Some "B")) Scenario.streamingA)
  = [mkWebSocket "A" CLOSING []; mkWebSocket "B" CONNECTING []] /\
  wsRef (step (Render (Some "B")) Scenario.streamingA) = Some 1%nat.
Proof.
  destruct (commit_opens_at_once Scenario.streamingA "B" streamingA_coherent)
    as (Hs & Hr & _); [vm_compute; discriminate |].
  split; [rewrite Hs; vm_compute; reflexivity | exact Hr].
Defined.

(** *** After a force-disconnect *)

Lemma listeners_disconnected id ls s :
  currentSerialRef s = None ->
  let s' := fold_left (fun acc l => let 'OnPrevClose serial := l in onPrevClose id serial acc)
                      ls s in
  currentSerialRef s' = None /\ wsRef s' = wsRef s /\ isConnected s' = isConnected s /\
  imageUrl s' = imageUrl s /\ imageUrlRef s' = imageUrlRef s /\
  length (sockets s') = length (sockets s) /\ blobs s' = blobs s /\ timers s' = timers s.
Proof.
  revert s. induction ls as [| [serial] ls IH]; intros s Hc; [simpl; auto 10 |].
  simpl fold_left. unfold onPrevClose at 2. unfold openNewWs.
  simpl currentSerialRef. rewrite Hc. simpl negb. cbv iota.
  destruct (IH (clearListeners id s) Hc) as (H1 & H2 & H3 & H4 & H5 & H6 & H7 & H8).
  cbv zeta. rewrite H1, H2, H3, H4, H5, H6, H7, H8. simpl. rewrite length_alter. auto 10.
Qed.

Lemma step_disconnected e s :
  disconnected s -> passive e = true ->
  disconnected (step e s) /\ length (sockets (step e s)) = length (sockets s) /\
  blobs (step e s) = blobs s /\ (length (timers (step e s)) <= length (timers s))%nat.
Proof.
  intros (Hc & Hr & Hi & Hu & Hur) Hp. unfold disconnected.
  assert (Hsame : (currentSerialRef s = None /\ wsRef s = None /\ isConnected s = false /\
                   imageUrl s = None /\ imageUrlRef s = None) /\
                  length (sockets s) = length (sockets s) /\ blobs s = blobs s /\
                  (length (timers s) <= length (timers s))%nat) by auto 10.
  destruct e as [id | id data now | id | id wasClean | | serial |]; try discriminate Hp;
    simpl step.
  - destruct (sockets s !! id) as [ws |] eqn:Hws; [| exact Hsame].
    destruct (readyState ws); try exact Hsame.
    unfold onopen. simpl sockets. rewrite list_lookup_alter_eq, Hws. simpl.
    rewrite Hc. simpl. rewrite !length_alter. exact Hsame.
  - unfold onmessage. destruct (sockets s !! id) as [ws |]; [| exact Hsame].
    rewrite Hc. simpl. exact Hsame.
  - simpl. auto 10.
  - unfold deliverClose. destruct (sockets s !! id) as [ws |] eqn:Hws; [| exact Hsame].
    destruct (is_closed (readyState ws)); [exact Hsame |]. cbv zeta.
    assert (Hon : onclose id wasClean (set_readyState id CLOSED s)
                  = setIsConnected false (set_readyState id CLOSED s)).
    { unfold onclose. simpl sockets. rewrite list_lookup_alter_eq, Hws. simpl.
      rewrite Hr. simpl. now rewrite Hc. }
    rewrite Hon.
    destruct (listeners_disconnected id (closeListeners ws)
                (setIsConnected false (set_readyState id CLOSED s)) Hc)
      as (H1 & H2 & H3 & H4 & H5 & H6 & H7 & H8).
    rewrite H1, H2, H3, H4, H5, H6, H7, H8. simpl. rewrite length_alter. auto 10.
  - destruct (timers s) as [| serial rest] eqn:Ht; [rewrite Ht; exact Hsame |].
    unfold onTimeout. simpl currentSerialRef. rewrite Hc. simpl.
    split; [auto |]. split; [auto |]. split; [auto | lia].
  - unfold forceDisconnect, cleanupImageUrl. rewrite Hr. simpl. rewrite Hur. simpl. auto 10.
Qed.

Lemma run_disconnected es s :
  disconnected s -> forallb passive es = true ->
  disconnected (run es s) /\ length (sockets (run es s)) = length (sockets s) /\
  blobs (run es s) = blobs s /\ (length (timers (run es s)) <= length (timers s))%nat.
Proof.
  unfold run. revert s. induction es as [| e es IH]; intros s Hd Hes; [simpl; auto |].
  simpl in Hes. apply andb_true_iff in Hes as (He & Hes).
  destruct (step_disconnected e s Hd He) as (Hd' & Hl' & Hb' & Ht').
  simpl fold_left. destruct (IH (step e s) Hd' Hes) as (H1 & H2 & H3 & H4).
  split; [exact H1 |]. split; [congruence |]. split; [congruence | lia].
Qed.

(** X13.  After [forceDisconnect] on a component that holds a socket,
    nothing that the sockets, the timers or the parent do restarts the
    stream: until the next commit the component stays without a current
    serial, a held socket, a connection or an image; no socket is created,
    no frame is stored and no reconnect is scheduled. *)
Theorem forceDisconnect_quiesces (s : State) (id : nat) (es : list Event) :
  wsRef s = Some id -> imageUrl s = imageUrlRef s -> forallb passive es = true ->
  disconnected (run es (forceDisconnect s)) /\
  length (sockets (run es (forceDisconnect s))) = length (sockets s) /\
  blobs (run es (forceDisconnect s)) = blobs s /\
  (length (timers (run es (forceDisconnect s))) <= length (timers s))%nat.
Proof.
  intros Href Himg Hes.
  assert (H0 : disconnected (forceDisconnect s) /\
               length (sockets (forceDisconnect s)) = length (sockets s) /\
               blobs (forceDisconnect s) = blobs s /\
               timers (forceDisconnect s) = timers s).
  { unfold disconnected, forceDisconnect, cleanupImageUrl. rewrite Href. simpl.
    destruct (imageUrlRef s) eqn:Hu; simpl; rewrite ?Hu, ?length_alter; auto 10. }
  destruct H0 as (Hd & Hl & Hb & Ht). rewrite <- Hl, <- Hb, <- Ht.
  now apply run_disconnected.
Qed.

Lemma forceDisconnect_quiesces_witness :
  currentSerialRef
    (run [Message 0 Scenario.frame2 20; Closed 0 false; Timeout; Opened 0]
         (forceDisconnect Scenario.streamingA)) = None /\
  length (sockets (run [Message 0 Scenario.frame2 20; Closed 0 false; Timeout; Opened 0]
                       (forceDisconnect Scenario.streamingA))) = 1%nat.
Proof.
  destruct (forceDisconnect_quiesces Scenario.streamingA 0
              [Message 0 Scenario.frame2 20; Closed 0 false; Timeout; Opened 0])
    as ((Hc & _) & Hl & _);
    [vm_compute; reflexivity | vm_compute; reflexivity | reflexivity |].
  split; [exact Hc | exact Hl].
Defined.

(** *** Reconnecting *)

(** The close event of the held socket of the current serial. *)
Lemma close_of_held s id ws wasClean :
  wsRef s = Some id -> sockets s !! id = Some ws -> readyState ws <> CLOSED ->
  closeListeners ws = [] -> currentSerialRef s = Some (ws_serial ws) ->
  step (Closed id wasClean) s
  = (if wasClean then (fun s => s) else set_timers (timers s ++ [ws_serial ws])%list)
      (setIsConnected false (set_wsRef None (set_readyState id CLOSED s))).
Proof.
  intros Href Hws Hopen Hls Hcur. simpl step. unfold deliverClose. rewrite Hws.
  assert (Hnc : is_closed (readyState ws) = false)
    by (destruct (readyState ws) eqn:E; simpl; congruence).
  rewrite Hnc, Hls. simpl fold_left. unfold onclose. simpl sockets.
  rewrite list_lookup_alter_eq, Hws. simpl. rewrite Href, Nat.eqb_refl. simpl.
  apply strict_eq_true in Hcur. rewrite Hcur. now destruct wasClean.
Qed.

(** X14.  The reconnect of the streaming effect.  When the held socket is
    one that [openNewWs] opened for the current serial and it closes
    uncleanly, its [onclose] marks the component disconnected, drops the
    socket and sets one reconnect timer; when the timer fires, a new socket
    for the same serial is created, connecting, and becomes the held one.
    When the socket closes cleanly, no timer is set and a timeout finds
    nothing to do.  (A socket that the manual reconnect created has another
    [onclose]: see [manual_reconnect_keeps_closed_socket].) *)
Theorem unclean_close_reconnects (s : State) (id : nat) (ws : WebSocket) :
  wsRef s = Some id -> sockets s !! id = Some ws -> readyState ws <> CLOSED ->
  closeListeners ws = [] -> currentSerialRef s = Some (ws_serial ws) -> timers s = [] ->
  (wsRef (step (Closed id false) s) = None /\
   isConnected (step (Closed id false) s) = false /\
   timers (step (Closed id false) s) = [ws_serial ws] /\
   sockets (step (Closed id false) s) !! id = Some (mkWebSocket (ws_serial ws) CLOSED []) /\
   length (sockets (step (Closed id false) s)) = length (sockets s)) /\
  (sockets (run [Closed id false; Timeout] s)
   = (sockets (step (Closed id false) s) ++ [mkWebSocket (ws_serial ws) CONNECTING []])%list /\
   wsRef (run [Closed id false; Timeout] s) = Some (length (sockets s)) /\
   loading (run [Closed id false; Timeout] s) = true /\
   timers (run [Closed id false; Timeout] s) = []) /\
  (wsRef (step (Closed id true) s) = None /\
   isConnected (step (Closed id true) s) = false /\
   timers (step (Closed id true) s) = [] /\
   run [Closed id true; Timeout] s = step (Closed id true) s).
Proof.
  intros Href Hws Hopen Hls Hcur Htm.
  unfold run. cbn [fold_left].
  rewrite !(close_of_held s id ws) by assumption. cbv beta iota.
  apply strict_eq_true in Hcur as Hcur'.
  split; [| split].
  - simpl. rewrite Htm, list_lookup_alter_eq, Hws, length_alter. simpl. rewrite Hls. auto.
  - simpl. rewrite Htm. simpl. unfold onTimeout. simpl. rewrite Hcur'.
    unfold openNewWs. simpl. rewrite Hcur'. simpl. now rewrite length_alter.
  - simpl. rewrite Htm. auto.
Qed.

Lemma unclean_close_reconnects_witness :
  timers (step (Closed 0 false) Scenario.streamingA) = ["A"] /\
  sockets (run [Closed 0 false; Timeout] Scenario.streamingA)
  = [mkWebSocket "A" CLOSED []; mkWebSocket "A" CONNECTING []] /\
  timers (step (Closed 0 true) Scenario.streamingA) = [].
Proof.
  destruct (unclean_close_reconnects Scenario.streamingA 0 (mkWebSocket "A" OPEN []))
    as ((_ & _ & Ht & _) & (Hs & _) & (_ & _ & Hc & _));
    [vm_compute; reflexivity | vm_compute; reflexivity | discriminate | reflexivity
    | vm_compute; reflexivity | vm_compute; reflexivity |].
  split; [exact Ht |]. split; [rewrite Hs; vm_compute; reflexivity | exact Hc].
Defined.

(** A commit of another device: the held socket, if any, is asked to
    close, and the socket of the new device is created and held. *)
Lemma render_other X Y t :
  deviceSerial t = Some X -> X <> Y ->
  sockets (step (Render (Some Y)) t)
  = (match wsRef t with Some h => alter closing h (sockets t) | None => sockets t end
     ++ [mkWebSocket Y CONNECTING []])%list /\
  wsRef (step (Render (Some Y)) t) = Some (length (sockets t)) /\
  currentSerialRef (step (Render (Some Y)) t) = Some Y /\
  deviceSerial (step (Render (Some Y)) t) = Some Y /\
  timers (step (Render (Some Y)) t) = timers t.
Proof.
  intros Hdev Hne. apply String.eqb_neq in Hne.
  destruct t as [d so w c iu i f ic lo bl rv tm]. simpl in Hdev. subst d.
  cbn [step]. unfold render. cbn [deviceSerial same_serial]. rewrite Hne.
  unfold cleanup, effect, cleanupImageUrl, openNewWs.
  destruct w, iu; simpl; rewrite String.eqb_refl; simpl; rewrite ?length_alter; auto.
Qed.

(** The reconnect timer of the current serial opens a socket; the timer of
    another serial opens nothing. *)
Lemma timeout_current X rest t :
  timers t = X :: rest -> currentSerialRef t = Some X ->
  sockets (step Timeout t) = (sockets t ++ [mkWebSocket X CONNECTING []])%list /\
  wsRef (step Timeout t) = Some (length (sockets t)) /\
  loading (step Timeout t) = true /\
  timers (step Timeout t) = rest.
Proof.
  intros Htm Hcur. cbn [step]. rewrite Htm. unfold onTimeout, openNewWs. simpl.
  rewrite Hcur. simpl. rewrite String.eqb_refl. simpl. auto.
Qed.

Lemma timeout_stale X rest t :
  timers t = X :: rest -> currentSerialRef t <> Some X ->
  step Timeout t = set_timers rest t.
Proof.
  intros Htm Hcur. cbn [step]. rewrite Htm. unfold onTimeout.
  apply strict_eq_false in Hcur. simpl currentSerialRef. now rewrite Hcur.
Qed.

(** [forceDisconnect] on a component that holds no socket. *)
Lemma forceDisconnect_idle t :
  wsRef t = None ->
  sockets (step ForceDisconnect t) = sockets t /\
  wsRef (step ForceDisconnect t) = None /\
  currentSerialRef (step ForceDisconnect t) = currentSerialRef t /\
  timers (step ForceDisconnect t) = timers t.
Proof.
  intros Href. cbn [step]. unfold forceDisconnect, cleanupImageUrl. rewrite Href.
  destruct (imageUrlRef t) eqn:E; simpl; rewrite E; simpl; auto.
Qed.

(** X15.  The reconnect timer is never cancelled; it is only without effect
    while the serial it was set for is not the current one.  After an
    unclean close of the held socket of device A, opened by [openNewWs]:
    - [forceDisconnect] finds no socket in [wsRef] and leaves the current
      serial alone, so the timer still opens a new socket for A;
    - after a commit of another device B the timer opens nothing: B's
      socket stays the held one;
    - after a commit of B and a commit of A again, the timer opens a second
      socket for A, which replaces the one of the last commit in [wsRef];
      that one is neither closed nor asked to close. *)
Theorem pending_reconnect (s : State) (id : nat) (ws : WebSocket) (B : string) :
  wsRef s = Some id -> sockets s !! id = Some ws -> readyState ws <> CLOSED ->
  closeListeners ws = [] -> currentSerialRef s = Some (ws_serial ws) -> timers s = [] ->
  deviceSerial s = Some (ws_serial ws) -> B <> ws_serial ws ->
  let A := ws_serial ws in
  let closed := sockets (step (Closed id false) s) in
  (sockets (run [Closed id false; ForceDisconnect; Timeout] s)
   = (closed ++ [mkWebSocket A CONNECTING []])%list /\
   wsRef (run [Closed id false; ForceDisconnect; Timeout] s) = Some (length (sockets s))) /\
  (sockets (run [Closed id false; Render (Some B); Timeout] s)
   = (closed ++ [mkWebSocket B CONNECTING []])%list /\
   wsRef (run [Closed id false; Render (Some B); Timeout] s) = Some (length (sockets s)) /\
   currentSerialRef (run [Closed id false; Render (Some B); Timeout] s) = Some B /\
   timers (run [Closed id false; Render (Some B); Timeout] s) = []) /\
  (timers (run [Closed id false; Render (Some B); Render (Some A)] s) = [A] /\
   sockets (run [Closed id false; Render (Some B); Render (Some A); Timeout] s)
   = (closed ++ [mkWebSocket B CLOSING []; mkWebSocket A CONNECTING [];
                 mkWebSocket A CONNECTING []])%list /\
   wsRef (run [Closed id false; Render (Some B); Render (Some A)] s)
   = Some (S (length (sockets s))) /\
   wsRef (run [Closed id false; Render (Some B); Render (Some A); Timeout] s)
   = Some (S (S (length (sockets s)))) /\
   timers (run [Closed id false; Render (Some B); Render (Some A); Timeout] s) = []).
Proof.
  intros Href Hws Hopen Hls Hcur Htm Hdev HB. cbv zeta.
  unfold run. cbn [fold_left].
  assert (Hs1 : wsRef (step (Closed id false) s) = None /\
                currentSerialRef (step (Closed id false) s) = Some (ws_serial ws) /\
                deviceSerial (step (Closed id false) s) = Some (ws_serial ws) /\
                timers (step (Closed id false) s) = [ws_serial ws] /\
                length (sockets (step (Closed id false) s)) = length (sockets s)).
  { rewrite (close_of_held s id ws) by assumption. cbv beta iota. simpl.
    rewrite Htm, length_alter. auto. }
  remember (step (Closed id false) s) as s1 eqn:Es1. clear Es1.
  destruct Hs1 as (Href1 & Hcur1 & Hdev1 & Htm1 & Hlen1). rewrite <- Hlen1.
  assert (HBA : ws_serial ws <> B) by congruence.
  destruct (render_other (ws_serial ws) B s1 Hdev1 HBA) as (Hso & Hw & Hc & Hd & Ht).
  rewrite Href1 in Hso. rewrite Htm1 in Ht.
  remember (step (Render (Some B)) s1) as s2 eqn:Es2. clear Es2.
  split; [| split].
  - destruct (forceDisconnect_idle s1 Href1) as (Hso' & _ & Hc' & Ht').
    rewrite Hcur1 in Hc'. rewrite Htm1 in Ht'.
    destruct (timeout_current _ _ _ Ht' Hc') as (-> & -> & _).
    now rewrite Hso'.
  - rewrite (timeout_stale _ _ _ Ht) by (rewrite Hc; congruence).
    cbn [set_timers sockets wsRef currentSerialRef timers]. auto.
  - destruct (render_other B (ws_serial ws) s2 Hd HB) as (Hso3 & Hw3 & Hc3 & _ & Ht3).
    rewrite Hw, Hso in Hso3. rewrite Ht in Ht3. rewrite Hso, length_app in Hw3.
    rewrite <- (Nat.add_0_r (length (sockets s1))) in Hso3 at 1.
    rewrite alter_app_r in Hso3.
    change (alter closing 0%nat [mkWebSocket B CONNECTING []])
      with [mkWebSocket B CLOSING []] in Hso3.
    change (length [mkWebSocket B CONNECTING []]) with 1%nat in Hw3.
    rewrite Nat.add_1_r in Hw3.
    remember (step (Render (Some (ws_serial ws))) s2) as s3 eqn:Es3. clear Es3.
    destruct (timeout_current _ _ _ Ht3 Hc3) as (Hso4 & Hw4 & _ & Ht4).
    rewrite Hso4, Hw4, Ht4, Ht3, Hw3, Hso3, !length_app. simpl.
    rewrite <- !app_assoc. simpl.
    split; [reflexivity |]. split; [reflexivity |]. split; [reflexivity |].
    split; [f_equal; lia | reflexivity].
Qed.

Lemma pending_reconnect_witness :
  sockets (run [Closed 0 false; ForceDisconnect; Timeout] Scenario.streamingA)
  = [mkWebSocket "A" CLOSED []; mkWebSocket "A" CONNECTING []] /\
  sockets (run [Closed 0 false; Render (Some "B"); Timeout] Scenario.streamingA)
  = [mkWebSocket "A" CLOSED []; mkWebSocket "B" CONNECTING []] /\
  sockets (run [Closed 0 false; Render (Some "B"); Render (Some "A"); Timeout]
             Scenario.streamingA)
  = [mkWebSocket "A" CLOSED []; mkWebSocket "B" CLOSING [];
     mkWebSocket "A" CONNECTING []; mkWebSocket "A" CONNECTING []] /\
  wsRef (run [Closed 0 false; Render (Some "B"); Render (Some "A"); Timeout]
           Scenario.streamingA) = Some 3%nat.
Proof.
  destruct (pending_reconnect Scenario.streamingA 0 (mkWebSocket "A" OPEN []) "B")
    as ((Hf & _) & (Hc & _) & (_ & Hs & _ & Hw & _));
    [vm_compute; reflexivity | vm_compute; reflexivity | discriminate | reflexivity
    | vm_compute; reflexivity | vm_compute; reflexivity | vm_compute; reflexivity
    | discriminate |].
  split; [etransitivity; [exact Hf | vm_compute; reflexivity] |].
  split; [etransitivity; [exact Hc | vm_compute; reflexivity] |].
  split; etransitivity; [exact Hs | vm_compute; reflexivity | exact Hw | vm_compute; reflexivity].
Defined.

End StreamExtra.

(** ** The hierarchy tree and the overlays of [App] *)
Module HierarchyTreeFacts.
Import TreeFacts HierarchyTree.
Local Open Scope string_scope.

(** *** Strings *)

Lemma append_nil_r (s : string) : s ++ "" = s.
Proof. induction s as [| c s IH]; simpl; [reflexivity | now rewrite IH]. Qed.

Lemma append_assoc (a b c : string) : (a ++ b) ++ c = a ++ (b ++ c).
Proof. induction a as [| x a IH]; simpl; [reflexivity | now rewrite IH]. Qed.

Lemma append_inv_head (a b c : string) : a ++ b = a ++ c -> b = c.
Proof. induction a as [| x a IH]; simpl; [auto | intros [= H]; auto]. Qed.

(** *** Decimal digits *)

Lemma dec_injective a b : dec a = dec b -> a = b.
Proof.
  unfold dec. intros H. apply DecimalNat.Unsigned.to_uint_inj.
  assert (Hn : forall n, Nat.to_uint n <> Decimal.Nil).
  { intros n. rewrite <- (DecimalNat.Unsigned.of_to n) at 1.
    rewrite DecimalNat.Unsigned.to_of. apply DecimalFacts.unorm_nonnil. }
  apply (f_equal DecimalString.NilZero.uint_of_string) in H.
  rewrite !DecimalString.NilZero.usu in H by apply Hn. congruence.
Qed.

(** A decimal numeral has no dash. *)
Lemma dec_digits n c : In c (list_ascii_of_string (dec n)) -> c <> "-"%char.
Proof.
  unfold dec, DecimalString.NilZero.string_of_uint.
  assert (H : forall d, In c (list_ascii_of_string (DecimalString.NilEmpty.string_of_uint d)) ->
                        c <> "-"%char).
  { induction d; simpl; try tauto; intros [<- | Hin]; try discriminate; auto. }
  destruct (Nat.to_uint n) eqn:E; try apply H.
  simpl. intros [<- | []]. discriminate.
Qed.

(** Two numerals, each followed by nothing or by a dash, are equal when the
    strings are. *)
Lemma digits_split (s1 s2 r1 r2 : string) :
  (forall c, In c (list_ascii_of_string s1) -> c <> "-"%char) ->
  (forall c, In c (list_ascii_of_string s2) -> c <> "-"%char) ->
  (r1 = "" \/ exists r, r1 = String "-" r) ->
  (r2 = "" \/ exists r, r2 = String "-" r) ->
  s1 ++ r1 = s2 ++ r2 -> s1 = s2 /\ r1 = r2.
Proof.
  revert s2. induction s1 as [| c s1 IH]; intros [| d s2] H1 H2 Hr1 Hr2; simpl.
  - auto.
  - intros ->. destruct Hr1 as [Hr1 | (r & Hr1)]; [discriminate |].
    injection Hr1 as Hd _. exfalso. apply (H2 d); simpl; auto.
  - intros <-. destruct Hr2 as [Hr2 | (r & Hr2)]; [discriminate |].
    injection Hr2 as Hc _. exfalso. apply (H1 c); simpl; auto.
  - intros [= -> H]. destruct (IH s2) as (-> & ->); auto.
    + intros c Hc. apply H1. simpl. auto.
    + intros c Hc. apply H2. simpl. auto.
Qed.

Lemma suffix_shape q : suffix q = "" \/ exists r, suffix q = String "-" r.
Proof. destruct q; simpl; eauto. Qed.

Lemma suffix_injective p q : suffix p = suffix q -> p = q.
Proof.
  revert q. induction p as [| i p IH]; intros [| j q]; simpl; try discriminate; auto.
  intros [= H]. apply digits_split in H as (Hd & Hs);
    try apply dec_digits; try apply suffix_shape.
  apply dec_injective in Hd as ->. now rewrite (IH q Hs).
Qed.

Lemma suffix_app p q : suffix (p ++ q) = suffix p ++ suffix q.
Proof.
  induction p as [| i p IH]; simpl; [reflexivity |]. now rewrite IH, append_assoc.
Qed.

Lemma pathKey_injective p q : pathKey p = pathKey q -> p = q.
Proof. unfold pathKey. intros H. apply append_inv_head in H. now apply suffix_injective. Qed.

Lemma pathKey_eqb p q : String.eqb (pathKey p) (pathKey q) = true <-> p = q.
Proof.
  rewrite String.eqb_eq. split; [apply pathKey_injective | now intros ->].
Qed.

Lemma pathKey_snoc p i : pathKey p ++ "-" ++ dec i = pathKey (p ++ [i]).
Proof.
  unfold pathKey. rewrite suffix_app. simpl. now rewrite append_nil_r.
Qed.

(** *** The converted tree *)

Lemma convertToTreeData_unfold t a cs pk i :
  convertToTreeData (Node t a cs) pk i
  = let k := if String.eqb pk "" then "0" else pk ++ "-" ++ dec i in
    DataNode k (bounds_computed a) (Node t a cs)
             (imap (fun j c => convertToTreeData c k j) cs).
Proof.
  cbv zeta. simpl. f_equal.
  set (k := if String.eqb pk "" then _ else _).
  rewrite (imap_ext _ (fun j c => convertToTreeData c k (0 + j)) cs) by reflexivity.
  generalize 0%nat. induction cs as [| c cs IH]; intros o; [reflexivity |].
  rewrite imap_cons, Nat.add_0_r. f_equal. rewrite IH. apply imap_ext. intros j x _.
  simpl. f_equal. lia.
Qed.

Lemma pathKey_not_empty p : String.eqb (pathKey p) "" = false.
Proof. reflexivity. Qed.

Lemma find_children_none k0 d nd cs k :
  String.eqb k0 k = false -> Forall (fun c => findNodeByKey c k = None) cs ->
  findNodeByKey (DataNode k0 d nd cs) k = None.
Proof.
  intros Hk Hcs. simpl. rewrite Hk.
  induction Hcs as [| c cs Hc _ IH]; [reflexivity |]. now rewrite Hc.
Qed.

Lemma find_children_at k0 d nd l1 c l2 k :
  String.eqb k0 k = false -> Forall (fun c => findNodeByKey c k = None) l1 ->
  findNodeByKey (DataNode k0 d nd (l1 ++ c :: l2)) k
  = match findNodeByKey c k with
    | Some found => Some found
    | None => findNodeByKey (DataNode k0 d nd l2) k
    end.
Proof.
  intros Hk Hl1. simpl. rewrite Hk.
  induction Hl1 as [| c1 l1 Hc _ IH]; [reflexivity |]. simpl. now rewrite Hc.
Qed.

(** A key that names no path through [pre] is not in the subtree at [pre]. *)
Lemma find_outside n : forall pk i pre k,
  (if String.eqb pk "" then "0" else pk ++ "-" ++ dec i) = pathKey pre ->
  (forall q, k <> pathKey (pre ++ q)) ->
  findNodeByKey (convertToTreeData n pk i) k = None.
Proof.
  induction n as [t a cs IH] using HierarchyNode_nested_ind. intros pk i pre k HK Hout.
  rewrite convertToTreeData_unfold. cbv zeta. rewrite HK.
  apply find_children_none.
  - apply String.eqb_neq. intros E. apply (Hout []). now rewrite app_nil_r.
  - apply Forall_lookup. intros j d Hd. rewrite list_lookup_imap in Hd.
    destruct (cs !! j) as [c |] eqn:Hc; [| discriminate]. injection Hd as <-.
    rewrite Forall_lookup in IH. apply (IH j c Hc _ _ (pre ++ [j])%list).
    + rewrite pathKey_not_empty. apply pathKey_snoc.
    + intros q. rewrite <- app_assoc. apply Hout.
Qed.

(** The siblings of the child [j] do not hold a key below [j]. *)
Lemma siblings_outside pre j q cs (g : nat -> nat) :
  (forall j', (j' < length cs)%nat -> g j' <> j) ->
  Forall (fun c => findNodeByKey c (pathKey (pre ++ j :: q)) = None)
         (imap (fun j' c => convertToTreeData c (pathKey pre) (g j')) cs).
Proof.
  intros Hg. apply Forall_lookup. intros j' d Hd. rewrite list_lookup_imap in Hd.
  destruct (cs !! j') as [c |] eqn:Hc; [| discriminate]. injection Hd as <-.
  apply lookup_lt_Some in Hc.
  apply (find_outside c _ _ (pre ++ [g j'])%list).
  - rewrite pathKey_not_empty. apply pathKey_snoc.
  - intros q' E. apply pathKey_injective in E. rewrite <- app_assoc in E.
    apply app_inv_head in E. injection E as E _. now apply (Hg j' Hc).
Qed.

Lemma find_inside n : forall pk i pre q,
  (if String.eqb pk "" then "0" else pk ++ "-" ++ dec i) = pathKey pre ->
  match nodeAt n q with
  | Some m =>
      exists d, findNodeByKey (convertToTreeData n pk i) (pathKey (pre ++ q)) = Some d /\
                key d = pathKey (pre ++ q) /\ nodeData d = m /\
                data d = bounds_computed (attributes m)
  | None => findNodeByKey (convertToTreeData n pk i) (pathKey (pre ++ q)) = None
  end.
Proof.
  induction n as [t a cs IH] using HierarchyNode_nested_ind. intros pk i pre q HK.
  rewrite convertToTreeData_unfold. cbv zeta. rewrite HK.
  destruct q as [| j q].
  - simpl nodeAt. rewrite app_nil_r. simpl. rewrite String.eqb_refl. eauto.
  - assert (Hroot : String.eqb (pathKey pre) (pathKey (pre ++ j :: q)) = false).
    { apply String.eqb_neq. intros E. apply pathKey_injective in E.
      apply (f_equal (@length nat)) in E. rewrite length_app in E. simpl in E. lia. }
    simpl nodeAt. destruct (nth_error cs j) as [c |] eqn:Hc.
    + apply nth_error_split in Hc as (l1 & l2 & -> & Hlen).
      rewrite imap_app, imap_cons. rewrite find_children_at; [| exact Hroot |].
      * rewrite Hlen, Nat.add_0_r.
        apply Forall_app in IH as (_ & IH). apply Forall_cons in IH as (IH & _).
        specialize (IH (pathKey pre) j (pre ++ [j])%list q).
        rewrite <- app_assoc in IH. simpl app in IH.
        rewrite pathKey_not_empty in IH. specialize (IH (pathKey_snoc pre j)).
        destruct (nodeAt c q) as [m |].
        -- destruct IH as (d & -> & Hd). eauto.
        -- rewrite IH. apply find_children_none; [exact Hroot |].
           refine (siblings_outside pre j q l2 (fun n => (j + S n)%nat) _).
           intros j' _. lia.
      * apply (siblings_outside pre j q l1 (fun n => n)). intros j' Hj'. lia.
    + apply nth_error_None in Hc.
      apply find_children_none; [exact Hroot |].
      apply (siblings_outside pre j q cs (fun n => n)). intros j' Hj'. lia.
Qed.

(** *** The keys of [expandAndSelectNode] *)

Lemma join_suffix q acc :
  fold_left (fun acc j => acc ++ "-" ++ dec j) q acc = acc ++ suffix q.
Proof.
  revert acc. induction q as [| i q IH]; intros acc; simpl.
  - now rewrite append_nil_r.
  - rewrite IH. now rewrite append_assoc.
Qed.

Lemma targetKey_pathKey r q : targetKey (r :: q) = pathKey q.
Proof.
  unfold targetKey, pathKey. destruct q as [| j q]; [reflexivity |].
  simpl. now rewrite join_suffix.
Qed.

Lemma prefixes_head q : prefixes q = [] :: tl (prefixes q).
Proof. now destruct q. Qed.

Lemma expandLoop_prefixes q : forall pre acc,
  expandLoop q (pathKey pre) acc
  = (acc ++ List.map (fun p => pathKey (pre ++ p)) (tl (prefixes q)))%list.
Proof.
  induction q as [| i q IH]; intros pre acc.
  - simpl. now rewrite app_nil_r.
  - change (expandLoop (i :: q) (pathKey pre) acc)
      with (expandLoop q (pathKey pre ++ "-" ++ dec i)
                       (acc ++ [pathKey pre ++ "-" ++ dec i])).
    change (tl (prefixes (i :: q))) with (List.map (cons i) (prefixes q)).
    rewrite pathKey_snoc, IH, <- app_assoc. f_equal.
    rewrite (prefixes_head q) at 2. simpl. f_equal.
    rewrite !List.map_map. apply List.map_ext. intros p. now rewrite <- app_assoc.
Qed.

Lemma keysToExpand_prefixes r q : keysToExpand (r :: q) = List.map pathKey (prefixes q).
Proof.
  unfold keysToExpand. simpl tl. change "0" with (pathKey []) at 1.
  rewrite (expandLoop_prefixes q [] ["0"]).
  rewrite (prefixes_head q) at 2. reflexivity.
Qed.

Lemma nodeAt_app n p q :
  nodeAt n (p ++ q) = match nodeAt n p with Some m => nodeAt m q | None => None end.
Proof.
  revert n. induction p as [| i p IH]; intros n; simpl; [reflexivity |].
  destruct (nth_error _ i); [apply IH | reflexivity].
Qed.

Lemma prefixes_spec q p : In p (prefixes q) <-> exists rest, q = (p ++ rest)%list.
Proof.
  revert p. induction q as [| i q IH]; intros p; simpl.
  - split.
    + intros [<- | []]. now exists [].
    + intros (rest & E). symmetry in E. apply app_eq_nil in E as (-> & _). now left.
  - split.
    + intros [<- | Hin]; [now exists (i :: q) |].
      apply in_map_iff in Hin as (p' & <- & Hin). apply IH in Hin as (rest & ->).
      now exists rest.
    + intros (rest & E). destruct p as [| j p]; [now left |]. right.
      injection E as -> ->. apply in_map. apply IH. now exists rest.
Qed.

Lemma dec_not_empty n : dec n <> "".
Proof.
  unfold dec.
  assert (Hn : Nat.to_uint n <> Decimal.Nil).
  { rewrite <- (DecimalNat.Unsigned.of_to n) at 1.
    rewrite DecimalNat.Unsigned.to_of. apply DecimalFacts.unorm_nonnil. }
  destruct (Nat.to_uint n); simpl; congruence.
Qed.

Lemma dash_is_no_key q : "0-" <> pathKey q.
Proof.
  unfold pathKey. destruct q as [| i q]; simpl; [discriminate |].
  intros [= E]. destruct (dec i) eqn:Hd; [now apply (dec_not_empty i) | discriminate].
Qed.

(** *** All the keys *)

Lemma keysFrom_unfold k d nd cs :
  keysFrom (DataNode k d nd cs) = k :: flat_map keysFrom cs.
Proof. reflexivity. Qed.

Lemma keysFrom_paths n : forall pk i pre,
  (if String.eqb pk "" then "0" else pk ++ "-" ++ dec i) = pathKey pre ->
  exists L, keysFrom (convertToTreeData n pk i) = List.map pathKey L /\
            List.NoDup L /\ (forall p, In p L -> exists q, p = (pre ++ q)%list) /\
            length L = length (preorder n).
Proof.
  induction n as [t a cs IH] using HierarchyNode_nested_ind. intros pk i pre HK.
  rewrite convertToTreeData_unfold. cbv zeta. rewrite HK, keysFrom_unfold.
  assert (Hcs : forall o,
    exists L, flat_map keysFrom
                (imap (fun j c => convertToTreeData c (pathKey pre) (o + j)) cs)
              = List.map pathKey L /\
              List.NoDup L /\
              (forall p, In p L -> exists j q, p = (pre ++ j :: q)%list /\ (o <= j)%nat) /\
              length L = length (flat_map preorder cs)).
  { clear HK. induction IH as [| c cs Hc _ IHcs]; intros o.
    - exists []. simpl.
      split; [reflexivity | split; [constructor | split; [intros p [] | reflexivity]]].
    - rewrite imap_cons, Nat.add_0_r. simpl flat_map.
      destruct (Hc (pathKey pre) o (pre ++ [o])%list) as (Lc & Ec & Nc & Pc & Lenc).
      { rewrite pathKey_not_empty. apply pathKey_snoc. }
      destruct (IHcs (S o)) as (Lr & Er & Nr & Pr & Lenr).
      exists (Lc ++ Lr)%list. split; [| split; [| split]].
      + rewrite List.map_app, <- Ec, <- Er. f_equal. f_equal. apply imap_ext.
        intros j x _. simpl. f_equal. lia.
      + apply List.NoDup_app; [exact Nc | exact Nr |].
        intros p Hpc Hpr. destruct (Pc p Hpc) as (q & ->).
        destruct (Pr _ Hpr) as (j & q' & E & Hj). rewrite <- app_assoc in E.
        apply app_inv_head in E. injection E as E _. lia.
      + intros p Hp. apply in_app_or in Hp as [Hp | Hp].
        * destruct (Pc p Hp) as (q & ->). exists o, q. rewrite <- app_assoc. auto.
        * destruct (Pr p Hp) as (j & q & -> & Hj). exists j, q. split; [reflexivity | lia].
      + rewrite !length_app. congruence. }
  destruct (Hcs 0%nat) as (L & EL & NL & PL & LenL).
  exists (pre :: L). split; [| split; [| split]].
  - simpl. f_equal. exact EL.
  - constructor; [| exact NL]. intros Hin. destruct (PL pre Hin) as (j & q & E & _).
    apply (f_equal (@length nat)) in E. rewrite length_app in E. simpl in E. lia.
  - intros p [<- | Hp]; [exists []; now rewrite app_nil_r |].
    destruct (PL p Hp) as (j & q & -> & _). eauto.
  - simpl. now rewrite LenL.
Qed.

Lemma last_prefixes q : last (prefixes q) = Some q.
Proof.
  induction q as [| i q IH]; [reflexivity |].
  change (prefixes (i :: q)) with ([] :: List.map (cons i) (prefixes q)).
  rewrite (prefixes_head q) at 1. simpl List.map.
  rewrite last_cons_cons. rewrite (prefixes_head q) in IH.
  change ([i] :: List.map (cons i) (tl (prefixes q)))
    with (cons i <$> ([] :: tl (prefixes q))).
  now rewrite fmap_last, IH.
Qed.

(** The node that a path selects, or nothing. *)
Lemma select_of_path h r q :
  (exists m d, nodeAt h q = Some m /\ targetNode h (r :: q) = Some d /\
               data d = bounds_computed (attributes m)) \/
  (nodeAt h q = None /\ targetNode h (r :: q) = None).
Proof.
  unfold targetNode, treeData. rewrite targetKey_pathKey.
  pose proof (find_inside h "" 0 [] q eq_refl) as H. simpl app in H.
  destruct (nodeAt h q) as [m |]; [| now right].
  destruct H as (d & Hd & _ & _ & Hb). left. eauto.
Qed.

(** X16.  The lookup of [expandAndSelectNode].  For a node path
    [r; q1; ..; qk] (the first entry is not read), the node looked up is
    the node that the child indices [q1 .. qk] lead to from the root: it
    carries that hierarchy node, its bounds and the selected key.  When the
    indices lead nowhere, nothing is found; nothing is found for the empty
    path either, whose key is [0-]. *)
Theorem select_finds_node (h : HierarchyNode) :
  (forall r q,
     match nodeAt h q with
     | Some m =>
         exists d, targetNode h (r :: q) = Some d /\ key d = targetKey (r :: q) /\
                   nodeData d = m /\ data d = bounds_computed (attributes m)
     | None => targetNode h (r :: q) = None
     end) /\
  targetKey [] = "0-" /\ targetNode h [] = None.
Proof.
  split; [| split].
  - intros r q. unfold targetNode, treeData. rewrite targetKey_pathKey.
    apply (find_inside h "" 0 [] q). reflexivity.
  - reflexivity.
  - unfold targetNode, treeData. apply (find_outside h "" 0 []); [reflexivity |].
    intros q. apply dash_is_no_key.
Qed.

(** X17.  The keys that [expandAndSelectNode] expands.  When the child
    indices of the node path lead to a node, the expanded keys are, in
    order, the keys of the nodes on the way from the root to it, each of
    them in the tree, and the last one is the selected key. *)
Theorem expanded_keys_are_ancestors (h : HierarchyNode) (r : nat) (q : list nat)
    (m : HierarchyNode) :
  nodeAt h q = Some m ->
  Forall2 (fun k p => exists d a, findNodeByKey (treeData h) k = Some d /\ key d = k /\
                                  nodeAt h p = Some a /\ nodeData d = a)
          (keysToExpand (r :: q)) (prefixes q) /\
  last (keysToExpand (r :: q)) = Some (targetKey (r :: q)).
Proof.
  intros Hm. rewrite keysToExpand_prefixes, targetKey_pathKey. split.
  - change (List.map pathKey (prefixes q)) with (pathKey <$> prefixes q).
    apply Forall2_fmap_l, Forall_Forall2_diag, Forall_forall. intros p Hp.
    apply list_elem_of_In, prefixes_spec in Hp as (rest & ->).
    rewrite nodeAt_app in Hm. destruct (nodeAt h p) as [a |] eqn:Ha; [| discriminate].
    pose proof (find_inside h "" 0 [] p eq_refl) as Hf. rewrite Ha in Hf.
    destruct Hf as (d & Hd & Hk & Hn & _). exists d, a. auto.
  - change (List.map pathKey (prefixes q)) with (pathKey <$> prefixes q).
    now rewrite fmap_last, last_prefixes.
Qed.

Lemma expanded_keys_are_ancestors_witness :
  last (keysToExpand [0; 0]%nat) = Some "0-0".
Proof.
  destruct (expanded_keys_are_ancestors Scenario.hiddenParent 0 [0%nat] Scenario.okButton)
    as (_ & Hlast); [reflexivity | exact Hlast].
Defined.

(** X18.  The keys of the tree are pairwise distinct, one for each node of
    the hierarchy: [getAllKeys], which Expand All expands, lists as many
    keys as the hierarchy has nodes, and no key twice. *)
Theorem tree_keys_unique (h : HierarchyNode) :
  List.NoDup (getAllKeys [treeData h]) /\
  length (getAllKeys [treeData h]) = length (preorder h).
Proof.
  unfold getAllKeys, treeData. simpl flat_map. rewrite app_nil_r.
  destruct (keysFrom_paths h "" 0 [] eq_refl) as (L & -> & HL & _ & Hlen).
  split; [| now rewrite length_map].
  clear Hlen. induction HL as [| p L Hp _ IH]; simpl; constructor; [| exact IH].
  intros Hin. apply in_map_iff in Hin as (p' & E & Hin).
  apply pathKey_injective in E as ->. contradiction.
Qed.

End HierarchyTreeFacts.

(** ** The overlays of [App] *)
Module AppFacts.
Import HierarchyTree HierarchyTreeFacts App.
Local Open Scope string_scope.

Lemma omap_length_le {A B} (f : A -> option B) l : (length (omap f l) <= length l)%nat.
Proof. induction l as [| x l IH]; csimpl; [lia |]. destruct (f x); csimpl; lia. Qed.

Lemma handleXPathResults_lookup bs k :
  handleXPathResults bs !! k
  = (fun b => mkOverlay b "#ff4d4f" ("Match " ++ dec (k + 1))) <$> bs !! k.
Proof. unfold handleXPathResults. apply list_lookup_imap. Qed.

Lemma handleXPathResults_bounds bs : List.map bounds (handleXPathResults bs) = bs.
Proof.
  apply list_eq. intros k. change (List.map bounds) with (fmap (M := list) bounds).
  rewrite list_lookup_fmap, handleXPathResults_lookup.
  now destruct (bs !! k).
Qed.

(** [omap] against the two passes of the source. *)
Lemma omap_map_filter {A B} (f : A -> option B) l :
  List.map Some (omap f l) = List.filter Boolean (List.map f l).
Proof.
  induction l as [| a l IH]; [reflexivity |]. csimpl.
  destruct (f a); csimpl; [now rewrite IH | exact IH].
Qed.

(** X19.  The overlays of an XPath query.  A successful response gives one
    red overlay for each match that has bounds, in the order of the matches
    and one for each such match: the bounds handed over are what
    [.map(m => m.bounds_computed).filter(Boolean)] leaves of the matches.
    The overlay at position [k] is labelled [Match k+1], so the labels are
    pairwise distinct, and the matches without bounds are not numbered.  A
    failed response and a rejected request clear the overlays.  Without a
    device, or with a blank query, the overlays are not touched. *)
Theorem xpath_overlays (serial trimmed : string) (response : XPathQueryResponse) :
  trimmed <> "" ->
  (q_success response = true ->
   exists bs, executeQuery (Some serial) trimmed (Some response) = Some bs /\
     List.map Some bs
     = List.filter Boolean (List.map m_bounds_computed (q_matches response)) /\
     List.map bounds (handleXPathResults bs) = bs /\
     length (handleXPathResults bs) = length bs /\
     (length bs <= length (q_matches response))%nat /\
     (forall b, In b bs <-> exists m, In m (q_matches response) /\
                                      m_bounds_computed m = Some b) /\
     (forall k o, handleXPathResults bs !! k = Some o ->
        bs !! k = Some (bounds o) /\ color o = "#ff4d4f" /\
        label o = "Match " ++ dec (k + 1)) /\
     List.NoDup (List.map label (handleXPathResults bs))) /\
  (q_success response = false ->
   executeQuery (Some serial) trimmed (Some response) = Some [] /\
   handleXPathResults [] = []) /\
  executeQuery (Some serial) trimmed None = Some [] /\
  executeQuery None trimmed (Some response) = None /\
  executeQuery (Some serial) "" (Some response) = None.
Proof.
  intros Ht. apply String.eqb_neq in Ht.
  split; [| split; [| split; [| split]]].
  - intros Hs. exists (omap m_bounds_computed (q_matches response)).
    split; [unfold executeQuery; now rewrite Ht, Hs |].
    split; [apply omap_map_filter |].
    split; [apply handleXPathResults_bounds |].
    split; [unfold handleXPathResults; apply length_imap |].
    split; [apply omap_length_le |].
    split; [| split].
    + intros b. rewrite <- list_elem_of_In, list_elem_of_omap.
      split; intros (m & Hm & Hb); exists m; split; auto; now apply list_elem_of_In.
    + intros k o. rewrite handleXPathResults_lookup.
      destruct (_ !! k) as [b |]; [| discriminate]. simpl. intros [= <-]. auto.
    + generalize (omap m_bounds_computed (q_matches response)). intros bs.
      apply NoDup_ListNoDup, NoDup_alt. intros i j lbl Hi Hj.
      rewrite list_lookup_fmap, handleXPathResults_lookup in Hi, Hj.
      destruct (bs !! i); [| discriminate]. destruct (bs !! j); [| discriminate].
      simpl in Hi, Hj. rewrite <- Hj in Hi. injection Hi as Hi.
      apply dec_injective in Hi. lia.
  - intros Hs. unfold executeQuery. now rewrite Ht, Hs.
  - unfold executeQuery. now rewrite Ht.
  - reflexivity.
  - reflexivity.
Qed.

(** A query with three matches, the second without bounds: two overlays. *)
Lemma xpath_overlays_witness :
  exists bs,
    executeQuery (Some "emulator-5554") "//android.widget.Button"
      (Some (mkXPathQueryResponse true 3
               [mkXPathMatch "android.widget.Button" (Some (mkBounds 100 200 200 80));
                mkXPathMatch "android.widget.Button" None;
                mkXPathMatch "android.widget.Button" (Some (mkBounds 0 0 100 100))]
               None))
    = Some bs /\
    bs = [mkBounds 100 200 200 80; mkBounds 0 0 100 100] /\
    List.map label (handleXPathResults bs) = ["Match 1"; "Match 2"].
Proof.
  destruct (xpath_overlays "emulator-5554" "//android.widget.Button"
              (mkXPathQueryResponse true 3
                 [mkXPathMatch "android.widget.Button" (Some (mkBounds 100 200 200 80));
                  mkXPathMatch "android.widget.Button" None;
                  mkXPathMatch "android.widget.Button" (Some (mkBounds 0 0 100 100))]
                 None)) as (Hok & _); [discriminate |].
  destruct (Hok eq_refl) as (bs & Hbs & _).
  exists bs. split; [exact Hbs |].
  injection Hbs as <-. split; reflexivity.
Defined.

(** X20.  The highlight after a lookup on the canvas.  [handleTap] shows
    the element that the lookup returned, labelled with the last segment of
    its tag, and has the tree select the element's node path.  The deferred
    selection then replaces that overlay by the bounds of the hierarchy node
    that the path leads to, labelled [Selected]; the element's own overlay
    stays only when the path leads to no node of the loaded hierarchy, or
    to a node without bounds. *)
Theorem tap_highlight (serial : string) (element : SelectedElement) (h : HierarchyNode)
    (r : nat) (q : list nat) (overlays : list Overlay) :
  e_node_path element = Some (r :: q) ->
  snd (handleTap (Some serial) (Some (mkFindByCoordinateResponse true (Some element)))
                 (Some h) overlays) = Some (r :: q) /\
  fst (handleTap (Some serial) (Some (mkFindByCoordinateResponse true (Some element)))
                 (Some h) overlays)
  = match bounds_computed (e_attributes element) with
    | Some b => [mkOverlay b "#52c41a"
                           (or_Element (Extractor.pop (Extractor.split "." (e_tag element))))]
    | None => overlays
    end /\
  forall shown,
    deferredSelect h (r :: q) shown
    = match nodeAt h q with
      | Some m =>
          match bounds_computed (attributes m) with
          | Some b => [mkOverlay b "#52c41a" "Selected"]
          | None => shown
          end
      | None => shown
      end.
Proof.
  intros Hp. unfold handleTap. simpl. rewrite Hp. simpl.
  split; [reflexivity |]. split; [reflexivity |].
  intros shown. unfold deferredSelect.
  destruct (select_of_path h r q) as [(m & d & Hm & -> & Hd) | (Hm & ->)]; rewrite Hm.
  - rewrite Hd. now destruct (bounds_computed (attributes m)).
  - reflexivity.
Qed.

Lemma tap_highlight_witness :
  deferredSelect Scenario.hiddenParent [0; 0]%nat
    (fst (handleTap (Some "emulator-5554")
            (Some (mkFindByCoordinateResponse true
                     (Some (mkSelectedElement "android.widget.Button"
                              (attributes Scenario.okButton) (Some [0; 0]%nat)))))
            (Some Scenario.hiddenParent) []))
  = [mkOverlay (mkBounds 100 200 200 80) "#52c41a" "Selected"].
Proof.
  destruct (tap_highlight "emulator-5554"
              (mkSelectedElement "android.widget.Button" (attributes Scenario.okButton)
                                 (Some [0; 0]%nat))
              Scenario.hiddenParent 0 [0%nat] []) as (_ & _ & H); [reflexivity |].
  rewrite H. reflexivity.
Defined.

End AppFacts.
